(** * RAG PDF Query Manual: the retrieval-augmented query core

    A shallow embedding of the client-side logic of the repository
    (services/geminiService.ts, App.tsx, types.ts) and the properties its
    specification states about it.

    - JavaScript strings are sequences of UTF-16 code units ([list N]).
    - JavaScript numbers are IEEE 754 binary64 values: the kernel's
      primitive floats, whose operations round exactly as the engine's do.
    - [try]/[catch] is a completion value ([Normal] or [Throw]) threaded by a
      small monad; the external services are parameters of the functions that
      call them.
    - React state is one [Session] record; an asynchronous handler becomes
      the sequence of its synchronous segments, one per event that resumes
      it, and the handlers in flight share the session in a [World]. *)

From Stdlib Require Import Ascii String.
From Stdlib Require Import List Arith NArith ZArith Lia Bool Floats.
From Stdlib Require Import Permutation Sorted.
From Equations Require Import Equations.
Import ListNotations.

Set Warnings "-inexact-float".

(* ================================================================== *)
(** * JavaScript strings *)

Module Js.

(** A string is the list of its UTF-16 code units. *)
Definition jsstring : Type := list N.

(** An ASCII literal of the source. *)
Definition lit (s : string) : jsstring :=
  map N_of_ascii (list_ascii_of_string s).

Definition LF : N := 10.
Definition COMMA : N := 44.
Definition DQUOTE : N := 34.

Fixpoint str_eqb (s t : jsstring) : bool :=
  match s, t with
  | [], [] => true
  | c :: s', d :: t' => N.eqb c d && str_eqb s' t'
  | _, _ => false
  end.

(** ECMAScript WhiteSpace and LineTerminator code points: what the regular
    expression class [\s] matches and what [String.prototype.trim] strips. *)
Definition isSpace (c : N) : bool :=
  ((9 <=? c) && (c <=? 13)                (* TAB LF VT FF CR *)
   || (c =? 32) || (c =? 160)              (* SP, NBSP *)
   || (c =? 5760)                          (* U+1680 *)
   || (8192 <=? c) && (c <=? 8202)         (* U+2000 .. U+200A *)
   || (c =? 8232) || (c =? 8233)           (* U+2028, U+2029 *)
   || (c =? 8239) || (c =? 8287)           (* U+202F, U+205F *)
   || (c =? 12288) || (c =? 65279))%N.     (* U+3000, U+FEFF *)

Fixpoint trimStart (s : jsstring) : jsstring :=
  match s with
  | c :: s' => if isSpace c then trimStart s' else s
  | [] => []
  end.

(** [String.prototype.trim] *)
Definition trim (s : jsstring) : jsstring :=
  rev (trimStart (rev (trimStart s))).

(** [Array.prototype.join] on an array of strings. *)
Fixpoint join (sep : jsstring) (parts : list jsstring) : jsstring :=
  match parts with
  | [] => []
  | [p] => p
  | p :: rest => p ++ sep ++ join sep rest
  end.

(** [String.prototype.split] with a one-character string separator: the
    pieces between the occurrences of [c], in order (never empty as a
    list). *)
Fixpoint split_on (c : N) (s : jsstring) : list jsstring :=
  match s with
  | [] => [[]]
  | d :: s' =>
      if N.eqb d c then [] :: split_on c s'
      else match split_on c s' with
           | p :: ps => (d :: p) :: ps
           | [] => [[d]]
           end
  end.

(** [Array.prototype.map] with the index argument. *)
Fixpoint mapi_from {A B} (f : A -> nat -> B) (i : nat) (l : list A) : list B :=
  match l with
  | [] => []
  | x :: l' => f x i :: mapi_from f (S i) l'
  end.

Definition mapi {A B} (f : A -> nat -> B) (l : list A) : list B :=
  mapi_from f 0 l.

(** [Array.prototype.reduce] with an initial value and the index argument. *)
Fixpoint reduce_from {A B} (f : B -> A -> nat -> B) (i : nat) (acc : B)
    (l : list A) : B :=
  match l with
  | [] => acc
  | x :: l' => reduce_from f (S i) (f acc x i) l'
  end.

Definition reduce {A B} (f : B -> A -> nat -> B) (init : B) (l : list A) : B :=
  reduce_from f 0 init l.

End Js.
Import Js.

(* ================================================================== *)
(** * Exceptions *)

(** An [Error] object as the handlers inspect it: its [name] and its
    [message]. *)
Record JsError : Type := mkError { err_name : jsstring; err_message : jsstring }.

(** [new Error(message)] *)
Definition new_Error (message : jsstring) : JsError :=
  {| err_name := lit "Error"; err_message := message |}.

(** The engine's error for a property read on [undefined]. *)
Definition TypeError : JsError :=
  {| err_name := lit "TypeError";
     err_message := lit "Cannot read properties of undefined" |}.

(** A thrown value: an [Error] instance, or anything else. *)
Inductive Thrown : Type :=
| ThrownError (e : JsError)
| ThrownOther.

(** The outcome of a [try] body or of a settled promise. *)
Inductive Completion (A : Type) : Type :=
| Normal (a : A)
| Throw (t : Thrown).
Arguments Normal {A} a.
Arguments Throw {A} t.

Definition bind {A B} (c : Completion A) (k : A -> Completion B) : Completion B :=
  match c with
  | Normal a => k a
  | Throw t => Throw t
  end.

Notation "x <- c ;; k" := (bind c (fun x => k))
  (at level 61, c at next level, right associativity).

Definition throw_new_Error {A} (message : jsstring) : Completion A :=
  Throw (ThrownError (new_Error message)).

(** [Array.prototype.map] with a callback that may throw: the first throw
    ends the loop. *)
Fixpoint mapM {A B} (f : A -> Completion B) (l : list A) : Completion (list B) :=
  match l with
  | [] => Normal []
  | x :: l' => y <- f x;; ys <- mapM f l';; Normal (y :: ys)
  end.

(** [await Promise.all(promises)] over promises that have settled: the list
    of the values when all fulfilled, otherwise a rejection (which one wins
    depends on completion order; every caller here discards it). *)
Fixpoint Promise_all {A} (settled : list (Completion A)) : Completion (list A) :=
  match settled with
  | [] => Normal []
  | p :: rest => a <- p;; more <- Promise_all rest;; Normal (a :: more)
  end.

(* ================================================================== *)
(** * types.ts *)

Inductive Sender : Type := user | ai.

Record ChatMessage : Type := { sender : Sender; text : jsstring }.

Record VectorStoreItem : Type :=
  { content : jsstring; embedding : list float }.

(* ================================================================== *)
(** * services/geminiService.ts: vector database logic *)

Module Vector.
Local Open Scope float_scope.

(** [vecB[i]]: a read past the end is [undefined], which the multiplication
    converts to NaN. *)
Definition at_index (vec : list float) (i : nat) : float := nth i vec nan.

Definition dotProduct (vecA vecB : list float) : float :=
  reduce (fun sum val i => sum + val * at_index vecB i) 0 vecA.

Definition sumOfSquares (vec : list float) : float :=
  reduce (fun sum val _ => sum + val * val) 0 vec.

Definition magnitude (vec : list float) : float := sqrt (sumOfSquares vec).

(** [===] on numbers is IEEE equality: [PrimFloat.eqb]. *)
Definition cosineSimilarity (vecA vecB : list float) : float :=
  let magA := magnitude vecA in
  let magB := magnitude vecB in
  if (magA =? 0) || (magB =? 0) then 0
  else dotProduct vecA vecB / (magA * magB).

Definition zeroVector (n : nat) : list float := repeat 0 n.

End Vector.
Import Vector.

(* ================================================================== *)
(** * services/geminiService.ts: the Gemini API wrappers *)

(** ** The SDK's request and response shapes (imported, not in the
    repository) *)

Record EmbedContentParameters : Type :=
  { ec_model : jsstring; ec_contents : jsstring }.

(** [values] is read as the [number[]] that [VectorStoreItem] declares for
    it.  The SDK declares the field optional; a response whose first
    embedding has no [values] would be stored as an [undefined] embedding,
    a store outside the declared type of [VectorStoreItem] and outside this
    model. *)
Record ContentEmbedding : Type := { values : list float }.

(** [embeddings] is optional in the SDK's response type: [None] is
    [undefined]. *)
Record EmbedContentResponse : Type :=
  { embeddings : option (list ContentEmbedding) }.

(** One content part of a generative request. *)
Inductive Part : Type :=
| TextPart (text : jsstring)
| InlineDataPart (mimeType : jsstring) (data : option jsstring).

Record GenerationConfig : Type := { temperature : float; topP : float }.

Record GenerateContentParameters : Type :=
  { gc_model : jsstring; gc_parts : list Part; gc_config : GenerationConfig }.

Record GenerateContentResponse : Type := { response_text : jsstring }.

(** The external services: each call settles as a fulfilled or a rejected
    promise, and a value of [GenAI] fixes how every request settles. *)
Record GenAI : Type :=
  { embedContent : EmbedContentParameters -> Completion EmbedContentResponse;
    generateContent : GenerateContentParameters -> Completion GenerateContentResponse }.

Definition embeddingModel : jsstring := lit "text-embedding-004".
Definition generativeModel : jsstring := lit "gemini-2.5-flash".

Definition MISMATCH_MESSAGE : jsstring :=
  lit "Mismatch between number of chunks and embeddings returned.".
Definition EMBED_FAILED_MESSAGE : jsstring :=
  lit "Failed to embed document chunks.".
Definition QUERY_FAILED_MESSAGE : jsstring :=
  lit "Failed to get a response from the AI model.".

(** [res.embeddings[0].values]: reading [[0]] of [undefined], or [.values]
    of a missing first element, throws. *)
Definition firstEmbedding (res : EmbedContentResponse) : Completion (list float) :=
  match embeddings res with
  | Some (e :: _) => Normal (values e)
  | _ => Throw (ThrownError TypeError)
  end.

(** [embeddings[i]] in the final [map]; the length check before it keeps
    the index in range, so the [undefined] of a read past the end (here the
    empty vector) is never stored. *)
Definition embedding_at (embeddings : list (list float)) (i : nat) : list float :=
  nth i embeddings [].

(** ** embedChunks *)

(** The [try] body from the point where [Promise.all] has been awaited. *)
Definition embedChunks_joined (chunks : list jsstring)
    (responses : list EmbedContentResponse) : Completion (list VectorStoreItem) :=
  embeddings <- mapM firstEmbedding responses;;
  if negb (length embeddings =? length chunks) then
    throw_new_Error MISMATCH_MESSAGE
  else
    Normal (mapi (fun chunk i =>
                    {| content := chunk; embedding := embedding_at embeddings i |})
                 chunks).

(** The whole [try] body. *)
Definition embedChunks_try (genai : GenAI) (chunks : list jsstring)
    : Completion (list VectorStoreItem) :=
  responses <- Promise_all
                 (map (fun chunk =>
                         embedContent genai {| ec_model := embeddingModel;
                                            ec_contents := chunk |})
                      chunks);;
  embedChunks_joined chunks responses.

(** The [catch] clause: whatever was thrown is logged and replaced. *)
Definition embedChunks_catch {A} (body : Completion A) : Completion A :=
  match body with
  | Normal a => Normal a
  | Throw _ => throw_new_Error EMBED_FAILED_MESSAGE
  end.

Definition embedChunks (genai : GenAI) (chunks : list jsstring)
    : Completion (list VectorStoreItem) :=
  embedChunks_catch (embedChunks_try genai chunks).

(** ** embedQuery *)

Definition embedQuery (genai : GenAI) (query : jsstring) : Completion (list float) :=
  response <- embedContent genai {| ec_model := embeddingModel; ec_contents := query |};;
  firstEmbedding response.

(** ** queryDocument *)

(** An element of [scoredChunks]: the item's fields and its similarity. *)
Record ScoredChunk : Type :=
  { sc_content : jsstring; sc_embedding : list float; similarity : float }.

Definition scoreChunks (queryEmbedding : list float)
    (vectorStore : list VectorStoreItem) : list ScoredChunk :=
  map (fun item =>
         {| sc_content := content item;
            sc_embedding := embedding item;
            similarity := cosineSimilarity queryEmbedding (embedding item) |})
      vectorStore.

(** The comparator passed to [sort]: [(a, b) => b.similarity - a.similarity]. *)
Definition comparefn (a b : ScoredChunk) : float :=
  (similarity b - similarity a)%float.

(** ** Array.prototype.sort

    ECMAScript's [SortCompare] turns the comparator's number into a three-way
    answer, NaN counting as [+0]; the sort is stable, and with a consistent
    comparator its result is the one stable arrangement, whatever algorithm
    the engine runs.  The model is the stable insertion sort.  Where the
    comparator is not consistent (a NaN similarity) the order is
    implementation-defined and an engine may leave another one than this
    model: what is stated of the order below either assumes consistency or
    holds of every rearrangement. *)
Section ArraySort.
Context {A : Type} (cf : A -> A -> float).

Definition SortCompare (x y : A) : comparison :=
  let v := cf x y in
  if (v <? 0)%float then Lt
  else if (0 <? v)%float then Gt
  else Eq.

Fixpoint sort_insert (x : A) (sorted : list A) : list A :=
  match sorted with
  | [] => [x]
  | y :: rest =>
      match SortCompare x y with
      | Gt => y :: sort_insert x rest
      | _ => x :: sorted
      end
  end.

Fixpoint array_sort (l : list A) : list A :=
  match l with
  | [] => []
  | x :: rest => sort_insert x (array_sort rest)
  end.
End ArraySort.

Definition topK : nat := 5.
Definition CONTEXT_SEPARATOR : jsstring := [LF; LF] ++ lit "---" ++ [LF; LF].

(** Steps 2 and 3: score, sort, [slice(0, topK)], project the contents. *)
Definition rankedChunks (queryEmbedding : list float)
    (vectorStore : list VectorStoreItem) : list ScoredChunk :=
  array_sort comparefn (scoreChunks queryEmbedding vectorStore).

Definition relevantChunks (queryEmbedding : list float)
    (vectorStore : list VectorStoreItem) : list jsstring :=
  map sc_content (firstn topK (rankedChunks queryEmbedding vectorStore)).

Definition buildContext (queryEmbedding : list float)
    (vectorStore : list VectorStoreItem) : jsstring :=
  join CONTEXT_SEPARATOR (relevantChunks queryEmbedding vectorStore).

(** Step 4: the template literal of the prompt, line by line. *)
Definition PROMPT_HEAD : jsstring :=
  lit "You are an expert AI assistant specializing in analyzing documents. Your task is to answer the user's question based *exclusively* on the provided context and images from a PDF document."
  ++ [LF; LF]
  ++ lit "Analyze the following document context and answer the user's question. Do not use any external knowledge. If the answer cannot be found in the provided context, state that clearly and concisely."
  ++ [LF; LF]
  ++ lit "--- DOCUMENT CONTEXT START ---" ++ [LF].

Definition PROMPT_TAIL : jsstring :=
  [LF] ++ lit "--- DOCUMENT CONTEXT END ---"
  ++ [LF; LF]
  ++ lit "The document also includes the document pages as images. Refer to them if the text is unclear or if the question relates to visual elements."
  ++ [LF].

Definition buildPrompt (context : jsstring) : jsstring :=
  PROMPT_HEAD ++ context ++ PROMPT_TAIL.

(** [dataUrl.split(',')[1]]: the second piece, [undefined] when there is no
    comma. *)
Definition dataUrlPayload (dataUrl : jsstring) : option jsstring :=
  nth_error (split_on COMMA dataUrl) 1.

Definition imageParts (documentImages : list jsstring) : list Part :=
  map (fun dataUrl => InlineDataPart (lit "image/jpeg") (dataUrlPayload dataUrl))
      documentImages.

Definition QUESTION_HEADER : jsstring := lit "--- USER QUESTION --- " ++ [LF].

Definition buildContents (prompt query : jsstring) (documentImages : list jsstring)
    : list Part :=
  [TextPart prompt] ++ imageParts documentImages
  ++ [TextPart (QUESTION_HEADER ++ query)].

(** Step 5: the argument of [ai.models.generateContent]. *)
Definition buildRequest (query : jsstring) (queryEmbedding : list float)
    (vectorStore : list VectorStoreItem) (documentImages : list jsstring)
    : GenerateContentParameters :=
  {| gc_model := generativeModel;
     gc_parts := buildContents (buildPrompt (buildContext queryEmbedding vectorStore))
                               query documentImages;
     gc_config := {| temperature := 0.1%float; topP := 0.9%float |} |}.

(** Steps 4 and 5 alone, from the local [relevantChunks] on: the request
    is a function of the query, the passages selected and the images. *)
Definition answerRequest (query : jsstring) (relevantChunks : list jsstring)
    (documentImages : list jsstring) : GenerateContentParameters :=
  {| gc_model := generativeModel;
     gc_parts := buildContents (buildPrompt (join CONTEXT_SEPARATOR relevantChunks))
                               query documentImages;
     gc_config := {| temperature := 0.1%float; topP := 0.9%float |} |}.

Definition queryDocument_try (genai : GenAI) (query : jsstring)
    (vectorStore : list VectorStoreItem) (documentImages : list jsstring)
    : Completion jsstring :=
  queryEmbedding <- embedQuery genai query;;
  response <- generateContent genai
                (buildRequest query queryEmbedding vectorStore documentImages);;
  Normal (response_text response).

Definition queryDocument (genai : GenAI) (query : jsstring)
    (vectorStore : list VectorStoreItem) (documentImages : list jsstring)
    : Completion jsstring :=
  match queryDocument_try genai query vectorStore documentImages with
  | Normal answer => Normal answer
  | Throw _ => throw_new_Error QUERY_FAILED_MESSAGE
  end.

(* ================================================================== *)
(** * App.tsx: the chunker *)

Module Chunker.

(** The regular expression [/\n\s*\n/].  [match_star_LF s] matches [\s*\n]
    at the start of [s] and returns what follows the match: the star is
    greedy, so it first tries to take one more white-space character and only
    on failure gives the current one to the final [\n]. *)
Fixpoint match_star_LF (s : jsstring) : option jsstring :=
  match s with
  | c :: s' =>
      if isSpace c then
        match match_star_LF s' with
        | Some rest => Some rest
        | None => if N.eqb c LF then Some s' else None
        end
      else None
  | [] => None
  end.

(** A match of the whole expression at the start of [s]. *)
Definition match_separator (s : jsstring) : option jsstring :=
  match s with
  | c :: s' => if N.eqb c LF then match_star_LF s' else None
  | [] => None
  end.

Definition inspect {A} (a : A) : {b : A | a = b} := exist _ a eq_refl.

(** [String.prototype.split] with that expression: scan from the left; at a
    match, close the current piece ([cur], kept reversed) and resume after
    the match; otherwise move one character on; the last piece ends the
    list.  The expression never matches the empty string, so the empty text
    yields one empty piece. *)
Equations? split_from (cur : jsstring) (s : jsstring) : list jsstring
  by wf (length s) lt :=
  split_from cur [] := [rev cur];
  split_from cur (c :: s') with inspect (match_separator (c :: s')) := {
    | exist _ (Some rest) H => rev cur :: split_from [] rest
    | exist _ None _ => split_from (c :: cur) s' }.
Proof.
  assert (shorter : forall t r, match_star_LF t = Some r -> length r < length t).
  { induction t as [|d t IH]; simpl; intros r Hr; [discriminate|].
    destruct (isSpace d); [|discriminate].
    destruct (match_star_LF t) as [r'|] eqn:E.
    - inversion Hr; subst. specialize (IH _ eq_refl). lia.
    - destruct (N.eqb d LF); inversion Hr; subst; lia. }
  simpl in H. destruct (N.eqb c LF); [|discriminate].
  apply shorter in H. simpl. lia.
Qed.

Definition split_paragraphs (text : jsstring) : list jsstring :=
  split_from [] text.

(** The filter's predicate: [p.trim().length > 10]. *)
Definition long_enough (p : jsstring) : bool := 10 <? length (trim p).

Definition chunkText (text : jsstring) : list jsstring :=
  filter long_enough (split_paragraphs text).

End Chunker.
Import Chunker.

(* ================================================================== *)
(** * App.tsx: session state *)

Inductive Status : Type := idle | parsing | indexing | ready | querying.

Definition status_eqb (a b : Status) : bool :=
  match a, b with
  | idle, idle | parsing, parsing | indexing, indexing
  | ready, ready | querying, querying => true
  | _, _ => false
  end.

(** The seven [useState] cells of [App]. *)
Record Session : Type :=
  { documentLoaded : bool;
    documentTitle : jsstring;
    pdfImages : list jsstring;
    vectorStore : list VectorStoreItem;
    chatHistory : list ChatMessage;
    status : Status;
    error : option jsstring }.

Definition setDocumentLoaded (v : bool) (s : Session) : Session :=
  {| documentLoaded := v; documentTitle := documentTitle s;
     pdfImages := pdfImages s; vectorStore := vectorStore s;
     chatHistory := chatHistory s; status := status s; error := error s |}.

Definition setDocumentTitle (v : jsstring) (s : Session) : Session :=
  {| documentLoaded := documentLoaded s; documentTitle := v;
     pdfImages := pdfImages s; vectorStore := vectorStore s;
     chatHistory := chatHistory s; status := status s; error := error s |}.

Definition setPdfImages (v : list jsstring) (s : Session) : Session :=
  {| documentLoaded := documentLoaded s; documentTitle := documentTitle s;
     pdfImages := v; vectorStore := vectorStore s;
     chatHistory := chatHistory s; status := status s; error := error s |}.

Definition setVectorStore (v : list VectorStoreItem) (s : Session) : Session :=
  {| documentLoaded := documentLoaded s; documentTitle := documentTitle s;
     pdfImages := pdfImages s; vectorStore := v;
     chatHistory := chatHistory s; status := status s; error := error s |}.

(** [setChatHistory] takes an updater of the previous transcript. *)
Definition setChatHistory (f : list ChatMessage -> list ChatMessage)
    (s : Session) : Session :=
  {| documentLoaded := documentLoaded s; documentTitle := documentTitle s;
     pdfImages := pdfImages s; vectorStore := vectorStore s;
     chatHistory := f (chatHistory s); status := status s; error := error s |}.

Definition setStatus (v : Status) (s : Session) : Session :=
  {| documentLoaded := documentLoaded s; documentTitle := documentTitle s;
     pdfImages := pdfImages s; vectorStore := vectorStore s;
     chatHistory := chatHistory s; status := v; error := error s |}.

Definition setError (v : option jsstring) (s : Session) : Session :=
  {| documentLoaded := documentLoaded s; documentTitle := documentTitle s;
     pdfImages := pdfImages s; vectorStore := vectorStore s;
     chatHistory := chatHistory s; status := status s; error := v |}.

Definition initialSession : Session :=
  {| documentLoaded := false; documentTitle := []; pdfImages := [];
     vectorStore := []; chatHistory := []; status := idle; error := None |}.

Definition resetState (s : Session) : Session :=
  setError None (setStatus idle (setChatHistory (fun _ => [])
    (setVectorStore [] (setPdfImages [] (setDocumentTitle []
      (setDocumentLoaded false s)))))).

(* ================================================================== *)
(** * App.tsx: ingestion of pasted text *)

Definition TEXT_TOO_SHORT_MESSAGE : jsstring :=
  lit "No text provided or text is too short.".
Definition TEXT_UNEXPECTED_MESSAGE : jsstring :=
  lit "An unexpected error occurred while processing the text.".
Definition TEXT_READY_MESSAGE : jsstring :=
  lit "The provided text has been processed and indexed. You can now ask questions about its content.".

(** The [try] body of [processAndIndexText] up to the awaited
    [embedChunks]. *)
Definition indexText (genai : GenAI) (text : jsstring)
    : Completion (list VectorStoreItem) :=
  let textChunks := chunkText text in
  if length textChunks =? 0 then throw_new_Error TEXT_TOO_SHORT_MESSAGE
  else embedChunks genai textChunks.

(** [err instanceof Error ? err.message : fallback] *)
Definition messageOr (fallback : jsstring) (err : Thrown) : jsstring :=
  match err with
  | ThrownError e => err_message e
  | ThrownOther => fallback
  end.

(** [processAndIndexText]: the segment before the [await] and the one that
    resumes with its outcome. *)
Definition processAndIndexText (genai : GenAI) (text : jsstring) (s : Session)
    : Session :=
  let s := setError None (setStatus indexing s) in
  match indexText genai text with
  | Normal embeddedChunks =>
      setChatHistory (fun _ => [{| sender := ai; text := TEXT_READY_MESSAGE |}])
        (setDocumentLoaded true (setStatus ready
          (setVectorStore embeddedChunks s)))
  | Throw err =>
      setStatus idle (setError (Some (messageOr TEXT_UNEXPECTED_MESSAGE err)) s)
  end.

Definition handleTextSubmit (genai : GenAI) (text : jsstring) (s : Session)
    : Session :=
  if negb (length (trim text) =? 0) then
    processAndIndexText genai text
      (setDocumentTitle (lit "Pasted Text") (resetState s))
  else s.

(* ================================================================== *)
(** * App.tsx: ingestion of a PDF file

    [processAndIndexPdf] races [processingPromise] (the file reader's
    [onload] handler, an asynchronous function) against [timeoutPromise].
    The handler runs in segments, one per event that resumes it; the timer
    is one more event.  [Processing] is the point the handler is suspended
    at, with its local variables; [racePending] says that
    [await Promise.race(...)] has not settled yet. *)

Inductive Processing : Type :=
| ReadingFile
    (* fileReader.readAsArrayBuffer(file) in flight *)
| LoadingDocument
    (* await pdfjsLib.getDocument(typedArray).promise *)
| ExtractingPage (i numPages : nat) (fullText : jsstring) (images : list jsstring)
    (* the awaits of iteration i of the page loop *)
| EmbeddingChunks (textChunks : list jsstring)
    (* await embedChunks(textChunks) *)
| Settled.
    (* processingPromise resolved or rejected: the handler has returned *)

Record App : Type :=
  { session : Session;
    fileName : jsstring;
    processing : Processing;
    racePending : bool }.

(** What one page of the document yields: the [str] of its text items, and
    the JPEG data URL of its rendering when a 2d context was obtained. *)
Record PageResult : Type :=
  { items : list jsstring; rendering : option jsstring }.

Inductive Event : Type :=
| FileLoaded (hasResult : bool)               (* fileReader.onload *)
| FileFailed                                   (* fileReader.onerror *)
| DocumentSettled (r : Completion nat)         (* getDocument: numPages *)
| PageSettled (r : Completion PageResult)      (* getPage, getTextContent, render *)
| EmbeddingSettled (genai : GenAI)             (* the embedding calls settle *)
| TimerFired.                                  (* PDF_PROCESSING_TIMEOUT elapsed *)

Definition PDF_PROCESSING_TIMEOUT : N := 30000.

Definition TIMEOUT : jsstring := lit "Timeout".
Definition NO_TEXT_CONTENT : jsstring := lit "NoTextContent".

Definition PDF_UNEXPECTED_MESSAGE : jsstring :=
  lit "An unexpected error occurred. Please try another file.".
Definition PDF_TIMEOUT_MESSAGE : jsstring :=
  lit "Processing timed out. The PDF might be too large or complex.".
Definition PDF_NO_TEXT_MESSAGE : jsstring :=
  lit "Could not extract any text from the PDF. The document might be image-based or empty.".
Definition PDF_INVALID_MESSAGE : jsstring :=
  lit "The file appears to be a corrupted or invalid PDF.".
Definition PDF_PASSWORD_MESSAGE : jsstring :=
  lit "The PDF is password-protected and cannot be processed.".
Definition PDF_FAILED_MESSAGE : jsstring :=
  lit "Failed to process the PDF. It might be corrupted or in a complex format.".

Definition pdfReadyMessage (name : jsstring) : jsstring :=
  lit "Document " ++ [DQUOTE] ++ name ++ [DQUOTE]
  ++ lit " has been processed and indexed. You can now ask questions about its content.".

(** The two nested [switch] statements of the [catch] block. *)
Definition pdfErrorMessage (err : Thrown) : jsstring :=
  match err with
  | ThrownError e =>
      if str_eqb (err_message e) TIMEOUT then PDF_TIMEOUT_MESSAGE
      else if str_eqb (err_message e) NO_TEXT_CONTENT then PDF_NO_TEXT_MESSAGE
      else if str_eqb (err_name e) (lit "InvalidPDFException") then PDF_INVALID_MESSAGE
      else if str_eqb (err_name e) (lit "PasswordException") then PDF_PASSWORD_MESSAGE
      else PDF_FAILED_MESSAGE
  | ThrownOther => PDF_UNEXPECTED_MESSAGE
  end.

(** The [catch] block after [await Promise.race(...)]. *)
Definition raceRejected (err : Thrown) (s : Session) : Session :=
  setStatus idle (setError (Some (pdfErrorMessage err)) s).

(** [reject(err)] of [processingPromise]: the handler is over; the race
    settles with it unless the timer already settled it. *)
Definition reject (err : Thrown) (a : App) : App :=
  {| session := if racePending a then raceRejected err (session a) else session a;
     fileName := fileName a;
     processing := Settled;
     racePending := false |}.

(** [resolve()] of [processingPromise]. *)
Definition resolve (a : App) : App :=
  {| session := session a; fileName := fileName a;
     processing := Settled; racePending := false |}.

Definition suspendAt (p : Processing) (a : App) : App :=
  {| session := session a; fileName := fileName a;
     processing := p; racePending := racePending a |}.

Definition withSession (f : Session -> Session) (a : App) : App :=
  {| session := f (session a); fileName := fileName a;
     processing := processing a; racePending := racePending a |}.

(** After the page loop: commit the images, enter [indexing], chunk. *)
Definition afterPages (fullText : jsstring) (images : list jsstring) (a : App) : App :=
  let a := withSession (fun s => setStatus indexing (setPdfImages images s)) a in
  let textChunks := chunkText fullText in
  if length textChunks =? 0 then
    reject (ThrownError (new_Error NO_TEXT_CONTENT)) a
  else suspendAt (EmbeddingChunks textChunks) a.

(** The loop test [i <= pdf.numPages]. *)
Definition pageLoop (i numPages : nat) (fullText : jsstring)
    (images : list jsstring) (a : App) : App :=
  if i <=? numPages then suspendAt (ExtractingPage i numPages fullText images) a
  else afterPages fullText images a.

(** After [await embedChunks(textChunks)]. *)
Definition afterEmbedding (r : Completion (list VectorStoreItem)) (a : App) : App :=
  match r with
  | Throw err => reject err a
  | Normal embeddedChunks =>
      resolve
        (withSession
           (fun s =>
              setChatHistory
                (fun _ => [{| sender := ai; text := pdfReadyMessage (fileName a) |}])
                (setDocumentLoaded true (setStatus ready
                  (setVectorStore embeddedChunks s))))
           a)
  end.

(** One turn of the event loop. An event that no suspended code waits for
    changes nothing. *)
Definition step (a : App) (ev : Event) : App :=
  match ev, processing a with
  | FileLoaded hasResult, ReadingFile =>
      if hasResult then suspendAt LoadingDocument a
      else reject (ThrownError (new_Error (lit "File could not be read."))) a
  | FileFailed, ReadingFile =>
      reject (ThrownError (new_Error (lit "Error reading file."))) a
  | DocumentSettled (Throw err), LoadingDocument => reject err a
  | DocumentSettled (Normal numPages), LoadingDocument => pageLoop 1 numPages [] [] a
  | PageSettled (Throw err), ExtractingPage _ _ _ _ => reject err a
  | PageSettled (Normal page), ExtractingPage i numPages fullText images =>
      pageLoop (S i) numPages
        (fullText ++ join (lit " ") (items page) ++ [LF; LF])
        (match rendering page with
         | Some dataUrl => images ++ [dataUrl]
         | None => images
         end)
        a
  | EmbeddingSettled genai, EmbeddingChunks textChunks =>
      afterEmbedding (embedChunks genai textChunks) a
  | TimerFired, _ =>
      if racePending a then
        {| session := raceRejected (ThrownError (new_Error TIMEOUT)) (session a);
           fileName := fileName a;
           processing := processing a;
           racePending := false |}
      else a
  | _, _ => a
  end.

Definition run (a : App) (evs : list Event) : App := fold_left step evs a.

(** [processAndIndexPdf(file)] up to its [await]. *)
Definition processAndIndexPdf (name : jsstring) (s : Session) : App :=
  {| session := setError None (setStatus parsing s);
     fileName := name;
     processing := ReadingFile;
     racePending := true |}.

(** [handleFileSelect(file)] with a file. *)
Definition handleFileSelect (name : jsstring) (s : Session) : App :=
  processAndIndexPdf name (setDocumentTitle name (resetState s)).

(* ================================================================== *)
(** * App.tsx: queries *)

Definition APOLOGY : jsstring :=
  lit "Sorry, I encountered an error trying to answer your question. Please try again.".
Definition QUERY_ERROR_NOTICE : jsstring :=
  lit "An error occurred while querying the Gemini API.".

Definition appendMessage (m : ChatMessage) (s : Session) : Session :=
  setChatHistory (fun prev => prev ++ [m]) s.

(** [handleQuerySubmit]: the guard, the segment before the [await], and the
    [try]/[catch]/[finally] that resumes with the outcome of
    [queryDocument]. *)
Definition handleQuerySubmit (genai : GenAI) (query : jsstring) (s : Session)
    : Session :=
  if (length (vectorStore s) =? 0) || negb (status_eqb (status s) ready) then s
  else
    let s1 := appendMessage {| sender := user; text := query |}
                (setError None (setStatus querying s)) in
    let s2 :=
      match queryDocument genai query (vectorStore s) (pdfImages s) with
      | Normal answer => appendMessage {| sender := ai; text := answer |} s1
      | Throw _ =>
          setError (Some QUERY_ERROR_NOTICE)
            (appendMessage {| sender := ai; text := APOLOGY |} s1)
      end in
    setStatus ready s2.

(* ================================================================== *)
(** * Vocabulary of the properties *)

(** The dot product read as a fold over the paired coordinates: the index
    [i] of the reducer walks [vecB] in step with [vecA]. *)
Definition pairwise_sum (acc : float) (ps : list (float * float)) : float :=
  fold_left (fun sum p => (sum + fst p * snd p)%float) ps acc.

(** The request [embedChunks] issues for one chunk. *)
Definition embedRequest (chunk : jsstring) : EmbedContentParameters :=
  {| ec_model := embeddingModel; ec_contents := chunk |}.

Definition pairWith (embeddings : list (list float)) (chunks : list jsstring)
    : list VectorStoreItem :=
  mapi (fun chunk i => {| content := chunk; embedding := embedding_at embeddings i |})
       chunks.

(** A stub of the external services: every text is embedded by [embed],
    every question is answered by [answer]. *)
Definition stubGenAI (embed : jsstring -> list float) (answer : jsstring) : GenAI :=
  {| embedContent := fun req =>
       Normal {| embeddings := Some [ {| values := embed (ec_contents req) |} ] |};
     generateContent := fun _ => Normal {| response_text := answer |} |}.

(** A service whose every call is rejected. *)
Definition failingGenAI : GenAI :=
  {| embedContent := fun _ => throw_new_Error (lit "503");
     generateContent := fun _ => throw_new_Error (lit "503") |}.

(** A stub embedding with two values. *)
Definition twoPointEmbedding (special : jsstring) (v w : list float)
    (s : jsstring) : list float :=
  if str_eqb s special then v else w.

(** What the stub stores for a chunk. *)
Definition stubItem (embed : jsstring -> list float) (c : jsstring)
    : VectorStoreItem :=
  {| content := c; embedding := embed c |}.

Section SortVocabulary.
Context {A : Type} (cf : A -> A -> float).

(** ECMAScript's consistent comparator on a set of values: the three
    answers split the set into classes of ties that are totally ordered.
    Without it the order [sort] leaves is implementation-defined. *)
Record Consistent (S : A -> Prop) : Prop :=
  { cf_refl : forall a, S a -> SortCompare cf a a = Eq;
    cf_sym : forall a b, S a -> S b -> SortCompare cf a b = Eq -> SortCompare cf b a = Eq;
    cf_trans_eq : forall a b c, S a -> S b -> S c ->
      SortCompare cf a b = Eq -> SortCompare cf b c = Eq -> SortCompare cf a c = Eq;
    cf_trans_lt : forall a b c, S a -> S b -> S c ->
      SortCompare cf a b = Lt -> SortCompare cf b c = Lt -> SortCompare cf a c = Lt;
    cf_trans_gt : forall a b c, S a -> S b -> S c ->
      SortCompare cf a b = Gt -> SortCompare cf b c = Gt -> SortCompare cf a c = Gt }.

(** [x] may stand before [y]: the comparator does not ask for [y] first. *)
Definition notAfter (x y : A) : Prop := SortCompare cf x y <> Gt.

(** [y] is tied with [k]. *)
Definition tiedb (k y : A) : bool :=
  match SortCompare cf k y with Eq => true | _ => false end.

End SortVocabulary.

(** The similarities read with [>=]: each one at least the next. *)
Definition descendingGe (l : list ScoredChunk) : Prop :=
  StronglySorted (fun x y => (similarity y <=? similarity x)%float = true) l.

(** A paragraph separator: a line feed, white space, a line feed; that is,
    one or more blank lines. *)
Definition isSeparator (sep : jsstring) : Prop :=
  exists ws, sep = LF :: ws ++ [LF] /\ forallb isSpace ws = true.

(** The text put back together: pieces with a separator between
    neighbours. *)
Fixpoint interleave (pieces seps : list jsstring) : jsstring :=
  match pieces, seps with
  | p :: pieces', sep :: seps' => p ++ sep ++ interleave pieces' seps'
  | p :: _, [] => p
  | [], _ => []
  end.

(** Some separator match starts inside [s]. *)
Fixpoint containsSeparator (s : jsstring) : bool :=
  match s with
  | [] => false
  | _ :: s' =>
      match match_separator s with
      | Some _ => true
      | None => containsSeparator s'
      end
  end.

(** No separator match begins in the pending piece [cur], however the
    remaining text [s] continues it. *)
Definition pendingClean (cur s : jsstring) : Prop :=
  forall t1 t2, rev cur = t1 ++ t2 -> t2 <> [] -> match_separator (t2 ++ s) = None.

(** The alphabet of a base64 payload: letters, digits, [+], [/], [=]. *)
Definition isBase64Char (c : N) : bool :=
  ((65 <=? c) && (c <=? 90) || (97 <=? c) && (c <=? 122)
   || (48 <=? c) && (c <=? 57) || (c =? 43) || (c =? 47) || (c =? 61))%N.


(** ** Sample data *)

Definition sampleStore : list VectorStoreItem :=
  [ {| content := lit "Alpha beta."; embedding := [1; 0]%float |};
    {| content := lit "Gamma delta epsilon."; embedding := [0; 1]%float |};
    {| content := lit "Zeta eta theta."; embedding := [0; 2]%float |} ].

(** Vectors whose products overflow against the query (1e154, 0). *)
Definition overflowStore : list VectorStoreItem :=
  [ {| content := lit "first passage"; embedding := [1; 1]%float |};
    {| content := lit "second passage"; embedding := [1e155; 0]%float |};
    {| content := lit "third passage"; embedding := [1; 0]%float |} ].

Definition BETA : jsstring := lit "Beta chunk text".
Definition ALPHA : jsstring := lit "Alpha chunk text".

Definition indexingSession : Session :=
  setStatus indexing (setDocumentTitle (lit "Pasted Text") initialSession).

Definition readySession : Session :=
  setStatus ready (setVectorStore sampleStore indexingSession).

Definition slowPage : PageResult :=
  {| items := [lit "A page of text,"; lit "long enough to keep."];
     rendering := Some (lit "data:image/jpeg;base64" ++ [COMMA] ++ lit "/9j/4AAQSkZJRg==") |}.

Definition slowStart : list Event :=
  [FileLoaded true; DocumentSettled (Normal 1); PageSettled (Normal slowPage)].

(* ================================================================== *)
(** * components/ChatInterface.tsx and components/FileUpload.tsx: the
    handlers that call into [App] *)

(** [ChatInterface]'s [handleSubmit]: the component's own state is the
    text of the input box; [status] is the prop it receives from [App].  The
    result is what [onQuerySubmit] made of the session and the new text of
    the box. *)
Definition ChatInterface_handleSubmit
    (onQuerySubmit : jsstring -> Session -> Session)
    (query : jsstring) (s : Session) : Session * jsstring :=
  if negb (length (trim query) =? 0) && status_eqb (status s) ready then
    (onQuerySubmit (trim query) s, [])
  else (s, query).

(** [FileUpload]'s [handleTextProcess]: the argument it calls
    [onTextSubmit] with, if it calls it. *)
Definition handleTextProcess (textContent : jsstring) : option jsstring :=
  if negb (length (trim textContent) =? 0) then Some (trim textContent)
  else None.

(** A [File] as the upload handlers read it. *)
Record File : Type := { file_name : jsstring; file_type : jsstring }.

Inductive UploadAction : Type :=
| CallOnFileSelect (file : File)
| CallAlert (message : jsstring)
| NoCall.

(** [handleDrop], from [e.dataTransfer.files] on. *)
Definition handleDrop (files : list File) : UploadAction :=
  match files with
  | file :: _ =>
      if str_eqb (file_type file) (lit "application/pdf") then CallOnFileSelect file
      else CallAlert (lit "Please upload a PDF file.")
  | [] => NoCall
  end.

(** [handleFileChange], from [e.target.files] on. *)
Definition handleFileChange (files : list File) : UploadAction :=
  match files with
  | file :: _ => CallOnFileSelect file
  | [] => NoCall
  end.

(** [isLoading] of [FileUpload]. *)
Definition isLoading (st : Status) : bool :=
  status_eqb st parsing || status_eqb st indexing.

(** [App] wires [onQuerySubmit] to [handleQuerySubmit] and [onTextSubmit] to
    [handleTextSubmit]. *)
Definition submitQuery (genai : GenAI) (query : jsstring) (s : Session)
    : Session * jsstring :=
  ChatInterface_handleSubmit (handleQuerySubmit genai) query s.

Definition pasteText (genai : GenAI) (textContent : jsstring) (s : Session)
    : Session :=
  match handleTextProcess textContent with
  | Some text => handleTextSubmit genai text s
  | None => s
  end.

(* ================================================================== *)
(** * Vocabulary of the further properties *)

(** Where the scan resumes after a blank line that is followed by [rest]:
    past any further white space that ends in a line feed. *)
Definition afterBreak (rest : jsstring) : jsstring :=
  match match_star_LF rest with
  | Some r => r
  | None => rest
  end.

(** The text of one page as the page loop builds it, before the paragraph
    break. *)
Definition pageText (page : PageResult) : jsstring :=
  join (lit " ") (items page).

(** Paragraphs each followed by a blank line. *)
Definition paragraphsText (paragraphs : list jsstring) : jsstring :=
  concat (map (fun p => p ++ [LF; LF]) paragraphs).

(** [fullText] after the page loop over [pages]. *)
Definition documentText (pages : list PageResult) : jsstring :=
  paragraphsText (map pageText pages).

(** [images] after the page loop over [pages]. *)
Definition pageImages (pages : list PageResult) : list jsstring :=
  flat_map (fun page => match rendering page with
                        | Some dataUrl => [dataUrl]
                        | None => []
                        end)
           pages.

(** The events of a file that is read, opened and extracted page by
    page. *)
Definition extraction (pages : list PageResult) : list Event :=
  FileLoaded true :: DocumentSettled (Normal (length pages))
  :: map (fun page => PageSettled (Normal page)) pages.

(** The fixed messages [processAndIndexPdf] can record. *)
Definition pdfMessages : list jsstring :=
  [ PDF_UNEXPECTED_MESSAGE; PDF_TIMEOUT_MESSAGE; PDF_NO_TEXT_MESSAGE;
    PDF_INVALID_MESSAGE; PDF_PASSWORD_MESSAGE; PDF_FAILED_MESSAGE ].

(** What holds of the application after any events of a PDF ingestion. *)
Definition pdfInvariant (a : App) : Prop :=
  documentTitle (session a) = fileName a
  /\ status (session a) <> querying
  /\ (status (session a) = ready <-> documentLoaded (session a) = true)
  /\ (documentLoaded (session a) = true ->
      vectorStore (session a) <> []
      /\ chatHistory (session a)
         = [{| sender := ai; text := pdfReadyMessage (fileName a) |}]
      /\ processing a = Settled
      /\ racePending a = false)
  /\ (documentLoaded (session a) = false ->
      vectorStore (session a) = [] /\ chatHistory (session a) = [])
  /\ (forall textChunks, processing a = EmbeddingChunks textChunks ->
      textChunks <> [])
  /\ (error (session a) = None
      \/ exists message, In message pdfMessages /\ error (session a) = Some message).

(* ================================================================== *)
(** * App.tsx: every handler over the one session

    The state setters are shared by all the handlers of [App], and an
    asynchronous handler that has been started goes on writing through them
    after each of its [await]s, whatever has happened to the session in
    between: nothing cancels it.  A [World] is the session together with
    every asynchronous handler started so far, each suspended at an [await]
    or over.  Each turn finds the session as the turns before it left it:
    the component has rendered in between. *)

(** A call of [processAndIndexPdf]: the file's name, where its reader
    handler is suspended, and whether its race is undecided. *)
Record Flow : Type :=
  { flowName : jsstring; flowProcessing : Processing; flowRacePending : bool }.

(** A call of [processAndIndexText]: at [await embedChunks(textChunks)], or
    over. *)
Inductive TextFlow : Type :=
| AwaitingEmbedding (textChunks : list jsstring)
| TextDone.

(** A call of [handleQuerySubmit]: at [await queryDocument(query,
    vectorStore, pdfImages)] with the values its closure read, or over. *)
Inductive QueryFlow : Type :=
| AwaitingAnswer (query : jsstring) (store : list VectorStoreItem)
    (images : list jsstring)
| QueryDone.

Record World : Type :=
  { w_session : Session;
    w_flows : list Flow;
    w_texts : list TextFlow;
    w_queries : list QueryFlow }.

Definition initialWorld : World :=
  {| w_session := initialSession; w_flows := []; w_texts := []; w_queries := [] |}.

(** A flow seen together with the session it writes to. *)
Definition appOf (s : Session) (f : Flow) : App :=
  {| session := s; fileName := flowName f;
     processing := flowProcessing f; racePending := flowRacePending f |}.

Definition flowOf (a : App) : Flow :=
  {| flowName := fileName a; flowProcessing := processing a;
     flowRacePending := racePending a |}.

Fixpoint replace_at {A} (k : nat) (x : A) (l : list A) : list A :=
  match l, k with
  | [], _ => []
  | _ :: rest, O => x :: rest
  | y :: rest, S k' => y :: replace_at k' x rest
  end.

(** [processAndIndexText] up to its [await].  A text without chunks throws
    before the [await], so its [catch] block runs in the same turn. *)
Definition processAndIndexText_begin (text : jsstring) (s : Session)
    : Session * TextFlow :=
  let s := setError None (setStatus indexing s) in
  let textChunks := chunkText text in
  if length textChunks =? 0 then
    (setStatus idle
       (setError (Some (messageOr TEXT_UNEXPECTED_MESSAGE
                          (ThrownError (new_Error TEXT_TOO_SHORT_MESSAGE)))) s),
     TextDone)
  else (s, AwaitingEmbedding textChunks).

(** [processAndIndexText] from the outcome of the awaited [embedChunks]
    on. *)
Definition processAndIndexText_resume (r : Completion (list VectorStoreItem))
    (s : Session) : Session :=
  match r with
  | Normal embeddedChunks =>
      setChatHistory (fun _ => [{| sender := ai; text := TEXT_READY_MESSAGE |}])
        (setDocumentLoaded true (setStatus ready
          (setVectorStore embeddedChunks s)))
  | Throw err =>
      setStatus idle (setError (Some (messageOr TEXT_UNEXPECTED_MESSAGE err)) s)
  end.

(** [handleQuerySubmit] up to its [await]; [None] when the guard
    returns. *)
Definition handleQuerySubmit_begin (query : jsstring) (s : Session)
    : option (Session * QueryFlow) :=
  if (length (vectorStore s) =? 0) || negb (status_eqb (status s) ready) then None
  else
    Some (appendMessage {| sender := user; text := query |}
            (setError None (setStatus querying s)),
          AwaitingAnswer query (vectorStore s) (pdfImages s)).

(** [handleQuerySubmit] from the outcome of the awaited [queryDocument]
    on. *)
Definition handleQuerySubmit_resume (r : Completion jsstring) (s : Session)
    : Session :=
  setStatus ready
    match r with
    | Normal answer => appendMessage {| sender := ai; text := answer |} s
    | Throw _ =>
        setError (Some QUERY_ERROR_NOTICE)
          (appendMessage {| sender := ai; text := APOLOGY |} s)
    end.

(** What can happen to the application: a call of one of its handlers, or
    an event that resumes a handler started earlier. *)
Inductive Action : Type :=
| SelectFile (name : jsstring)                (* handleFileSelect(file) *)
| SubmitText (text : jsstring)                (* handleTextSubmit(text) *)
| SubmitQuery (query : jsstring)              (* handleQuerySubmit(query) *)
| ClearDocument                               (* resetState; handleFileSelect(null) *)
| FlowEvent (k : nat) (ev : Event)            (* an event of the k-th PDF ingestion *)
| TextEmbedded (k : nat) (genai : GenAI)      (* the k-th text ingestion resumes *)
| QueryAnswered (k : nat) (genai : GenAI).    (* the k-th query resumes *)

(** One turn of the event loop of the whole application.  An event of a
    handler that does not exist, or that no longer waits, changes
    nothing. *)
Definition act (w : World) (e : Action) : World :=
  match e with
  | SelectFile name =>
      let a := handleFileSelect name (w_session w) in
      {| w_session := session a; w_flows := w_flows w ++ [flowOf a];
         w_texts := w_texts w; w_queries := w_queries w |}
  | SubmitText text =>
      if negb (length (trim text) =? 0) then
        let started :=
          processAndIndexText_begin text
            (setDocumentTitle (lit "Pasted Text") (resetState (w_session w))) in
        {| w_session := fst started; w_flows := w_flows w;
           w_texts := w_texts w ++ [snd started]; w_queries := w_queries w |}
      else w
  | SubmitQuery query =>
      match handleQuerySubmit_begin query (w_session w) with
      | Some started =>
          {| w_session := fst started; w_flows := w_flows w;
             w_texts := w_texts w; w_queries := w_queries w ++ [snd started] |}
      | None => w
      end
  | ClearDocument =>
      {| w_session := resetState (w_session w); w_flows := w_flows w;
         w_texts := w_texts w; w_queries := w_queries w |}
  | FlowEvent k ev =>
      match nth_error (w_flows w) k with
      | Some f =>
          let a := step (appOf (w_session w) f) ev in
          {| w_session := session a; w_flows := replace_at k (flowOf a) (w_flows w);
             w_texts := w_texts w; w_queries := w_queries w |}
      | None => w
      end
  | TextEmbedded k genai =>
      match nth_error (w_texts w) k with
      | Some (AwaitingEmbedding textChunks) =>
          {| w_session :=
               processAndIndexText_resume (embedChunks genai textChunks) (w_session w);
             w_flows := w_flows w;
             w_texts := replace_at k TextDone (w_texts w);
             w_queries := w_queries w |}
      | _ => w
      end
  | QueryAnswered k genai =>
      match nth_error (w_queries w) k with
      | Some (AwaitingAnswer query store images) =>
          {| w_session :=
               handleQuerySubmit_resume (queryDocument genai query store images)
                 (w_session w);
             w_flows := w_flows w;
             w_texts := w_texts w;
             w_queries := replace_at k QueryDone (w_queries w) |}
      | _ => w
      end
  end.

Definition actAll (w : World) (es : list Action) : World := fold_left act es w.

(** An event addressed to a PDF ingestion by its number. *)
Definition flowEvent (e : nat * Event) : Action := FlowEvent (fst e) (snd e).

(** The events [evs], all addressed to the [k]-th ingestion. *)
Definition ofFlow (k : nat) (evs : list Event) : list (nat * Event) :=
  map (pair k) evs.

(** The events addressed to the [k]-th ingestion among [evs]. *)
Definition eventsOf (k : nat) (evs : list (nat * Event)) : list Event :=
  map snd (filter (fun e => fst e =? k) evs).

(** A PDF ingestion that is over: its handler has returned and its race is
    decided. *)
Definition isOver (f : Flow) : Prop :=
  flowProcessing f = Settled /\ flowRacePending f = false.

(** Nothing is in flight: every handler started so far is over. *)
Definition quiet (w : World) : Prop :=
  Forall isOver (w_flows w)
  /\ Forall (fun t => t = TextDone) (w_texts w)
  /\ Forall (fun q => q = QueryDone) (w_queries w).

(* ================================================================== *)
(** * Vocabulary of the statements on the context, on trimming and on the
    race *)

(** The marker between the passages of the context, code unit by code
    unit: two line feeds, three hyphens, two line feeds. *)
Definition MARKER : jsstring := [10; 10; 45; 45; 45; 10; 10]%N.

(** The spec's words for the context: the blocks, with the marker before
    every block but the first. *)
Definition separatedBy (marker : jsstring) (blocks : list jsstring) : jsstring :=
  match blocks with
  | [] => []
  | block :: rest => block ++ concat (map (fun b => marker ++ b) rest)
  end.

(** The spec's words for trimming: [core] is [s] without the white space
    at its two ends. *)
Definition isCoreOf (core s : jsstring) : Prop :=
  exists lead trail,
    s = lead ++ core ++ trail
    /\ forallb isSpace lead = true
    /\ forallb isSpace trail = true
    /\ (forall c rest, core = c :: rest -> isSpace c = false)
    /\ (forall front c, core = front ++ [c] -> isSpace c = false).

(** While the race of a PDF ingestion is pending the interface shows its
    loader: the status is [parsing] or [indexing]. *)
Definition loadingWhilePending (a : App) : Prop :=
  racePending a = true -> isLoading (status (session a)) = true.

(** The application after the [catch] block has run for the timeout. *)
Definition timedOut (a : App) : App :=
  {| session := raceRejected (ThrownError (new_Error TIMEOUT)) (session a);
     fileName := fileName a;
     processing := processing a;
     racePending := false |}.

(** A page without text items, as a scanned page gives. *)
Definition scannedPage : PageResult :=
  {| items := []; rendering := Some (lit "data:image/jpeg;base64,AAAA") |}.

(* ================================================================== *)
(** * Cosine similarity *)

Section Similarity.
Local Open Scope float_scope.

(** Binary64 multiplication is commutative. *)
Lemma float_mul_comm (x y : float) : x * y = y * x.
Proof.
  apply Prim2SF_inj. rewrite !mul_spec.
  unfold SF64mul, SFmul.
  destruct (Prim2SF x) as [sx|sx| |sx mx ex], (Prim2SF y) as [sy|sy| |sy my ey];
    try reflexivity; rewrite (xorb_comm sx sy); try reflexivity.
  now rewrite (Pos.mul_comm mx my), (Z.add_comm ex ey).
Qed.

Lemma dot_reduce_from (pre vecB vecA : list float) (acc : float) :
  length vecA <= length vecB ->
  reduce_from (fun sum val i => sum + val * at_index (pre ++ vecB) i)
    (length pre) acc vecA
  = pairwise_sum acc (combine vecA vecB).
Proof.
  revert pre vecB acc.
  induction vecA as [|x vecA IH]; intros pre vecB acc Hlen; [reflexivity|].
  destruct vecB as [|y vecB]; [simpl in Hlen; lia|].
  simpl. unfold at_index in *. rewrite nth_middle.
  replace (pre ++ y :: vecB) with ((pre ++ [y]) ++ vecB)
    by (rewrite <- app_assoc; reflexivity).
  replace (S (length pre)) with (length (pre ++ [y]))
    by (rewrite length_app; simpl; lia).
  apply IH. simpl in Hlen. lia.
Qed.

Lemma dotProduct_pairwise (vecA vecB : list float) :
  length vecA <= length vecB ->
  dotProduct vecA vecB = pairwise_sum 0 (combine vecA vecB).
Proof.
  intro Hlen. exact (dot_reduce_from [] vecB vecA 0 Hlen).
Qed.

Lemma pairwise_sum_swap (vecA vecB : list float) (acc : float) :
  pairwise_sum acc (combine vecA vecB) = pairwise_sum acc (combine vecB vecA).
Proof.
  revert vecB acc.
  induction vecA as [|x vecA IH]; intros [|y vecB] acc; try reflexivity.
  simpl. rewrite (float_mul_comm x y). apply IH.
Qed.

Lemma dotProduct_comm (vecA vecB : list float) :
  length vecA = length vecB -> dotProduct vecA vecB = dotProduct vecB vecA.
Proof.
  intro Hlen.
  rewrite !dotProduct_pairwise by lia. apply pairwise_sum_swap.
Qed.

Lemma squares_reduce_from (vec : list float) (i : nat) (acc : float) :
  reduce_from (fun sum val (_ : nat) => sum + val * val) i acc vec
  = pairwise_sum acc (combine vec vec).
Proof.
  revert i acc. induction vec as [|x vec IH]; intros i acc; [reflexivity|].
  simpl. apply IH.
Qed.

(** A vector's dot product with itself is the sum its magnitude is the
    root of. *)
Lemma dotProduct_self (vec : list float) : dotProduct vec vec = sumOfSquares vec.
Proof.
  rewrite dotProduct_pairwise by lia.
  unfold sumOfSquares, reduce. now rewrite squares_reduce_from.
Qed.

Lemma sumOfSquares_zeroVector (n : nat) : sumOfSquares (zeroVector n) = 0.
Proof.
  unfold sumOfSquares, reduce, zeroVector. generalize 0%nat.
  induction n as [|n IH]; intro i; [reflexivity|].
  simpl. change (0 + 0 * 0) with 0. apply IH.
Qed.

Lemma magnitude_zeroVector (n : nat) : magnitude (zeroVector n) = 0.
Proof.
  unfold magnitude. rewrite sumOfSquares_zeroVector. reflexivity.
Qed.

Lemma cosineSimilarity_unfold (vecA vecB : list float) :
  cosineSimilarity vecA vecB =
  if (magnitude vecA =? 0) || (magnitude vecB =? 0) then 0
  else dotProduct vecA vecB / (magnitude vecA * magnitude vecB).
Proof. reflexivity. Qed.

Lemma cosineSimilarity_comm (vecA vecB : list float) :
  length vecA = length vecB ->
  cosineSimilarity vecA vecB = cosineSimilarity vecB vecA.
Proof.
  intro Hlen. rewrite !cosineSimilarity_unfold.
  rewrite (orb_comm (magnitude vecA =? 0)).
  rewrite (dotProduct_comm vecA vecB Hlen).
  now rewrite (float_mul_comm (magnitude vecA)).
Qed.

Lemma cosineSimilarity_self (v : list float) :
  cosineSimilarity v v =
  if magnitude v =? 0 then 0
  else sumOfSquares v / (magnitude v * magnitude v).
Proof.
  rewrite cosineSimilarity_unfold, dotProduct_self.
  now destruct (magnitude v =? 0).
Qed.

(** C5, as amended. For vectors of equal dimension, in binary64
    arithmetic: the similarity is the quotient of the dot product by the
    product of the magnitudes when both computed magnitudes are nonzero, and
    exactly 0 when either is zero; against the zero vector it is 0 on either
    side; it is symmetric (the same value both ways); and a vector's
    similarity with itself is [s / (sqrt s * sqrt s)] for its sum of squares
    [s], or 0 when [sqrt s] is zero. *)
Theorem cosineSimilarity_spec (a b : list float) :
  length a = length b ->
  ((magnitude a =? 0) = false -> (magnitude b =? 0) = false ->
   cosineSimilarity a b = dotProduct a b / (magnitude a * magnitude b))
  /\ ((magnitude a =? 0) = true \/ (magnitude b =? 0) = true ->
      cosineSimilarity a b = 0)
  /\ cosineSimilarity a (zeroVector (length a)) = 0
  /\ cosineSimilarity (zeroVector (length a)) a = 0
  /\ cosineSimilarity a b = cosineSimilarity b a
  /\ cosineSimilarity a a =
     (if sqrt (sumOfSquares a) =? 0 then 0
      else sumOfSquares a / (sqrt (sumOfSquares a) * sqrt (sumOfSquares a))).
Proof.
  intro Hlen. repeat split.
  - intros Ha Hb. rewrite cosineSimilarity_unfold, Ha, Hb. reflexivity.
  - intros [H|H]; rewrite cosineSimilarity_unfold, H; [reflexivity|].
    now rewrite orb_true_r.
  - rewrite cosineSimilarity_unfold, magnitude_zeroVector.
    change (0 =? 0) with true. now rewrite orb_true_r.
  - rewrite cosineSimilarity_unfold, magnitude_zeroVector. reflexivity.
  - now apply cosineSimilarity_comm.
  - apply cosineSimilarity_self.
Qed.

Lemma cosineSimilarity_spec_witness :
  let a := [1; 2] in
  let b := [3; 4] in
  length a = length b
  /\ cosineSimilarity a (zeroVector (length a)) = 0
  /\ cosineSimilarity a b = cosineSimilarity b a.
Proof.
  split; [reflexivity|].
  pose proof (cosineSimilarity_spec [1; 2] [3; 4] eq_refl) as H.
  split; apply H.
Defined.

(** C5 as stated fails: the vector (1, 1, 1) is nonzero, yet its similarity
    with itself is 1.0000000000000002, neither 1 nor within [-1, 1]; and
    (1e200) against itself overflows to NaN. *)
Lemma cosineSimilarity_self_not_one :
  cosineSimilarity [1; 1; 1] [1; 1; 1] = 1.0000000000000002
  /\ cosineSimilarity [1; 1; 1] [1; 1; 1] <> 1
  /\ (cosineSimilarity [1; 1; 1] [1; 1; 1] <=? 1) = false
  /\ cosineSimilarity [1e200] [1e200] = nan.
Proof.
  assert (E : cosineSimilarity [1; 1; 1] [1; 1; 1] = 1.0000000000000002)
    by (vm_compute; reflexivity).
  repeat split; try (vm_compute; reflexivity).
  rewrite E. intro H.
  assert (F : (1.0000000000000002 =? 1) = true) by (rewrite H; reflexivity).
  vm_compute in F. discriminate F.
Qed.

End Similarity.

(* ================================================================== *)
(** * Batch embedding *)

Section CompletionFacts.
Context {A B : Type}.

Lemma Promise_all_nth (settled : list (Completion A)) (values : list A) :
  Promise_all settled = Normal values ->
  length values = length settled
  /\ forall i p, nth_error settled i = Some p ->
       exists a, p = Normal a /\ nth_error values i = Some a.
Proof.
  revert values. induction settled as [|p rest IH]; simpl; intros values H.
  - inversion H; subst. split; [reflexivity|]. now intros [|i] q.
  - destruct p as [a|t]; simpl in H; [|discriminate].
    destruct (Promise_all rest) as [more|t]; simpl in H; [|discriminate].
    inversion H; subst. destruct (IH more eq_refl) as [Hlen Hnth].
    split; [simpl; now rewrite Hlen|].
    intros [|i] q Hq; simpl in *.
    + inversion Hq; subst. now exists a.
    + now apply Hnth.
Qed.


Lemma mapM_nth (f : A -> Completion B) (l : list A) (ys : list B) :
  mapM f l = Normal ys ->
  length ys = length l
  /\ forall i x, nth_error l i = Some x ->
       exists y, f x = Normal y /\ nth_error ys i = Some y.
Proof.
  revert ys. induction l as [|x l IH]; simpl; intros ys H.
  - inversion H; subst. split; [reflexivity|]. now intros [|i] x.
  - destruct (f x) as [y|t] eqn:Hx; simpl in H; [|discriminate].
    destruct (mapM f l) as [more|t]; simpl in H; [|discriminate].
    inversion H; subst. destruct (IH more eq_refl) as [Hlen Hnth].
    split; [simpl; now rewrite Hlen|].
    intros [|i] x' Hx'; simpl in *.
    + inversion Hx'; subst. now exists y.
    + now apply Hnth.
Qed.



End CompletionFacts.

Lemma embedChunks_catch_Normal {A} (body : Completion A) (a : A) :
  embedChunks_catch body = Normal a -> body = Normal a.
Proof. destruct body; simpl; [congruence|discriminate]. Qed.

Lemma embedChunks_catch_Throw {A} (body : Completion A) (t : Thrown) :
  embedChunks_catch body = Throw t ->
  t = ThrownError (new_Error EMBED_FAILED_MESSAGE).
Proof. destruct body; simpl; [discriminate|]. unfold throw_new_Error. congruence. Qed.

(** What a successful [try] body went through. *)
Lemma embedChunks_try_Normal (genai : GenAI) (chunks : list jsstring)
    (stored : list VectorStoreItem) :
  embedChunks_try genai chunks = Normal stored ->
  exists responses embeddings,
    Promise_all (map (fun chunk => embedContent genai (embedRequest chunk)) chunks)
      = Normal responses
    /\ mapM firstEmbedding responses = Normal embeddings
    /\ length embeddings = length chunks
    /\ stored = pairWith embeddings chunks.
Proof.
  unfold embedChunks_try, embedRequest. intro H.
  destruct (Promise_all _) as [responses|t] eqn:Hall; simpl in H; [|discriminate].
  unfold embedChunks_joined in H.
  destruct (mapM firstEmbedding responses) as [embeddings|t] eqn:Hmap;
    simpl in H; [|discriminate].
  destruct (length embeddings =? length chunks) eqn:Hlen; simpl in H;
    [|discriminate].
  apply Nat.eqb_eq in Hlen. inversion H; subst.
  now exists responses, embeddings.
Qed.



(** C10. The calls are one per chunk and [Promise.all] keeps their number,
    as does the [map] that reads the embeddings: whenever the calls all
    succeed and every response carries an embedding, the counts agree, the
    mismatch test is false and the [try] body returns the pairs; on such
    responses the body never throws the mismatch error. *)
Theorem mismatch_branch_unreachable (genai : GenAI) (chunks : list jsstring)
    (responses : list EmbedContentResponse) :
  Promise_all (map (fun chunk => embedContent genai (embedRequest chunk)) chunks)
    = Normal responses ->
  length responses = length chunks
  /\ (forall embeddings,
        mapM firstEmbedding responses = Normal embeddings ->
        length embeddings = length chunks
        /\ negb (length embeddings =? length chunks) = false
        /\ embedChunks_try genai chunks = Normal (pairWith embeddings chunks))
  /\ embedChunks_joined chunks responses <> throw_new_Error MISMATCH_MESSAGE.
Proof.
  intro Hall.
  destruct (Promise_all_nth _ _ Hall) as [Hlen _].
  rewrite length_map in Hlen.
  assert (Hembs : forall embeddings,
             mapM firstEmbedding responses = Normal embeddings ->
             length embeddings = length chunks).
  { intros embeddings Hmap. destruct (mapM_nth _ _ _ Hmap) as [Hl _]. congruence. }
  split; [exact Hlen|]. split.
  - intros embeddings Hmap. pose proof (Hembs _ Hmap) as Heq.
    split; [exact Heq|]. split.
    + apply negb_false_iff, Nat.eqb_eq, Heq.
    + unfold embedChunks_try. unfold embedRequest in Hall. rewrite Hall. simpl.
      unfold embedChunks_joined. rewrite Hmap. simpl.
      apply Nat.eqb_eq in Heq. now rewrite Heq.
  - unfold embedChunks_joined.
    destruct (mapM firstEmbedding responses) as [embeddings|t] eqn:Hmap; simpl.
    + pose proof (Hembs _ eq_refl) as Heq. apply Nat.eqb_eq in Heq.
      rewrite Heq. discriminate.
    + clear -Hmap. revert t Hmap.
      induction responses as [|r rs IH]; simpl; intros t Hmap; [discriminate|].
      unfold firstEmbedding at 1 in Hmap.
      destruct (embeddings r) as [[|e more]|]; simpl in Hmap;
        try (inversion Hmap; subst; vm_compute; discriminate).
      destruct (mapM firstEmbedding rs) as [ys|t'] eqn:Hrs; simpl in Hmap;
        [discriminate|].
      inversion Hmap; subst. now apply IH.
Qed.

Lemma mismatch_branch_unreachable_witness :
  let genai := stubGenAI (twoPointEmbedding (lit "Alpha beta.") [1; 0] [0; 1])%float [] in
  let chunks := [lit "Alpha beta."; lit "Gamma delta epsilon."] in
  exists responses,
    Promise_all (map (fun chunk => embedContent genai (embedRequest chunk)) chunks)
      = Normal responses
    /\ length responses = length chunks.
Proof.
  eexists. split; [reflexivity|].
  eapply (mismatch_branch_unreachable
            (stubGenAI (twoPointEmbedding (lit "Alpha beta.") [1; 0] [0; 1])%float [])).
  reflexivity.
Defined.

(* ================================================================== *)
(** * Sorting *)

Section SortFacts.
Context {A : Type} (cf : A -> A -> float).

Local Abbreviation cmp := (SortCompare cf).

Lemma sort_insert_perm (x : A) (l : list A) :
  Permutation (sort_insert cf x l) (x :: l).
Proof.
  induction l as [|y l IH]; simpl; [apply Permutation_refl|].
  destruct (cmp x y); try apply Permutation_refl.
  eapply Permutation_trans; [apply perm_skip, IH | apply perm_swap].
Qed.

Lemma array_sort_perm (l : list A) : Permutation (array_sort cf l) l.
Proof.
  induction l as [|x l IH]; simpl; [constructor|].
  eapply Permutation_trans; [apply sort_insert_perm | now apply perm_skip].
Qed.

Lemma array_sort_length (l : list A) : length (array_sort cf l) = length l.
Proof. apply Permutation_length, array_sort_perm. Qed.

Lemma array_sort_In (l : list A) (x : A) : In x (array_sort cf l) <-> In x l.
Proof.
  split; apply Permutation_in;
    [apply array_sort_perm | apply Permutation_sym, array_sort_perm].
Qed.

Section UnderConsistency.
Context (S : A -> Prop) (HS : Consistent cf S).

Lemma cf_gt_lt (a b : A) : S a -> S b -> cmp a b = Gt -> cmp b a = Lt.
Proof.
  intros Ha Hb Hab. destruct (cmp b a) eqn:Hba; [| reflexivity |].
  - pose proof (cf_sym cf S HS b a Hb Ha Hba). congruence.
  - pose proof (cf_trans_gt cf S HS a b a Ha Hb Ha Hab Hba).
    pose proof (cf_refl cf S HS a Ha). congruence.
Qed.

Lemma cf_lt_gt (a b : A) : S a -> S b -> cmp a b = Lt -> cmp b a = Gt.
Proof.
  intros Ha Hb Hab. destruct (cmp b a) eqn:Hba; [| | reflexivity].
  - pose proof (cf_sym cf S HS b a Hb Ha Hba). congruence.
  - pose proof (cf_trans_lt cf S HS a b a Ha Hb Ha Hab Hba).
    pose proof (cf_refl cf S HS a Ha). congruence.
Qed.

Lemma notAfter_trans (a b c : A) :
  S a -> S b -> S c -> notAfter cf a b -> notAfter cf b c -> notAfter cf a c.
Proof.
  unfold notAfter. intros Ha Hb Hc Hab Hbc Hac.
  pose proof (cf_gt_lt a c Ha Hc Hac) as Hca.
  destruct (cmp a b) eqn:Eab; [| |congruence];
    destruct (cmp b c) eqn:Ebc; try congruence.
  - pose proof (cf_trans_eq cf S HS a b c Ha Hb Hc Eab Ebc). congruence.
  - (* a tied with b, b before c, c before a *)
    pose proof (cf_trans_lt cf S HS b c a Hb Hc Ha Ebc Hca).
    pose proof (cf_sym cf S HS a b Ha Hb Eab). congruence.
  - (* a before b, b tied with c, c before a *)
    pose proof (cf_trans_lt cf S HS c a b Hc Ha Hb Hca Eab).
    pose proof (cf_sym cf S HS b c Hb Hc Ebc). congruence.
  - pose proof (cf_trans_lt cf S HS a b c Ha Hb Hc Eab Ebc). congruence.
Qed.

Lemma sort_insert_sorted (x : A) (l : list A) :
  S x -> Forall S l ->
  StronglySorted (notAfter cf) l -> StronglySorted (notAfter cf) (sort_insert cf x l).
Proof.
  intros Hx HSl Hsorted.
  induction Hsorted as [|y l Hl IH Hy]; simpl.
  - constructor; constructor.
  - inversion HSl as [|? ? HSy HSl']; subst.
    destruct (cmp x y) eqn:Exy.
    + constructor; [now constructor|]. constructor; [unfold notAfter; congruence|].
      rewrite Forall_forall in *. intros z Hz.
      apply (notAfter_trans x y z); auto. unfold notAfter; congruence.
    + constructor; [now constructor|]. constructor; [unfold notAfter; congruence|].
      rewrite Forall_forall in *. intros z Hz.
      apply (notAfter_trans x y z); auto. unfold notAfter; congruence.
    + constructor; [now apply IH|].
      rewrite Forall_forall in *. intros z Hz.
      apply (Permutation_in _ (sort_insert_perm x l)) in Hz.
      destruct Hz as [<-|Hz]; [|now apply Hy].
      unfold notAfter. rewrite (cf_gt_lt x y Hx HSy Exy). discriminate.
Qed.

Lemma array_sort_sorted (l : list A) :
  Forall S l -> StronglySorted (notAfter cf) (array_sort cf l).
Proof.
  induction l as [|x l IH]; simpl; intro HSl; [constructor|].
  inversion HSl; subst.
  apply sort_insert_sorted; auto.
  rewrite Forall_forall in *. intros z Hz. apply (proj1 (array_sort_In l z)) in Hz. auto.
Qed.

Lemma sort_insert_stable (k x : A) (l : list A) :
  S k -> S x -> Forall S l ->
  filter (tiedb cf k) (sort_insert cf x l) = filter (tiedb cf k) (x :: l).
Proof.
  intros Hk Hx HSl. induction l as [|y l IH]; [reflexivity|].
  inversion HSl as [|? ? Hy HSl']; subst.
  simpl. destruct (cmp x y) eqn:Exy; try reflexivity.
  simpl. rewrite (IH HSl'). simpl.
  destruct (tiedb cf k y) eqn:Ty, (tiedb cf k x) eqn:Tx; try reflexivity.
  (* x and y both tied with k, yet y must precede x *)
  unfold tiedb in Ty, Tx.
  destruct (cmp k y) eqn:Eky; try discriminate.
  destruct (cmp k x) eqn:Ekx; try discriminate.
  pose proof (cf_sym cf S HS k x Hk Hx Ekx) as Exk.
  pose proof (cf_trans_eq cf S HS x k y Hx Hk Hy Exk Eky). congruence.
Qed.

Lemma array_sort_stable (k : A) (l : list A) :
  S k -> Forall S l ->
  filter (tiedb cf k) (array_sort cf l) = filter (tiedb cf k) l.
Proof.
  intros Hk. induction l as [|x l IH]; intro HSl; [reflexivity|].
  inversion HSl; subst. simpl array_sort.
  rewrite sort_insert_stable; auto.
  - simpl. now rewrite IH.
  - rewrite Forall_forall in *. intros z Hz. apply (proj1 (array_sort_In l z)) in Hz. auto.
Qed.

End UnderConsistency.

(** Where the first element lands needs no consistency: an element that
    every earlier one must follow, and that need not follow any later one,
    comes out first. *)
Lemma array_sort_head (before after : list A) (x : A) :
  (forall z, In z before -> cmp z x = Gt) ->
  (forall y, In y after -> cmp x y <> Gt) ->
  exists rest, array_sort cf (before ++ x :: after) = x :: rest.
Proof.
  intros Hbefore Hafter.
  assert (Hx : exists rest, array_sort cf (x :: after) = x :: rest).
  { simpl. destruct (array_sort cf after) as [|y tl] eqn:E; simpl; [now eexists|].
    assert (Hy : In y after) by (apply array_sort_In; rewrite E; now left).
    specialize (Hafter y Hy).
    destruct (cmp x y); try congruence; now eexists. }
  induction before as [|z before IH]; [exact Hx|].
  simpl. destruct IH as [rest ->].
  { intros w Hw. apply Hbefore. now right. }
  simpl. rewrite (Hbefore z) by now left. now eexists.
Qed.

End SortFacts.

(* ================================================================== *)
(** * Retrieval *)

Lemma scoreChunks_contents (q : list float) (vectorStore : list VectorStoreItem) :
  map sc_content (scoreChunks q vectorStore) = map content vectorStore.
Proof.
  unfold scoreChunks. rewrite map_map. reflexivity.
Qed.

Lemma scoreChunks_similarity (q : list float) (vectorStore : list VectorStoreItem) :
  Forall (fun c => similarity c = cosineSimilarity q (sc_embedding c))
         (scoreChunks q vectorStore).
Proof.
  unfold scoreChunks. apply Forall_forall. intros c Hc.
  apply in_map_iff in Hc. destruct Hc as (item & <- & _). reflexivity.
Qed.

(** C3, as amended. Every stored passage is scored by its cosine similarity
    to the query; the ranking is a rearrangement of the scored passages; the
    result is the contents of its first five, all of them when the index
    holds fewer, joined by "\n\n---\n\n" for the prompt.  When the comparator
    [b.similarity - a.similarity] is consistent on the scored passages, the
    ranking is descending (no passage stands before one the comparator puts
    first) and passages the comparator ties keep their insertion order. *)
Theorem retrieval_spec (queryEmbedding : list float)
    (vectorStore : list VectorStoreItem) :
  let scored := scoreChunks queryEmbedding vectorStore in
  let ranked := rankedChunks queryEmbedding vectorStore in
  let relevant := relevantChunks queryEmbedding vectorStore in
  Consistent comparefn (fun c => In c scored) ->
  Permutation ranked scored
  /\ Forall (fun c => similarity c = cosineSimilarity queryEmbedding (sc_embedding c))
            ranked
  /\ StronglySorted (notAfter comparefn) ranked
  /\ (forall k, In k scored ->
        filter (tiedb comparefn k) ranked = filter (tiedb comparefn k) scored)
  /\ relevant = map sc_content (firstn 5 ranked)
  /\ length relevant = Nat.min 5 (length vectorStore)
  /\ (length vectorStore < 5 -> Permutation relevant (map content vectorStore))
  /\ buildContext queryEmbedding vectorStore = join CONTEXT_SEPARATOR relevant
  /\ CONTEXT_SEPARATOR = [LF; LF; 45; 45; 45; LF; LF]%N.
Proof.
  intros scored ranked relevant Hcons.
  assert (Hperm : Permutation ranked scored) by apply array_sort_perm.
  assert (HS : Forall (fun c => In c scored) scored)
    by (apply Forall_forall; auto).
  split; [exact Hperm|]. split.
  { apply Forall_forall. intros c Hc.
    apply (Permutation_in _ Hperm) in Hc.
    pose proof (scoreChunks_similarity queryEmbedding vectorStore) as Hsim.
    rewrite Forall_forall in Hsim. now apply Hsim. }
  split; [now apply (array_sort_sorted comparefn _ Hcons)|].
  split; [intros k Hk; now apply (array_sort_stable comparefn _ Hcons)|].
  split; [reflexivity|]. split.
  { unfold relevant, relevantChunks, rankedChunks, topK.
    rewrite length_map, length_firstn, array_sort_length.
    unfold scoreChunks. now rewrite length_map. }
  split; [|split; reflexivity].
  intro Hfew. unfold relevant, relevantChunks, topK.
  rewrite firstn_all2.
  - rewrite <- (scoreChunks_contents queryEmbedding).
    apply Permutation_map. exact Hperm.
  - unfold rankedChunks. rewrite array_sort_length.
    unfold scoreChunks. rewrite length_map. lia.
Qed.

(** Reading the sort on concrete data: a three-way answer per pair. *)
Ltac settle_comparisons :=
  simpl; intros;
  repeat match goal with
         | H : _ \/ _ |- _ => destruct H
         | H : False |- _ => destruct H
         end;
  subst; vm_compute in *; congruence.

Lemma sampleStore_consistent :
  Consistent comparefn (fun c => In c (scoreChunks [0; 1]%float sampleStore)).
Proof.
  constructor; settle_comparisons.
Qed.

Lemma retrieval_spec_witness :
  relevantChunks [0; 1]%float sampleStore
  = [lit "Gamma delta epsilon."; lit "Zeta eta theta."; lit "Alpha beta."]
  /\ length (relevantChunks [0; 1]%float sampleStore)
     = Nat.min 5 (length sampleStore)
  /\ StronglySorted (notAfter comparefn) (rankedChunks [0; 1]%float sampleStore).
Proof.
  split; [vm_compute; reflexivity|].
  pose proof (retrieval_spec [0; 1]%float sampleStore sampleStore_consistent) as H.
  cbv zeta in H. split; apply H.
Defined.

(** Comparisons with NaN are false. *)
Lemma float_leb_nan (v : float) :
  (nan <=? v)%float = false /\ (v <=? nan)%float = false.
Proof.
  rewrite !leb_spec. unfold SFleb.
  change (Prim2SF nan) with S754_nan.
  split; [reflexivity|]. now destruct (Prim2SF v).
Qed.

Lemma StronglySorted_middle {A} (R : A -> A -> Prop) (l1 l2 : list A) (x : A) :
  StronglySorted R (l1 ++ x :: l2) ->
  Forall (fun y => R y x) l1 /\ Forall (R x) l2.
Proof.
  induction l1 as [|y l1 IH]; simpl; intro H; inversion H as [|? ? Htail Hhead]; subst.
  - split; [constructor | assumption].
  - destruct (IH Htail) as [Hl1 Hl2]. split; [|exact Hl2].
    constructor; [|exact Hl1].
    rewrite Forall_forall in Hhead. apply Hhead, in_elt.
Qed.

(** C3 as stated fails where a similarity is NaN. Against the query
    (1e154, 0) the stored vectors (1, 1), (1e155, 0) and (1, 0) score
    0.707..., NaN (the dot product and a magnitude overflow) and 1; every
    comparison with NaN answers "tied", the passages stay in insertion
    order, and the most similar one is returned last.  Whatever order a sort
    leaves them in, the similarities are not descending: one of them is
    NaN. *)
Lemma retrieval_not_descending :
  let q := [1e154; 0]%float in
  relevantChunks q overflowStore
  = [lit "first passage"; lit "second passage"; lit "third passage"]
  /\ cosineSimilarity q [1e155; 0]%float = nan
  /\ cosineSimilarity q [1; 0]%float = 1%float
  /\ (cosineSimilarity q [1; 1]%float <? cosineSimilarity q [1; 0]%float)%float = true
  /\ ~ StronglySorted (notAfter comparefn) (rankedChunks q overflowStore)
  /\ (forall l, Permutation l (scoreChunks q overflowStore) -> ~ descendingGe l).
Proof.
  repeat split; try (vm_compute; reflexivity).
  - intro Hsorted.
    inversion Hsorted as [|? ? _ Hhead]; subst.
    inversion Hhead as [|? ? _ Hrest]; subst.
    inversion Hrest as [|? ? Hthird _]; subst.
    apply Hthird. vm_compute. reflexivity.
  - intros l Hperm Hdesc.
    set (second := {| sc_content := lit "second passage";
                      sc_embedding := [1e155; 0]%float;
                      similarity := nan |}).
    assert (Hin : In second l).
    { apply (Permutation_in _ (Permutation_sym Hperm)).
      right. left. vm_compute. reflexivity. }
    pose proof (Permutation_length Hperm) as Hlen.
    change (length (scoreChunks [1e154; 0]%float overflowStore)) with 3 in Hlen.
    apply in_split in Hin. destruct Hin as (l1 & l2 & ->).
    apply StronglySorted_middle in Hdesc. destruct Hdesc as [Hl1 Hl2].
    destruct l1 as [|x l1].
    + destruct l2 as [|y l2]; [discriminate Hlen|].
      inversion Hl2 as [|? ? Hy _]; subst. simpl in Hy.
      rewrite (proj2 (float_leb_nan (similarity y))) in Hy. discriminate Hy.
    + inversion Hl1 as [|? ? Hx _]; subst. simpl in Hx.
      rewrite (proj1 (float_leb_nan (similarity x))) in Hx. discriminate Hx.
Qed.

(* ================================================================== *)
(** * Round trip: index, then query with a stored chunk *)

(** A float above zero is not below zero. *)
Lemma float_pos_not_neg (v : float) :
  (0 <? v)%float = true -> (v <? 0)%float = false.
Proof.
  rewrite !ltb_spec. unfold SFltb.
  change (Prim2SF 0%float) with (S754_zero false).
  destruct (Prim2SF v) as [s|s| |s m e]; simpl; try discriminate;
    destruct s; simpl; congruence.
Qed.

Lemma SortCompare_Gt {A} (cf : A -> A -> float) (x y : A) :
  (0 <? cf x y)%float = true -> SortCompare cf x y = Gt.
Proof.
  intro H. unfold SortCompare. now rewrite (float_pos_not_neg _ H), H.
Qed.

Lemma SortCompare_not_Gt {A} (cf : A -> A -> float) (x y : A) :
  (0 <? cf x y)%float = false -> SortCompare cf x y <> Gt.
Proof.
  intro H. unfold SortCompare. rewrite H. now destruct (cf x y <? 0)%float.
Qed.

Lemma pairWith_stub (embed : jsstring -> list float) (pre : list (list float))
    (chunks : list jsstring) :
  mapi_from (fun chunk i =>
               {| content := chunk;
                  embedding := embedding_at (pre ++ map embed chunks) i |})
            (length pre) chunks
  = map (stubItem embed) chunks.
Proof.
  revert pre. induction chunks as [|c chunks IH]; intro pre; [reflexivity|].
  simpl. unfold embedding_at at 1. rewrite nth_middle. f_equal.
  replace (pre ++ embed c :: map embed chunks)
    with ((pre ++ [embed c]) ++ map embed chunks)
    by (rewrite <- app_assoc; reflexivity).
  replace (S (length pre)) with (length (pre ++ [embed c]))
    by (rewrite length_app; simpl; lia).
  apply IH.
Qed.

Lemma embedChunks_stub (embed : jsstring -> list float) (answer : jsstring)
    (chunks : list jsstring) :
  embedChunks (stubGenAI embed answer) chunks = Normal (map (stubItem embed) chunks).
Proof.
  unfold embedChunks, embedChunks_try.
  assert (Hall : Promise_all
            (map (fun chunk =>
                    embedContent (stubGenAI embed answer)
                      {| ec_model := embeddingModel; ec_contents := chunk |})
                 chunks)
          = Normal (map (fun c => {| embeddings := Some [ {| values := embed c |} ] |})
                        chunks)).
  { induction chunks as [|c chunks IH]; [reflexivity|].
    simpl in *. now rewrite IH. }
  rewrite Hall. simpl. unfold embedChunks_joined.
  assert (Hmap : mapM firstEmbedding
            (map (fun c => {| embeddings := Some [ {| values := embed c |} ] |})
                 chunks)
          = Normal (map embed chunks)).
  { clear Hall. induction chunks as [|c chunks IH]; [reflexivity|].
    simpl in *. now rewrite IH. }
  rewrite Hmap. simpl. rewrite length_map, Nat.eqb_refl. simpl.
  unfold mapi. f_equal. exact (pairWith_stub embed [] chunks).
Qed.

(** C6, as amended. With a stub that embeds every text by [embed], index a
    text and query with one of its chunks: the query's embedding is the
    chunk's; the chunk's similarity is [s / (sqrt s * sqrt s)] for the sum of
    squares [s] of its embedding (0 when [sqrt s] is zero); and its content
    is in position 1 whenever that similarity is strictly above the
    similarity of every chunk stored before it and not below that of any
    chunk stored after it. *)
Theorem round_trip (embed : jsstring -> list float) (answer text : jsstring)
    (before after : list jsstring) (chunk : jsstring) :
  let genai := stubGenAI embed answer in
  let sim := fun c => cosineSimilarity (embed chunk) (embed c) in
  let s := sumOfSquares (embed chunk) in
  chunkText text = before ++ chunk :: after ->
  (forall c, In c before -> (0 <? sim chunk - sim c)%float = true) ->
  (forall c, In c after -> (0 <? sim c - sim chunk)%float = false) ->
  exists rest,
    embedChunks genai (chunkText text) = Normal (map (stubItem embed) (chunkText text))
    /\ embedQuery genai chunk = Normal (embed chunk)
    /\ relevantChunks (embed chunk) (map (stubItem embed) (chunkText text))
       = chunk :: rest
    /\ sim chunk = (if sqrt s =? 0 then 0 else s / (sqrt s * sqrt s))%float.
Proof.
  intros genai sim s Hchunks Hbefore Hafter.
  set (score := fun c => {| sc_content := c; sc_embedding := embed c;
                            similarity := sim c |}).
  assert (Hscored : scoreChunks (embed chunk) (map (stubItem embed) (chunkText text))
                    = map score before ++ score chunk :: map score after).
  { rewrite Hchunks. unfold scoreChunks. rewrite map_map, map_app. reflexivity. }
  destruct (array_sort_head comparefn (map score before) (map score after)
              (score chunk)) as [rest Hrest].
  { intros z Hz. apply in_map_iff in Hz. destruct Hz as (c & <- & Hc).
    apply SortCompare_Gt. exact (Hbefore c Hc). }
  { intros y Hy. apply in_map_iff in Hy. destruct Hy as (c & <- & Hc).
    apply SortCompare_not_Gt. exact (Hafter c Hc). }
  exists (map sc_content (firstn 4 rest)).
  split; [apply embedChunks_stub|]. split; [reflexivity|]. split.
  - unfold relevantChunks, rankedChunks. rewrite Hscored, Hrest. reflexivity.
  - apply cosineSimilarity_self.
Qed.

Lemma round_trip_witness :
  let embed := twoPointEmbedding ALPHA [1; 0]%float [0; 1]%float in
  exists rest,
    chunkText (BETA ++ [LF; LF] ++ ALPHA) = [BETA; ALPHA]
    /\ relevantChunks (embed ALPHA) (map (stubItem embed) [BETA; ALPHA])
       = ALPHA :: rest.
Proof.
  destruct (round_trip (twoPointEmbedding ALPHA [1; 0]%float [0; 1]%float) []
              (BETA ++ [LF; LF] ++ ALPHA) [BETA] [] ALPHA) as (rest & _ & _ & H & _).
  - vm_compute. reflexivity.
  - intros c [<-|[]]. vm_compute. reflexivity.
  - intros c [].
  - exists rest. split; [vm_compute; reflexivity|].
    replace [BETA; ALPHA] with (chunkText (BETA ++ [LF; LF] ++ ALPHA))
      by (vm_compute; reflexivity).
    exact H.
Defined.

(** C6 as stated fails twice over.  Rounding: embed the first chunk as
    (1, 2) and the second as (3, 6); queried with the first chunk, its own
    similarity is 0.99999999999999978, the second chunk's is
    0.99999999999999989, and the second chunk is returned first.  Ties: embed
    the first chunk as (1, 0) and the second as (2, 0); queried with the
    second chunk both similarities are exactly 1, and the first chunk is
    returned first. *)
Lemma round_trip_not_first :
  let text := BETA ++ [LF; LF] ++ ALPHA in
  let rounding := twoPointEmbedding ALPHA [3; 6]%float [1; 2]%float in
  let tying := twoPointEmbedding ALPHA [2; 0]%float [1; 0]%float in
  chunkText text = [BETA; ALPHA]
  /\ relevantChunks (rounding BETA) (map (stubItem rounding) (chunkText text))
     = [ALPHA; BETA]
  /\ cosineSimilarity (rounding BETA) (rounding BETA) <> 1%float
  /\ (cosineSimilarity (rounding BETA) (rounding BETA)
      <? cosineSimilarity (rounding BETA) (rounding ALPHA))%float = true
  /\ relevantChunks (tying ALPHA) (map (stubItem tying) (chunkText text))
     = [BETA; ALPHA]
  /\ cosineSimilarity (tying ALPHA) (tying ALPHA) = 1%float
  /\ cosineSimilarity (tying ALPHA) (tying BETA) = 1%float.
Proof.
  repeat split; try (vm_compute; reflexivity).
  intro H.
  assert (F : (cosineSimilarity [1; 2] [1; 2] =? 1)%float = true).
  { change (twoPointEmbedding ALPHA [3; 6]%float [1; 2]%float BETA)
      with [1; 2]%float in H. rewrite H. reflexivity. }
  vm_compute in F. discriminate F.
Qed.

(* ================================================================== *)
(** * Trimming *)

Lemma trimStart_prefix (s : jsstring) :
  exists spaces, s = spaces ++ trimStart s /\ forallb isSpace spaces = true.
Proof.
  induction s as [|c s (spaces & Hs & Hspaces)]; [now exists []|].
  simpl. destruct (isSpace c) eqn:Hc.
  - exists (c :: spaces). simpl. rewrite Hc, Hspaces. split; [|reflexivity].
    now rewrite <- Hs.
  - now exists [].
Qed.

Lemma trimStart_head (s : jsstring) (c : N) (rest : jsstring) :
  trimStart s = c :: rest -> isSpace c = false.
Proof.
  induction s as [|d s IH]; simpl; [discriminate|].
  destruct (isSpace d) eqn:Hd; [exact IH|].
  intro H. inversion H; subst. exact Hd.
Qed.

Lemma trimStart_fixed (c : N) (rest : jsstring) :
  isSpace c = false -> trimStart (c :: rest) = c :: rest.
Proof. intro H. simpl. now rewrite H. Qed.

Lemma trimStart_spaces (s : jsstring) :
  forallb isSpace s = true -> trimStart s = [].
Proof.
  induction s as [|c s IH]; [reflexivity|]. simpl.
  intro H. apply andb_prop in H. destruct H as [Hc Hs]. rewrite Hc. now apply IH.
Qed.

Lemma trim_spaces (s : jsstring) : forallb isSpace s = true -> trim s = [].
Proof. intro H. unfold trim. now rewrite (trimStart_spaces s H). Qed.

(** What [trim] returns starts and ends with a character that is not white
    space, unless it is empty. *)
Lemma trim_ends (s : jsstring) :
  trim s = []
  \/ exists first last, isSpace first = false /\ isSpace last = false
       /\ (exists rest, trim s = first :: rest)
       /\ (exists front, trim s = front ++ [last]).
Proof.
  unfold trim.
  destruct (trimStart (rev (trimStart s))) as [|last v] eqn:Hv; [now left|].
  right. pose proof (trimStart_head _ _ _ Hv) as Hlast.
  destruct (trimStart_prefix (rev (trimStart s))) as (spaces & Hrev & _).
  rewrite Hv in Hrev.
  assert (Hu : trimStart s = rev v ++ [last] ++ rev spaces).
  { rewrite <- (rev_involutive (trimStart s)), Hrev, rev_app_distr. simpl.
    now rewrite <- app_assoc. }
  destruct (trimStart s) as [|first u] eqn:Hs.
  { destruct (rev v); discriminate Hu. }
  pose proof (trimStart_head _ _ _ Hs) as Hfirst.
  simpl. destruct (rev v) as [|e front] eqn:Hfront; simpl in Hu.
  - inversion Hu; subst. exists last, last. repeat split; auto.
    + now exists [].
    + now exists [].
  - inversion Hu; subst. exists e, last. repeat split; auto.
    + now exists (front ++ [last]).
    + now exists (e :: front).
Qed.

Lemma trim_idempotent (s : jsstring) : trim (trim s) = trim s.
Proof.
  destruct (trim_ends s) as [->|(first & last & Hfirst & Hlast & [rest Hr] & [front Hf])];
    [reflexivity|].
  unfold trim at 1. rewrite Hr, (trimStart_fixed _ _ Hfirst), <- Hr, Hf.
  rewrite rev_app_distr. simpl. rewrite Hlast. simpl.
  now rewrite rev_involutive.
Qed.

Lemma trimStart_app_spaces (spaces s : jsstring) :
  forallb isSpace spaces = true -> trimStart (spaces ++ s) = trimStart s.
Proof.
  induction spaces as [|c spaces IH]; [reflexivity|]. simpl.
  intro H. apply andb_prop in H. destruct H as [Hc Hs]. rewrite Hc. now apply IH.
Qed.

Lemma forallb_isSpace_rev (s : jsstring) :
  forallb isSpace (rev s) = forallb isSpace s.
Proof.
  induction s as [|c s IH]; [reflexivity|]. simpl.
  rewrite forallb_app, IH. simpl. rewrite andb_true_r. apply andb_comm.
Qed.

(** [trim] returns the core of its argument. *)
Lemma trim_isCoreOf (s : jsstring) : isCoreOf (trim s) s.
Proof.
  destruct (trimStart_prefix s) as (lead & Hs & Hlead).
  destruct (trimStart_prefix (rev (trimStart s))) as (spaces & Hrev & Hspaces).
  exists lead, (rev spaces).
  split.
  { unfold trim. rewrite <- rev_app_distr, <- Hrev, rev_involutive. exact Hs. }
  split; [exact Hlead|].
  split; [now rewrite forallb_isSpace_rev|].
  destruct (trim_ends s)
    as [Hnil|(first & last & Hfirst & Hlast & [rest Hr] & [front Hf])].
  - rewrite Hnil. split.
    + intros c rest H. discriminate H.
    + intros front c H. destruct front; discriminate H.
  - split.
    + intros c rest' H. rewrite Hr in H. inversion H; subst. exact Hfirst.
    + intros front' c H. rewrite Hf in H. apply app_inj_tail in H.
      destruct H as [_ ->]. exact Hlast.
Qed.

(** The core is unique: it is what [trim] returns. *)
Lemma isCoreOf_trim (core s : jsstring) : isCoreOf core s -> core = trim s.
Proof.
  intros (lead & trail & -> & Hlead & Htrail & Hfirst & Hlast).
  unfold trim. rewrite (trimStart_app_spaces lead _ Hlead).
  destruct core as [|c rest].
  - simpl. now rewrite (trimStart_spaces trail Htrail).
  - cbn [app]. rewrite (trimStart_fixed c (rest ++ trail) (Hfirst c rest eq_refl)).
    change (c :: rest ++ trail) with ((c :: rest) ++ trail).
    rewrite rev_app_distr, trimStart_app_spaces
      by now rewrite forallb_isSpace_rev.
    destruct (rev (c :: rest)) as [|last front] eqn:Hr.
    { apply (f_equal (@length N)) in Hr. rewrite length_rev in Hr. discriminate Hr. }
    assert (Hcore : c :: rest = rev front ++ [last]).
    { rewrite <- (rev_involutive (c :: rest)), Hr. reflexivity. }
    rewrite (trimStart_fixed last front (Hlast _ _ Hcore)).
    now rewrite <- Hr, rev_involutive.
Qed.

(* ================================================================== *)
(** * Chunking *)

Lemma match_star_LF_shorter (s r : jsstring) :
  match_star_LF s = Some r -> length r < length s.
Proof.
  revert r; induction s as [|c s IH]; simpl; intros r H; [discriminate|].
  destruct (isSpace c); [|discriminate].
  destruct (match_star_LF s) as [r'|] eqn:E.
  - inversion H; subst. specialize (IH _ eq_refl). lia.
  - destruct (N.eqb c LF); inversion H; subst; lia.
Qed.

Lemma match_separator_shorter (s r : jsstring) :
  match_separator s = Some r -> length r < length s.
Proof.
  destruct s as [|c s]; simpl; [discriminate|].
  destruct (N.eqb c LF); [|discriminate].
  intros H%match_star_LF_shorter. lia.
Qed.

Lemma split_from_cons (cur : jsstring) (c : N) (s' : jsstring) :
  split_from cur (c :: s') =
  match match_separator (c :: s') with
  | Some rest => rev cur :: split_from [] rest
  | None => split_from (c :: cur) s'
  end.
Proof.
  simp split_from.
  destruct (inspect (match_separator (c :: s'))) as [[rest|] H];
    simp split_from; rewrite H; reflexivity.
Qed.

(** Induction along the scan of [split_from]. *)
Lemma split_from_induction (P : jsstring -> jsstring -> Prop) :
  (forall cur, P cur []) ->
  (forall cur c s' rest,
     match_separator (c :: s') = Some rest -> P [] rest -> P cur (c :: s')) ->
  (forall cur c s',
     match_separator (c :: s') = None -> P (c :: cur) s' -> P cur (c :: s')) ->
  forall cur s, P cur s.
Proof.
  intros Hnil Hsome Hnone cur s.
  remember (length s) as n eqn:Hn. revert cur s Hn.
  induction n as [n IH] using lt_wf_ind. intros cur [|c s'] Hn; [apply Hnil|].
  destruct (match_separator (c :: s')) as [rest|] eqn:E.
  - apply (Hsome cur c s' rest E).
    apply (IH (length rest)); [|reflexivity].
    subst n. now apply match_separator_shorter.
  - apply (Hnone cur c s' E).
    apply (IH (length s')); [|reflexivity]. subst n. simpl. lia.
Qed.

Lemma match_star_LF_spec (s rest : jsstring) :
  match_star_LF s = Some rest ->
  exists ws, s = ws ++ LF :: rest /\ forallb isSpace ws = true.
Proof.
  revert rest. induction s as [|c s IH]; simpl; intros rest H; [discriminate|].
  destruct (isSpace c) eqn:Hc; [|discriminate].
  destruct (match_star_LF s) as [r|] eqn:E.
  - inversion H; subst. destruct (IH rest eq_refl) as (ws & -> & Hws).
    exists (c :: ws). simpl. now rewrite Hc, Hws.
  - destruct (N.eqb c LF) eqn:Hlf; [|discriminate].
    inversion H; subst. apply N.eqb_eq in Hlf. subst c. now exists [].
Qed.

Lemma match_separator_spec (s rest : jsstring) :
  match_separator s = Some rest ->
  exists sep, s = sep ++ rest /\ isSeparator sep.
Proof.
  destruct s as [|c s]; simpl; [discriminate|].
  destruct (N.eqb c LF) eqn:Hlf; [|discriminate].
  apply N.eqb_eq in Hlf. subst c. intro H.
  destruct (match_star_LF_spec _ _ H) as (ws & -> & Hws).
  exists (LF :: ws ++ [LF]). split.
  - simpl. now rewrite <- app_assoc.
  - now exists ws.
Qed.

(** A match is not lost when the text goes on. *)
Lemma match_star_LF_extend (u v : jsstring) :
  match_star_LF u <> None -> match_star_LF (u ++ v) <> None.
Proof.
  induction u as [|c u IH]; simpl; [congruence|].
  destruct (isSpace c); [|congruence].
  destruct (match_star_LF u) as [r|] eqn:E.
  - intros _. destruct (match_star_LF (u ++ v)); [discriminate|].
    exfalso. apply IH; congruence.
  - destruct (N.eqb c LF); [|congruence].
    intros _. destruct (match_star_LF (u ++ v)); discriminate.
Qed.

Lemma match_separator_extend (u v : jsstring) :
  match_separator (u ++ v) = None -> match_separator u = None.
Proof.
  destruct u as [|c u]; [reflexivity|]. simpl.
  destruct (N.eqb c LF); [|reflexivity].
  intro H. destruct (match_star_LF u) eqn:E; [|reflexivity].
  exfalso. apply (match_star_LF_extend u v); congruence.
Qed.

Lemma containsSeparator_false (s : jsstring) :
  (forall t1 t2, s = t1 ++ t2 -> match_separator t2 = None) ->
  containsSeparator s = false.
Proof.
  induction s as [|c s IH]; intro H; [reflexivity|].
  cbn [containsSeparator]. rewrite (H [] (c :: s) eq_refl).
  apply IH. intros t1 t2 ->. now apply (H (c :: t1) t2).
Qed.

Lemma pendingClean_piece (cur s : jsstring) :
  pendingClean cur s -> containsSeparator (rev cur) = false.
Proof.
  intro H. apply containsSeparator_false. intros t1 t2 Heq.
  destruct t2 as [|d t2]; [reflexivity|].
  apply (match_separator_extend _ s). apply (H t1); [exact Heq|discriminate].
Qed.

Lemma pendingClean_step (cur : jsstring) (c : N) (s' : jsstring) :
  match_separator (c :: s') = None ->
  pendingClean cur (c :: s') -> pendingClean (c :: cur) s'.
Proof.
  intros Hnone H t1 t2 Heq Hne. simpl in Heq.
  destruct (exists_last Hne) as (t2' & d & ->).
  rewrite app_assoc in Heq. apply app_inj_tail in Heq. destruct Heq as [Heq <-].
  rewrite <- app_assoc. simpl.
  destruct t2' as [|e t2']; [exact Hnone|].
  apply (H t1); [exact Heq|discriminate].
Qed.

Lemma split_from_pieces (cur s : jsstring) :
  (exists seps,
     Forall isSeparator seps
     /\ length (split_from cur s) = S (length seps)
     /\ interleave (split_from cur s) seps = rev cur ++ s)
  /\ (pendingClean cur s ->
      Forall (fun p => containsSeparator p = false) (split_from cur s)).
Proof.
  revert cur s. apply split_from_induction.
  - intro cur. simp split_from. split.
    + exists []. simpl. now rewrite app_nil_r.
    + intro H. constructor; [|constructor]. exact (pendingClean_piece cur [] H).
  - intros cur c s' rest Hmatch [(seps & Hseps & Hlen & Hjoin) Hclean].
    rewrite split_from_cons, Hmatch.
    destruct (match_separator_spec _ _ Hmatch) as (sep & Hsplit & Hsep).
    split.
    + exists (sep :: seps). split; [now constructor|]. split.
      * simpl. now rewrite Hlen.
      * cbn [interleave]. rewrite Hjoin, Hsplit. reflexivity.
    + intro H. constructor.
      * exact (pendingClean_piece cur _ H).
      * apply Hclean. intros t1 t2 Heq Hne.
        symmetry in Heq. apply app_eq_nil in Heq. tauto.
  - intros cur c s' Hnone [(seps & Hseps & Hlen & Hjoin) Hclean].
    rewrite split_from_cons, Hnone. split.
    + exists seps. split; [exact Hseps|]. split; [exact Hlen|].
      rewrite Hjoin. simpl. now rewrite <- app_assoc.
    + intro H. apply Hclean. now apply pendingClean_step.
Qed.

Lemma filter_none {A} (f : A -> bool) (l : list A) :
  Forall (fun x => f x = false) l -> filter f l = [].
Proof.
  induction 1 as [|x l Hx _ IH]; [reflexivity|]. simpl. now rewrite Hx.
Qed.

(** C4. The chunker cuts the text at the matches of [/\n\s*\n/]: the pieces,
    with separators made of a line feed, white space and a line feed put
    back between them, give the text again, and no piece contains such a
    separator.  The trimmed piece is the piece without the white space at
    its two ends, and nothing else is; the chunks are the pieces whose
    trimmed length exceeds 10, untrimmed and in the order of the text: a
    piece whose core has 10 characters or fewer is dropped however much
    white space surrounds it.  When no piece is that long (the empty text
    included) there are no chunks; the text ingestion then ends [idle] with
    its no-content message, leaving the index as it was, and the PDF
    ingestion ends with the index as it was and no document loaded, [idle]
    with its no-content message when its race is still pending. *)
Theorem chunkText_spec (text : jsstring) :
  let pieces := split_paragraphs text in
  (exists seps,
     Forall isSeparator seps
     /\ length pieces = S (length seps)
     /\ interleave pieces seps = text)
  /\ Forall (fun p => containsSeparator p = false) pieces
  /\ chunkText text = filter (fun p => 10 <? length (trim p)) pieces
  /\ (forall p, isCoreOf (trim p) p /\ forall core, isCoreOf core p -> core = trim p)
  /\ Forall (fun chunk => 10 < length (trim chunk)) (chunkText text)
  /\ Forall (fun chunk => exists core, isCoreOf core chunk /\ 10 < length core)
            (chunkText text)
  /\ (forall p core,
        In p pieces -> isCoreOf core p ->
        (In p (chunkText text) <-> 10 < length core))
  /\ (Forall (fun p => length (trim p) <= 10) pieces -> chunkText text = [])
  /\ chunkText [] = []
  /\ (chunkText text = [] ->
      (forall genai s,
         let s' := processAndIndexText genai text s in
         status s' = idle
         /\ error s' = Some TEXT_TOO_SHORT_MESSAGE
         /\ vectorStore s' = vectorStore s
         /\ documentLoaded s' = documentLoaded s
         /\ chatHistory s' = chatHistory s)
      /\ (forall images a,
            let a' := afterPages text images a in
            vectorStore (session a') = vectorStore (session a)
            /\ documentLoaded (session a') = documentLoaded (session a)
            /\ chatHistory (session a') = chatHistory (session a)
            /\ processing a' = Settled
            /\ racePending a' = false
            /\ status (session a') <> ready
            /\ (racePending a = true ->
                status (session a') = idle
                /\ error (session a') = Some PDF_NO_TEXT_MESSAGE))).
Proof.
  intro pieces. unfold pieces, split_paragraphs.
  destruct (split_from_pieces [] text) as [Hjoin Hclean].
  split; [exact Hjoin|].
  split; [apply Hclean; intros t1 t2 Heq Hne; symmetry in Heq;
          apply app_eq_nil in Heq; tauto|].
  split; [reflexivity|].
  split; [intro p; split; [apply trim_isCoreOf | intros core Hcore; now apply isCoreOf_trim]|].
  split.
  { apply Forall_forall. intros chunk Hin. unfold chunkText in Hin.
    apply filter_In in Hin. destruct Hin as [_ Hlong].
    unfold long_enough in Hlong. now apply Nat.ltb_lt in Hlong. }
  split.
  { apply Forall_forall. intros chunk Hin. unfold chunkText in Hin.
    apply filter_In in Hin. destruct Hin as [_ Hlong].
    unfold long_enough in Hlong. apply Nat.ltb_lt in Hlong.
    exists (trim chunk). split; [apply trim_isCoreOf | exact Hlong]. }
  split.
  { intros p core Hp Hcore. apply isCoreOf_trim in Hcore. subst core.
    unfold chunkText, split_paragraphs. rewrite filter_In.
    unfold long_enough. rewrite Nat.ltb_lt. tauto. }
  split.
  { intro Hshort. unfold chunkText. apply filter_none.
    apply Forall_forall. intros p Hp. rewrite Forall_forall in Hshort.
    unfold long_enough. apply Nat.ltb_ge. now apply Hshort. }
  split; [reflexivity|].
  intro Hnone. split.
  - intros genai s. unfold processAndIndexText, indexText. rewrite Hnone. simpl.
    repeat split.
  - intros images a. unfold afterPages. rewrite Hnone. simpl.
    destruct (racePending a); simpl; repeat split; try discriminate.
Qed.

Lemma chunkText_spec_witness :
  let padded := [9; 160; 65279]%N ++ lit "page 1" ++ [8195; 13; 32; 32; 32; 32]%N in
  let kept := lit "  Alpha beta gamma.  " in
  let text := padded ++ [LF; LF] ++ kept in
  let noise := lit "page 1" ++ [LF; 32%N; LF; LF] ++ lit "      page 2      " in
  split_paragraphs text = [padded; kept]
  /\ length padded = 15
  /\ isCoreOf (lit "page 1") padded
  /\ (In padded (chunkText text) <-> 10 < length (lit "page 1"))
  /\ chunkText text = [kept]
  /\ isCoreOf (lit "Alpha beta gamma.") kept
  /\ split_paragraphs noise = [lit "page 1"; lit "      page 2      "]
  /\ chunkText noise = []
  /\ status (processAndIndexText failingGenAI noise initialSession) = idle.
Proof.
  cbv zeta.
  assert (Hcore : isCoreOf (lit "page 1")
                    ([9; 160; 65279]%N ++ lit "page 1"
                     ++ [8195; 13; 32; 32; 32; 32]%N)).
  { exists [9; 160; 65279]%N, [8195; 13; 32; 32; 32; 32]%N.
    split; [reflexivity|].
    split; [reflexivity|]. split; [reflexivity|]. split.
    - intros c rest H. inversion H. reflexivity.
    - intros front c H.
      change (lit "page 1") with (lit "page " ++ [49%N]) in H.
      apply app_inj_tail in H. destruct H as [_ <-]. reflexivity. }
  split; [vm_compute; reflexivity|].
  split; [reflexivity|].
  split; [exact Hcore|].
  split.
  { apply (chunkText_spec
             (([9; 160; 65279]%N ++ lit "page 1" ++ [8195; 13; 32; 32; 32; 32]%N)
              ++ [LF; LF] ++ lit "  Alpha beta gamma.  "));
      [vm_compute; now left | exact Hcore]. }
  split; [vm_compute; reflexivity|].
  split.
  { replace (lit "Alpha beta gamma.") with (trim (lit "  Alpha beta gamma.  "))
      by (vm_compute; reflexivity).
    apply (chunkText_spec []). }
  split; [vm_compute; reflexivity|].
  assert (Hnone : chunkText (lit "page 1" ++ [LF; 32%N; LF; LF]
                             ++ lit "      page 2      ") = [])
    by (apply (chunkText_spec (lit "page 1" ++ [LF; 32%N; LF; LF]
                               ++ lit "      page 2      "));
        vm_compute; repeat constructor).
  split; [exact Hnone|].
  apply (chunkText_spec (lit "page 1" ++ [LF; 32%N; LF; LF]
                         ++ lit "      page 2      ")).
  exact Hnone.
Defined.

(* ================================================================== *)
(** * Queries *)

Lemma status_eqb_ready (st : Status) : status_eqb st ready = true <-> st = ready.
Proof. destruct st; simpl; split; congruence. Qed.

(** C7. A query submitted while the status is not [ready], or while the
    index is empty, changes nothing: the session after the call is the
    session before it, field for field. *)
Theorem query_guard_noop (genai : GenAI) (query : jsstring) (s : Session) :
  status s <> ready \/ vectorStore s = [] ->
  handleQuerySubmit genai query s = s.
Proof.
  intros [Hstatus|Hempty]; unfold handleQuerySubmit.
  - destruct (status_eqb (status s) ready) eqn:E.
    + apply status_eqb_ready in E. contradiction.
    + now rewrite orb_true_r.
  - now rewrite Hempty.
Qed.

Lemma query_guard_noop_witness :
  status indexingSession <> ready
  /\ handleQuerySubmit failingGenAI (lit "What is this?") indexingSession
     = indexingSession.
Proof.
  split; [discriminate|].
  apply query_guard_noop. left. discriminate.
Defined.

(** Every failure inside [queryDocument] leaves it as the one error. *)
Lemma queryDocument_Throw (genai : GenAI) (query : jsstring)
    (vectorStore : list VectorStoreItem) (documentImages : list jsstring)
    (t : Thrown) :
  queryDocument genai query vectorStore documentImages = Throw t ->
  t = ThrownError (new_Error QUERY_FAILED_MESSAGE).
Proof.
  unfold queryDocument.
  destruct (queryDocument_try _ _ _ _); [discriminate|].
  unfold throw_new_Error. congruence.
Qed.

(** A failing generation call makes [queryDocument] throw. *)
Lemma generation_failure_throws (genai : GenAI) (query : jsstring)
    (vectorStore : list VectorStoreItem) (documentImages : list jsstring) :
  (forall request, exists t, generateContent genai request = Throw t) ->
  queryDocument genai query vectorStore documentImages
  = throw_new_Error QUERY_FAILED_MESSAGE.
Proof.
  intro Hfail. unfold queryDocument, queryDocument_try.
  destruct (embedQuery genai query) as [queryEmbedding|t]; simpl; [|reflexivity].
  destruct (Hfail (buildRequest query queryEmbedding vectorStore documentImages))
    as [t ->].
  reflexivity.
Qed.

(** C8. When [queryDocument] throws for a query submitted in [ready] with a
    non-empty index, the status is [ready] again; the index, the page images,
    the title and the loaded flag are untouched; the transcript gains the
    user's message and then the fixed apology as an [ai] message, which is
    not the text of the error thrown; and the error notice is recorded. *)
Theorem query_failure_keeps_session (genai : GenAI) (query : jsstring)
    (s : Session) (t : Thrown) :
  status s = ready ->
  vectorStore s <> [] ->
  queryDocument genai query (vectorStore s) (pdfImages s) = Throw t ->
  let s' := handleQuerySubmit genai query s in
  status s' = ready
  /\ vectorStore s' = vectorStore s
  /\ pdfImages s' = pdfImages s
  /\ documentTitle s' = documentTitle s
  /\ documentLoaded s' = documentLoaded s
  /\ chatHistory s' =
     chatHistory s ++ [ {| sender := user; text := query |};
                        {| sender := ai; text := APOLOGY |} ]
  /\ error s' = Some QUERY_ERROR_NOTICE
  /\ t = ThrownError (new_Error QUERY_FAILED_MESSAGE)
  /\ APOLOGY <> QUERY_FAILED_MESSAGE.
Proof.
  intros Hready Hindex Hthrow s'.
  pose proof (queryDocument_Throw _ _ _ _ _ Hthrow) as Ht.
  assert (Hlen : (length (vectorStore s) =? 0) = false)
    by (destruct (vectorStore s); [contradiction|reflexivity]).
  unfold s', handleQuerySubmit. rewrite Hready, Hthrow, Hlen.
  simpl. rewrite <- app_assoc.
  repeat split; try reflexivity; try exact Ht.
  vm_compute. discriminate.
Qed.

Lemma query_failure_keeps_session_witness :
  let s' := handleQuerySubmit failingGenAI (lit "What is this?") readySession in
  status s' = ready
  /\ vectorStore s' = sampleStore
  /\ error s' = Some QUERY_ERROR_NOTICE.
Proof.
  pose proof (query_failure_keeps_session failingGenAI (lit "What is this?")
                readySession (ThrownError (new_Error QUERY_FAILED_MESSAGE))) as H.
  cbv zeta in H.
  assert (Hready : status readySession = ready) by reflexivity.
  assert (Hindex : vectorStore readySession <> []) by discriminate.
  assert (Hthrow : queryDocument failingGenAI (lit "What is this?")
                     (vectorStore readySession) (pdfImages readySession)
                   = Throw (ThrownError (new_Error QUERY_FAILED_MESSAGE))).
  { apply generation_failure_throws. intro request.
    now exists (ThrownError (new_Error (lit "503"))). }
  specialize (H Hready Hindex Hthrow).
  split; [apply H|]. split; apply H.
Defined.

(* ================================================================== *)
(** * The generative request *)

Lemma split_on_no_separator (c : N) (s : jsstring) :
  ~ In c s -> split_on c s = [s].
Proof.
  induction s as [|d s IH]; intro Hnot; [reflexivity|].
  simpl. destruct (N.eqb d c) eqn:E.
  - apply N.eqb_eq in E. subst d. exfalso. apply Hnot. now left.
  - rewrite IH; [reflexivity|]. intro Hin. apply Hnot. now right.
Qed.

Lemma split_on_first (c : N) (prefix rest : jsstring) :
  ~ In c prefix -> split_on c (prefix ++ c :: rest) = prefix :: split_on c rest.
Proof.
  induction prefix as [|d prefix IH]; intro Hnot; simpl.
  - now rewrite N.eqb_refl.
  - destruct (N.eqb d c) eqn:E.
    + apply N.eqb_eq in E. subst d. exfalso. apply Hnot. now left.
    + rewrite IH; [reflexivity|]. intro Hin. apply Hnot. now right.
Qed.

Lemma base64_no_comma (payload : jsstring) :
  forallb isBase64Char payload = true -> ~ In COMMA payload.
Proof.
  intros Hb Hin. rewrite forallb_forall in Hb. specialize (Hb _ Hin).
  vm_compute in Hb. discriminate.
Qed.

(** The context is the passages with the marker between neighbours. *)
Lemma join_separatedBy (marker : jsstring) (blocks : list jsstring) :
  join marker blocks = separatedBy marker blocks.
Proof.
  destruct blocks as [|block rest]; [reflexivity|].
  revert block. induction rest as [|next rest IH]; intro block.
  - simpl. now rewrite app_nil_r.
  - change (join marker (block :: next :: rest))
      with (block ++ marker ++ join marker (next :: rest)).
    rewrite IH. simpl. now rewrite <- app_assoc.
Qed.

(** Every block stands in the context. *)
Lemma separatedBy_contains (marker : jsstring) (blocks : list jsstring)
    (block : jsstring) :
  In block blocks ->
  exists before after, separatedBy marker blocks = before ++ block ++ after.
Proof.
  assert (Hrest : forall rest, In block rest ->
            exists before after,
              concat (map (fun b => marker ++ b) rest) = before ++ block ++ after).
  { induction rest as [|next rest IH]; [intros []|].
    intros [->|Hin].
    - exists marker, (concat (map (fun b => marker ++ b) rest)).
      simpl. now rewrite <- app_assoc.
    - destruct (IH Hin) as (before & after & Heq).
      exists (marker ++ next ++ before), after.
      simpl. rewrite Heq. now rewrite <- !app_assoc. }
  destruct blocks as [|first rest]; [intros []|].
  intros [->|Hin].
  - now exists [], (concat (map (fun b => marker ++ b) rest)).
  - destruct (Hrest rest Hin) as (before & after & Heq).
    exists (first ++ before), after. simpl. rewrite Heq.
    now rewrite <- app_assoc.
Qed.

Lemma nth_error_buildContents (prompt query : jsstring)
    (documentImages : list jsstring) :
  length (buildContents prompt query documentImages) = length documentImages + 2
  /\ nth_error (buildContents prompt query documentImages) 0 = Some (TextPart prompt)
  /\ (forall i dataUrl,
        nth_error documentImages i = Some dataUrl ->
        nth_error (buildContents prompt query documentImages) (S i)
        = Some (InlineDataPart (lit "image/jpeg") (dataUrlPayload dataUrl)))
  /\ nth_error (buildContents prompt query documentImages)
               (S (length documentImages))
     = Some (TextPart (QUESTION_HEADER ++ query)).
Proof.
  unfold buildContents, imageParts. split; [|split; [reflexivity|split]].
  - simpl. rewrite length_app, length_map. simpl. lia.
  - intros i dataUrl Hi. cbn [app nth_error].
    rewrite nth_error_app1
      by (rewrite length_map; apply nth_error_Some; congruence).
    now rewrite nth_error_map, Hi.
  - cbn [app nth_error].
    rewrite nth_error_app2 by (rewrite length_map; lia).
    now rewrite length_map, Nat.sub_diag.
Qed.

(** The request [queryDocument] sends is the one built from the passages
    it selected. *)
Lemma buildRequest_answerRequest (query : jsstring) (queryEmbedding : list float)
    (vectorStore : list VectorStoreItem) (documentImages : list jsstring) :
  buildRequest query queryEmbedding vectorStore documentImages
  = answerRequest query (relevantChunks queryEmbedding vectorStore) documentImages.
Proof. reflexivity. Qed.

(** C9, as amended. For every question, list of selected passages and list
    of page images, the request has one part more than two per image, in
    this order: first one text part, the grounding instruction around the
    context, which is the passages with the marker "\n\n---\n\n" between
    neighbours (every passage stands in it); then one inline part per page
    image, in the order of the images, of MIME type image/jpeg, whose data
    for a data URL with a base64 payload is that payload; last one text part
    made of the header line "--- USER QUESTION --- " and the question
    verbatim.  The configuration is temperature 0.1 and top-p 0.9. *)
Theorem answer_request_spec (query : jsstring) (relevantChunks : list jsstring)
    (documentImages : list jsstring) :
  let request := answerRequest query relevantChunks documentImages in
  let context := separatedBy MARKER relevantChunks in
  length (gc_parts request) = length documentImages + 2
  /\ nth_error (gc_parts request) 0
     = Some (TextPart (PROMPT_HEAD ++ context ++ PROMPT_TAIL))
  /\ (forall passage, In passage relevantChunks ->
        exists before after, context = before ++ passage ++ after)
  /\ (forall i dataUrl,
        nth_error documentImages i = Some dataUrl ->
        nth_error (gc_parts request) (S i)
        = Some (InlineDataPart (lit "image/jpeg") (dataUrlPayload dataUrl)))
  /\ (forall prefix payload,
        ~ In COMMA prefix ->
        forallb isBase64Char payload = true ->
        dataUrlPayload (prefix ++ [COMMA] ++ payload) = Some payload)
  /\ nth_error (gc_parts request) (S (length documentImages))
     = Some (TextPart (lit "--- USER QUESTION --- " ++ [LF] ++ query))
  /\ temperature (gc_config request) = 0.1%float
  /\ topP (gc_config request) = 0.9%float
  /\ gc_model request = generativeModel.
Proof.
  intros request context. unfold request, context, answerRequest.
  cbn [gc_parts gc_config gc_model temperature topP].
  destruct (nth_error_buildContents
              (buildPrompt (join CONTEXT_SEPARATOR relevantChunks))
              query documentImages) as (Hlen & Hfirst & Himages & Hlast).
  split; [exact Hlen|].
  split.
  { rewrite Hfirst. unfold buildPrompt.
    now rewrite (join_separatedBy CONTEXT_SEPARATOR relevantChunks). }
  split; [intros passage Hin; now apply separatedBy_contains|].
  split; [exact Himages|].
  split.
  { intros prefix payload Hprefix Hpayload. unfold dataUrlPayload. simpl.
    rewrite (split_on_first COMMA prefix payload Hprefix).
    rewrite (split_on_no_separator COMMA payload (base64_no_comma _ Hpayload)).
    reflexivity. }
  split; [exact Hlast|].
  repeat split.
Qed.

Lemma answer_request_spec_witness :
  let dataUrl := lit "data:image/jpeg;base64" ++ [COMMA] ++ lit "/9j/4AAQSkZJRg==" in
  let request := answerRequest (lit "What is this?")
                   [lit "Zeta eta theta."; lit "Gamma delta epsilon."] [dataUrl] in
  let prompt :=
    lit "You are an expert AI assistant specializing in analyzing documents. Your task is to answer the user's question based *exclusively* on the provided context and images from a PDF document."
    ++ [LF; LF]
    ++ lit "Analyze the following document context and answer the user's question. Do not use any external knowledge. If the answer cannot be found in the provided context, state that clearly and concisely."
    ++ [LF; LF]
    ++ lit "--- DOCUMENT CONTEXT START ---" ++ [LF]
    ++ lit "Zeta eta theta." ++ [LF; LF] ++ lit "---" ++ [LF; LF]
    ++ lit "Gamma delta epsilon." ++ [LF]
    ++ lit "--- DOCUMENT CONTEXT END ---"
    ++ [LF; LF]
    ++ lit "The document also includes the document pages as images. Refer to them if the text is unclear or if the question relates to visual elements."
    ++ [LF] in
  nth_error (gc_parts request) 0 = Some (TextPart prompt)
  /\ gc_parts request
     = [ TextPart prompt;
         InlineDataPart (lit "image/jpeg") (Some (lit "/9j/4AAQSkZJRg=="));
         TextPart (lit "--- USER QUESTION --- " ++ [LF] ++ lit "What is this?") ].
Proof.
  cbv zeta. split; [|vm_compute; reflexivity].
  destruct (answer_request_spec (lit "What is this?")
              [lit "Zeta eta theta."; lit "Gamma delta epsilon."]
              [lit "data:image/jpeg;base64" ++ [COMMA] ++ lit "/9j/4AAQSkZJRg=="])
    as (_ & Hfirst & _).
  cbv zeta in Hfirst. rewrite Hfirst. vm_compute. reflexivity.
Defined.

(** C9 as stated fails on its last part: what follows the images is not
    the literal user question but a text that opens with a header line; no
    part of the request is the question alone. *)
Lemma answer_request_question_under_header :
  let query := lit "What is this?" in
  let dataUrl := lit "data:image/jpeg;base64" ++ [COMMA] ++ lit "/9j/4AAQSkZJRg==" in
  let request := buildRequest query [0; 1]%float sampleStore [dataUrl] in
  length (gc_parts request) = 3
  /\ nth_error (gc_parts request) 2
     = Some (TextPart (lit "--- USER QUESTION --- " ++ [LF] ++ lit "What is this?"))
  /\ nth_error (gc_parts request) 2 <> Some (TextPart query)
  /\ ~ In (TextPart query) (gc_parts request).
Proof.
  cbv zeta. split; [vm_compute; reflexivity|]. split; [vm_compute; reflexivity|].
  split; [vm_compute; discriminate|].
  vm_compute. intros [H|[H|[H|[]]]]; discriminate H.
Qed.

(* ================================================================== *)
(** * The ingestion timeout *)






(** ** One ingestion among the handlers of the application *)

Lemma replace_at_same {A} (k : nat) (x : A) (l : list A) :
  nth_error l k = Some x -> replace_at k x l = l.
Proof.
  revert k. induction l as [|y l IH]; intros [|k] H; simpl in *;
    try discriminate.
  - now inversion H.
  - now rewrite IH.
Qed.

Lemma replace_at_last {A} (l : list A) (x y : A) :
  replace_at (length l) y (l ++ [x]) = l ++ [y].
Proof. induction l as [|z l IH]; simpl; [reflexivity|]. now rewrite IH. Qed.

Lemma flowOf_appOf (s : Session) (f : Flow) : flowOf (appOf s f) = f.
Proof. now destruct f. Qed.

Lemma appOf_flowOf (a : App) : appOf (session a) (flowOf a) = a.
Proof. now destruct a. Qed.

(** No event changes an ingestion that is over, nor the session through
    it. *)
Lemma step_isOver (s : Session) (f : Flow) (ev : Event) :
  isOver f -> step (appOf s f) ev = appOf s f.
Proof.
  destruct f as [name p r]. unfold isOver. simpl. intros [-> ->].
  destruct ev as [[|]| |[n|err]|[page|err]|genai|]; reflexivity.
Qed.

(** An event of a PDF ingestion, when every earlier ingestion is over:
    it resumes the last ingestion or it changes nothing. *)
Lemma act_FlowEvent (w : World) (earlier : list Flow) (f : Flow)
    (j : nat) (ev : Event) :
  w_flows w = earlier ++ [f] ->
  Forall isOver earlier ->
  act w (FlowEvent j ev)
  = if j =? length earlier then
      {| w_session := session (step (appOf (w_session w) f) ev);
         w_flows := earlier ++ [flowOf (step (appOf (w_session w) f) ev)];
         w_texts := w_texts w;
         w_queries := w_queries w |}
    else w.
Proof.
  intros Hflows Hover. unfold act. rewrite Hflows.
  destruct (Nat.lt_trichotomy j (length earlier)) as [Hlt|[->|Hgt]].
  - replace (j =? length earlier) with false by (symmetry; apply Nat.eqb_neq; lia).
    rewrite nth_error_app1 by exact Hlt.
    destruct (nth_error earlier j) as [g|] eqn:Hg;
      [|apply nth_error_None in Hg; lia].
    rewrite Forall_forall in Hover.
    rewrite (step_isOver _ g ev (Hover g (nth_error_In _ _ Hg))).
    rewrite flowOf_appOf. cbn [session appOf].
    rewrite replace_at_same
      by (rewrite nth_error_app1 by exact Hlt; exact Hg).
    rewrite <- Hflows. now destruct w.
  - rewrite Nat.eqb_refl.
    rewrite nth_error_app2, Nat.sub_diag by lia. cbn [nth_error].
    now rewrite replace_at_last.
  - replace (j =? length earlier) with false by (symmetry; apply Nat.eqb_neq; lia).
    replace (nth_error (earlier ++ [f]) j) with (@None Flow); [reflexivity|].
    symmetry. apply nth_error_None. rewrite length_app. simpl. lia.
Qed.

(** While every earlier ingestion is over, the events of PDF ingestions
    act on the session as the events of the last ingestion alone do. *)
Lemma actAll_flowEvents (evs : list (nat * Event)) (w : World)
    (earlier : list Flow) (f : Flow) :
  w_flows w = earlier ++ [f] ->
  Forall isOver earlier ->
  actAll w (map flowEvent evs)
  = {| w_session :=
         session (run (appOf (w_session w) f) (eventsOf (length earlier) evs));
       w_flows :=
         earlier ++ [flowOf (run (appOf (w_session w) f)
                                 (eventsOf (length earlier) evs))];
       w_texts := w_texts w;
       w_queries := w_queries w |}.
Proof.
  revert w f. induction evs as [|[j ev] evs IH]; intros w f Hflows Hover.
  - simpl. rewrite flowOf_appOf, <- Hflows. now destruct w.
  - cbn [map actAll fold_left flowEvent fst snd].
    change (fold_left act ?l ?x) with (actAll x l).
    change (flowEvent (j, ev)) with (FlowEvent j ev).
    rewrite (act_FlowEvent w earlier f j ev Hflows Hover).
    unfold eventsOf. cbn [filter fst].
    destruct (j =? length earlier) eqn:Hj.
    + rewrite (IH _ (flowOf (step (appOf (w_session w) f) ev)))
        by (try reflexivity; exact Hover).
      cbn [w_session w_texts w_queries map snd run fold_left].
      change (fold_left step ?l ?x) with (run x l).
      now rewrite appOf_flowOf.
    + now rewrite (IH w f Hflows Hover).
Qed.

(** A file selected while nothing is in flight: whatever events of PDF
    ingestions follow, the session is the one its own ingestion makes. *)
Lemma quiet_ingestion (w0 : World) (name : jsstring) (evs : list (nat * Event)) :
  Forall isOver (w_flows w0) ->
  actAll (act w0 (SelectFile name)) (map flowEvent evs)
  = {| w_session :=
         session (run (handleFileSelect name (w_session w0))
                      (eventsOf (length (w_flows w0)) evs));
       w_flows :=
         w_flows w0
         ++ [flowOf (run (handleFileSelect name (w_session w0))
                         (eventsOf (length (w_flows w0)) evs))];
       w_texts := w_texts w0;
       w_queries := w_queries w0 |}.
Proof.
  intro Hover.
  rewrite (actAll_flowEvents evs (act w0 (SelectFile name)) (w_flows w0)
             (flowOf (handleFileSelect name (w_session w0))))
    by (try reflexivity; exact Hover).
  cbn [act w_session w_texts w_queries]. now rewrite appOf_flowOf.
Qed.

Lemma eventsOf_app (k : nat) (evs evs' : list (nat * Event)) :
  eventsOf k (evs ++ evs') = eventsOf k evs ++ eventsOf k evs'.
Proof. unfold eventsOf. now rewrite filter_app, map_app. Qed.

Lemma eventsOf_ofFlow (k : nat) (evs : list Event) : eventsOf k (ofFlow k evs) = evs.
Proof.
  unfold eventsOf, ofFlow. induction evs as [|ev evs IH]; [reflexivity|].
  simpl. rewrite Nat.eqb_refl. simpl. now rewrite IH.
Qed.

Lemma step_TimerFired (a : App) :
  step a TimerFired = if racePending a then timedOut a else a.
Proof. destruct a as [s name p r]. destruct p; reflexivity. Qed.


(** The handlers with one [await], as their two segments with nothing in
    between. *)
Lemma processAndIndexText_segments (genai : GenAI) (text : jsstring) (s : Session) :
  processAndIndexText genai text s
  = match processAndIndexText_begin text s with
    | (s1, AwaitingEmbedding textChunks) =>
        processAndIndexText_resume (embedChunks genai textChunks) s1
    | (s1, TextDone) => s1
    end.
Proof.
  unfold processAndIndexText, processAndIndexText_begin, indexText.
  destruct (length (chunkText text) =? 0); reflexivity.
Qed.

Lemma handleQuerySubmit_segments (genai : GenAI) (query : jsstring) (s : Session) :
  handleQuerySubmit genai query s
  = match handleQuerySubmit_begin query s with
    | Some (s1, AwaitingAnswer query' store images) =>
        handleQuerySubmit_resume (queryDocument genai query' store images) s1
    | Some (s1, QueryDone) => s1
    | None => s
    end.
Proof.
  unfold handleQuerySubmit, handleQuerySubmit_begin, handleQuerySubmit_resume.
  destruct ((length (vectorStore s) =? 0) || negb (status_eqb (status s) ready));
    [reflexivity|].
  destruct (queryDocument genai query (vectorStore s) (pdfImages s)); reflexivity.
Qed.



(** The proviso is needed.  A first file times out during its embedding
    and a second file is selected; the embedding of the first then settles:
    its handler stores its passages in the session of the second file,
    marks it loaded and acknowledges the first file by name.  When the timer
    of the second file fires, its race still pending, the index is not
    empty and a document is marked loaded. *)
Lemma stale_ingestion_commits_into_next :
  let genai := stubGenAI (fun _ => [1; 0]%float) [] in
  let w := actAll initialWorld
             ([SelectFile (lit "slow.pdf")]
              ++ map flowEvent (ofFlow 0 slowStart)
              ++ [FlowEvent 0 TimerFired;
                  SelectFile (lit "next.pdf");
                  FlowEvent 0 (EmbeddingSettled genai)]) in
  let w' := act w (FlowEvent 1 TimerFired) in
  documentTitle (w_session w) = lit "next.pdf"
  /\ status (w_session w) = ready
  /\ documentLoaded (w_session w) = true
  /\ map content (vectorStore (w_session w)) = [lit "A page of text, long enough to keep."]
  /\ chatHistory (w_session w)
     = [{| sender := ai; text := pdfReadyMessage (lit "slow.pdf") |}]
  /\ map flowRacePending (w_flows w) = [false; true]
  /\ status (w_session w') = idle
  /\ error (w_session w') = Some PDF_TIMEOUT_MESSAGE
  /\ length (vectorStore (w_session w')) = 1
  /\ documentLoaded (w_session w') = true.
Proof. repeat split; vm_compute; reflexivity. Qed.

(** So is the proviso on queries.  A question is in flight when the
    document is cleared and a file selected: when the answer arrives, the
    handler of the question appends it to the transcript of the new file
    and sets [ready], the ingestion still under way and nothing indexed. *)
Lemma pending_query_resumes_in_next :
  let genai := stubGenAI (fun _ => [1; 0]%float) (lit "It is a sample.") in
  let asked :=
    {| w_session := readySession; w_flows := []; w_texts := []; w_queries := [] |} in
  let w := actAll asked
             [SubmitQuery (lit "What is this?");
              ClearDocument;
              SelectFile (lit "next.pdf");
              QueryAnswered 0 genai] in
  status (w_session w) = ready
  /\ documentTitle (w_session w) = lit "next.pdf"
  /\ vectorStore (w_session w) = []
  /\ documentLoaded (w_session w) = false
  /\ chatHistory (w_session w) = [{| sender := ai; text := lit "It is a sample." |}]
  /\ map flowRacePending (w_flows w) = [true].
Proof. repeat split; vm_compute; reflexivity. Qed.


(* ================================================================== *)
(** * Further properties: vectors of different dimensions *)

Section Dimensions.
Local Open Scope float_scope.

Lemma float_add_nan (x : float) : nan + x = nan /\ x + nan = nan.
Proof.
  split; apply Prim2SF_inj; rewrite add_spec;
    change (Prim2SF nan) with S754_nan; [reflexivity|].
  unfold SF64add, SFadd. now destruct (Prim2SF x).
Qed.

Lemma float_mul_nan (x : float) : x * nan = nan.
Proof.
  apply Prim2SF_inj. rewrite mul_spec. change (Prim2SF nan) with S754_nan.
  unfold SF64mul, SFmul. now destruct (Prim2SF x).
Qed.

Lemma float_div_nan (x : float) : nan / x = nan.
Proof.
  apply Prim2SF_inj. rewrite div_spec. change (Prim2SF nan) with S754_nan.
  reflexivity.
Qed.

(** Once the sum is NaN it stays NaN. *)
Lemma dot_from_nan (vecB vecA : list float) (i : nat) :
  reduce_from (fun sum val i => sum + val * at_index vecB i) i nan vecA = nan.
Proof.
  revert i. induction vecA as [|x vecA IH]; intro i; [reflexivity|].
  simpl. rewrite (proj1 (float_add_nan _)). apply IH.
Qed.

Lemma dot_past_the_end (vecB vecA : list float) (i : nat) (acc : float) :
  i <= length vecB ->
  length vecB < i + length vecA ->
  reduce_from (fun sum val i => sum + val * at_index vecB i) i acc vecA = nan.
Proof.
  revert i acc. induction vecA as [|x vecA IH]; intros i acc Hi Hlen.
  - simpl in Hlen. lia.
  - simpl. destruct (Nat.lt_ge_cases i (length vecB)) as [Hin|Hout].
    + apply IH; simpl in Hlen; lia.
    + unfold at_index at 2. rewrite (nth_overflow _ _ Hout).
      rewrite float_mul_nan, (proj2 (float_add_nan _)). apply dot_from_nan.
Qed.

Lemma combine_longer {A B} (l : list A) (l' extra : list B) :
  length l <= length l' -> combine l (l' ++ extra) = combine l l'.
Proof.
  revert l'. induction l as [|x l IH]; intros [|y l'] Hlen; simpl in *;
    try reflexivity; try lia.
  f_equal. apply IH. lia.
Qed.

(** X1. When the stored vector is shorter than the query vector, the reads
    past its end are [undefined]: the dot product is NaN, and so is the
    similarity unless a computed magnitude is zero. *)
Theorem shorter_vector_gives_nan (vecA vecB : list float) :
  length vecB < length vecA ->
  dotProduct vecA vecB = nan
  /\ ((magnitude vecA =? 0) = false -> (magnitude vecB =? 0) = false ->
      cosineSimilarity vecA vecB = nan).
Proof.
  intro Hlen.
  assert (Hdot : dotProduct vecA vecB = nan)
    by (apply dot_past_the_end; simpl; lia).
  split; [exact Hdot|].
  intros Ha Hb. rewrite cosineSimilarity_unfold, Ha, Hb, Hdot. simpl.
  apply float_div_nan.
Qed.

Lemma shorter_vector_gives_nan_witness :
  length [1] < length [1; 2]
  /\ cosineSimilarity [1; 2] [1] = nan.
Proof.
  split; [simpl; lia|].
  apply (shorter_vector_gives_nan [1; 2] [1]); [simpl; lia | reflexivity | reflexivity].
Defined.

(** X2. When the stored vector is longer than the query vector, its extra
    coordinates do not enter the dot product (they still enter its
    magnitude); and an empty vector on either side gives similarity 0. *)
Theorem longer_vector_is_truncated (vecA vecB extra : list float) :
  length vecA <= length vecB ->
  dotProduct vecA (vecB ++ extra) = dotProduct vecA vecB
  /\ sumOfSquares (vecB ++ extra)
     = pairwise_sum (sumOfSquares vecB) (combine extra extra)
  /\ cosineSimilarity [] vecB = 0
  /\ cosineSimilarity vecB [] = 0.
Proof.
  intro Hlen. split; [|split; [|split]].
  - rewrite !dotProduct_pairwise by (rewrite ?length_app; lia).
    now rewrite combine_longer.
  - unfold sumOfSquares, reduce. rewrite !squares_reduce_from.
    unfold pairwise_sum.
    replace (combine (vecB ++ extra) (vecB ++ extra))
      with (combine vecB vecB ++ combine extra extra).
    + now rewrite fold_left_app.
    + clear. induction vecB as [|y vecB IH]; [reflexivity|].
      simpl. now rewrite IH.
  - reflexivity.
  - rewrite cosineSimilarity_unfold.
    change (magnitude []) with 0. change (0 =? 0) with true.
    now rewrite orb_true_r.
Qed.

Lemma longer_vector_is_truncated_witness :
  dotProduct [1; 2] ([3; 4] ++ [5]) = dotProduct [1; 2] [3; 4]
  /\ cosineSimilarity [1; 2] [3; 4; 5] <> cosineSimilarity [1; 2] [3; 4].
Proof.
  split.
  - apply (longer_vector_is_truncated [1; 2] [3; 4] [5]). simpl. lia.
  - intro H.
    assert (F : (cosineSimilarity [1; 2] [3; 4; 5]
                 =? cosineSimilarity [1; 2] [3; 4]) = true)
      by (rewrite H; reflexivity).
    vm_compute in F. discriminate F.
Defined.

End Dimensions.

(* ================================================================== *)
(** * Further properties: retrieval *)

(** X3. Whatever the similarities are (NaN included), retrieval returns
    min(5, N) contents, and they are stored contents, none of them more often
    than it is stored: together with some remainder they are a
    rearrangement of the contents of the index. *)
Theorem retrieval_returns_stored_passages (queryEmbedding : list float)
    (vectorStore : list VectorStoreItem) :
  let relevant := relevantChunks queryEmbedding vectorStore in
  length relevant = Nat.min 5 (length vectorStore)
  /\ (exists remainder,
        Permutation (relevant ++ remainder) (map content vectorStore))
  /\ (forall c, In c relevant ->
        exists item, In item vectorStore /\ content item = c).
Proof.
  intro relevant.
  assert (Hperm : Permutation
                    (relevant
                     ++ map sc_content
                          (skipn topK (rankedChunks queryEmbedding vectorStore)))
                    (map content vectorStore)).
  { unfold relevant, relevantChunks.
    rewrite <- map_app, firstn_skipn.
    rewrite <- (scoreChunks_contents queryEmbedding).
    apply Permutation_map, array_sort_perm. }
  split; [|split].
  - unfold relevant, relevantChunks, rankedChunks, topK.
    rewrite length_map, length_firstn, array_sort_length.
    unfold scoreChunks. now rewrite length_map.
  - eexists. exact Hperm.
  - intros c Hc.
    assert (Hin : In c (map content vectorStore)).
    { apply (Permutation_in _ Hperm). apply in_or_app. now left. }
    apply in_map_iff in Hin. destruct Hin as (item & Hitem & Hin).
    now exists item.
Qed.

Section StableSortUnique.
Context {A : Type} (cf : A -> A -> float) (S : A -> Prop).
Context (HS : Consistent cf S).

Lemma tied_of_notAfter (x y : A) :
  S x -> S y -> notAfter cf x y -> notAfter cf y x -> SortCompare cf x y = Eq.
Proof.
  unfold notAfter. intros Hx Hy Hxy Hyx.
  destruct (SortCompare cf x y) eqn:E; [reflexivity| |congruence].
  now rewrite (cf_lt_gt cf S HS x y Hx Hy E) in Hyx.
Qed.

(** Two sorted lists with the same elements and the same order within every
    class of ties are the same list. *)
Lemma stable_sorted_unique (l1 l2 : list A) :
  Forall S l1 ->
  Permutation l1 l2 ->
  StronglySorted (notAfter cf) l1 ->
  StronglySorted (notAfter cf) l2 ->
  (forall k, S k -> filter (tiedb cf k) l1 = filter (tiedb cf k) l2) ->
  l1 = l2.
Proof.
  revert l2. induction l1 as [|x l1 IH]; intros l2 HS1 Hperm Hs1 Hs2 Hst.
  - apply Permutation_nil in Hperm. now subst.
  - destruct l2 as [|y l2];
      [apply Permutation_sym, Permutation_nil in Hperm; discriminate|].
    inversion HS1 as [|? ? Hx HS1']; subst.
    assert (Hy : S y).
    { rewrite Forall_forall in HS1. apply HS1.
      apply (Permutation_in _ (Permutation_sym Hperm)). now left. }
    inversion Hs1 as [|? ? Hs1' Hx1]; subst.
    inversion Hs2 as [|? ? Hs2' Hy2]; subst.
    rewrite Forall_forall in Hx1, Hy2.
    assert (Hxy : SortCompare cf x y = Eq).
    { assert (Hyin : In y (x :: l1))
        by (apply (Permutation_in _ (Permutation_sym Hperm)); now left).
      assert (Hxin : In x (y :: l2))
        by (apply (Permutation_in _ Hperm); now left).
      pose proof (cf_refl cf S HS x Hx) as Hxx.
      pose proof (cf_refl cf S HS y Hy) as Hyy.
      apply tied_of_notAfter; auto.
      - destruct Hyin as [<-|Hyin]; [unfold notAfter; congruence|now apply Hx1].
      - destruct Hxin as [<-|Hxin]; [unfold notAfter; congruence|now apply Hy2]. }
    assert (Txx : tiedb cf x x = true)
      by (unfold tiedb; now rewrite (cf_refl cf S HS x Hx)).
    assert (Txy : tiedb cf x y = true) by (unfold tiedb; now rewrite Hxy).
    pose proof (Hst x Hx) as Hhead. cbn [filter] in Hhead.
    rewrite Txx, Txy in Hhead.
    inversion Hhead; subst y.
    f_equal. apply IH; auto.
    + now apply Permutation_cons_inv in Hperm.
    + intros k Hk. specialize (Hst k Hk). cbn [filter] in Hst.
      destruct (tiedb cf k x); [now inversion Hst|exact Hst].
Qed.

End StableSortUnique.

(** X4. With a consistent comparator the ranking does not depend on the
    sorting algorithm: any rearrangement of the scored passages that is
    descending and keeps tied passages in insertion order is the ranking
    [queryDocument] computes. *)
Theorem ranking_is_the_stable_sort (queryEmbedding : list float)
    (vectorStore : list VectorStoreItem) (sorted : list ScoredChunk) :
  let scored := scoreChunks queryEmbedding vectorStore in
  Consistent comparefn (fun c => In c scored) ->
  Permutation sorted scored ->
  StronglySorted (notAfter comparefn) sorted ->
  (forall k, In k scored ->
     filter (tiedb comparefn k) sorted = filter (tiedb comparefn k) scored) ->
  sorted = rankedChunks queryEmbedding vectorStore.
Proof.
  intros scored Hcons Hperm Hsorted Hstable.
  assert (Hall : Forall (fun c => In c scored) scored)
    by (apply Forall_forall; auto).
  apply (stable_sorted_unique comparefn _ Hcons).
  - apply Forall_forall. intros c Hc. exact (Permutation_in _ Hperm Hc).
  - eapply Permutation_trans; [exact Hperm|].
    apply Permutation_sym, array_sort_perm.
  - exact Hsorted.
  - now apply (array_sort_sorted comparefn _ Hcons).
  - intros k Hk. rewrite (Hstable k Hk). symmetry.
    now apply (array_sort_stable comparefn _ Hcons).
Qed.

Lemma ranking_is_the_stable_sort_witness :
  map sc_content (rankedChunks [0; 1]%float sampleStore)
  = [lit "Gamma delta epsilon."; lit "Zeta eta theta."; lit "Alpha beta."].
Proof.
  set (alpha := {| sc_content := lit "Alpha beta."; sc_embedding := [1; 0]%float;
                   similarity := 0%float |}).
  set (gamma := {| sc_content := lit "Gamma delta epsilon.";
                   sc_embedding := [0; 1]%float; similarity := 1%float |}).
  set (zeta := {| sc_content := lit "Zeta eta theta."; sc_embedding := [0; 2]%float;
                  similarity := 1%float |}).
  assert (Hscored : scoreChunks [0; 1]%float sampleStore = [alpha; gamma; zeta])
    by (vm_compute; reflexivity).
  rewrite <- (ranking_is_the_stable_sort [0; 1]%float sampleStore
                [gamma; zeta; alpha]).
  - reflexivity.
  - exact sampleStore_consistent.
  - rewrite Hscored.
    apply Permutation_sym, (Permutation_cons_app [gamma; zeta] []).
    apply Permutation_refl.
  - repeat constructor; vm_compute; discriminate.
  - rewrite Hscored. intros k [<-|[<-|[<-|[]]]]; vm_compute; reflexivity.
Defined.

(* ================================================================== *)
(** * Further properties: queries *)

(** X5. Whatever the services do, [handleQuerySubmit] as a whole leaves the
    status, the index, the page images, the title and the loaded flag as they
    were, and only ever appends to the transcript: nothing when the guard
    rejects the query, otherwise the user's message followed by one [ai]
    message, which is the answer (and the error notice is cleared) or the
    fixed apology (and the notice is set). *)
Theorem handleQuerySubmit_appends (genai : GenAI) (query : jsstring) (s : Session) :
  let s' := handleQuerySubmit genai query s in
  status s' = status s
  /\ vectorStore s' = vectorStore s
  /\ pdfImages s' = pdfImages s
  /\ documentTitle s' = documentTitle s
  /\ documentLoaded s' = documentLoaded s
  /\ ((chatHistory s' = chatHistory s /\ error s' = error s)
      \/ exists reply,
           chatHistory s' =
           chatHistory s ++ [ {| sender := user; text := query |};
                              {| sender := ai; text := reply |} ]
           /\ ((queryDocument genai query (vectorStore s) (pdfImages s)
                = Normal reply /\ error s' = None)
               \/ (reply = APOLOGY /\ error s' = Some QUERY_ERROR_NOTICE
                   /\ queryDocument genai query (vectorStore s) (pdfImages s)
                      = throw_new_Error QUERY_FAILED_MESSAGE))).
Proof.
  intro s'. unfold s', handleQuerySubmit.
  destruct (length (vectorStore s) =? 0) eqn:Hlen; simpl;
    [repeat split; now left|].
  destruct (status_eqb (status s) ready) eqn:Hst; simpl;
    [|repeat split; now left].
  apply status_eqb_ready in Hst.
  destruct (queryDocument genai query (vectorStore s) (pdfImages s))
    as [answer|t] eqn:Hq; simpl; rewrite <- app_assoc; simpl.
  - repeat split; auto. right. exists answer. split; [reflexivity|]. now left.
  - repeat split; auto. right. exists APOLOGY. split; [reflexivity|]. right.
    rewrite (queryDocument_Throw _ _ _ _ _ Hq). repeat split.
Qed.

(** X6. From the input box to the transcript: a blank query, or one typed
    while the status is not [ready], changes nothing and stays in the box;
    otherwise the box is cleared and [handleQuerySubmit] receives the trimmed
    query, so the user message it appends is trimmed and not empty; if the
    index is empty the query is dropped although the box was cleared. *)
Theorem submitQuery_sends_trimmed (genai : GenAI) (query : jsstring) (s : Session) :
  (trim query = [] \/ status s <> ready -> submitQuery genai query s = (s, query))
  /\ (trim query <> [] -> status s = ready ->
      submitQuery genai query s = (handleQuerySubmit genai (trim query) s, [])
      /\ (vectorStore s = [] -> fst (submitQuery genai query s) = s)
      /\ (vectorStore s <> [] ->
          exists reply,
            chatHistory (fst (submitQuery genai query s)) =
            chatHistory s ++ [ {| sender := user; text := trim query |};
                               {| sender := ai; text := reply |} ]
            /\ trim (trim query) = trim query)).
Proof.
  unfold submitQuery, ChatInterface_handleSubmit. split.
  - intros [Hblank|Hstatus].
    + now rewrite Hblank.
    + destruct (status_eqb (status s) ready) eqn:E.
      * apply status_eqb_ready in E. contradiction.
      * now rewrite andb_false_r.
  - intros Hquery Hready.
    assert (Hlen : (length (trim query) =? 0) = false)
      by (destruct (trim query); [contradiction|reflexivity]).
    rewrite Hlen, Hready. simpl. split; [reflexivity|]. split.
    + intro Hempty. unfold handleQuerySubmit. now rewrite Hempty.
    + intro Hstore.
      assert (Hn : (length (vectorStore s) =? 0) = false)
        by (destruct (vectorStore s); [contradiction|reflexivity]).
      unfold handleQuerySubmit. rewrite Hn, Hready. simpl.
      destruct (queryDocument genai (trim query) (vectorStore s) (pdfImages s));
        simpl; rewrite <- app_assoc; simpl; eexists;
        (split; [reflexivity|apply trim_idempotent]).
Qed.

Lemma submitQuery_sends_trimmed_witness :
  let typed := [32%N] ++ lit "What is this?" ++ [32%N; LF] in
  submitQuery failingGenAI [32%N; LF] readySession = (readySession, [32%N; LF])
  /\ snd (submitQuery failingGenAI typed readySession) = []
  /\ exists reply,
       chatHistory (fst (submitQuery failingGenAI typed readySession)) =
       [ {| sender := user; text := lit "What is this?" |};
         {| sender := ai; text := reply |} ].
Proof.
  destruct (submitQuery_sends_trimmed failingGenAI [32%N; LF] readySession)
    as [Hblank _].
  destruct (submitQuery_sends_trimmed failingGenAI
              ([32%N] ++ lit "What is this?" ++ [32%N; LF]) readySession)
    as [_ Hsent].
  destruct Hsent as (Heq & _ & Hchat); [vm_compute; discriminate | reflexivity |].
  destruct Hchat as (reply & Hreply & _); [discriminate|].
  split; [apply Hblank; left; reflexivity|].
  split; [cbv zeta; now rewrite Heq|].
  exists reply. exact Hreply.
Defined.

(* ================================================================== *)
(** * Further properties: ingestion of pasted text *)

Lemma pairWith_contents (embeddings : list (list float)) (chunks : list jsstring) :
  map content (pairWith embeddings chunks) = chunks.
Proof.
  unfold pairWith, mapi. generalize 0.
  induction chunks as [|c chunks IH]; intro k; [reflexivity|].
  simpl. now rewrite IH.
Qed.

(** What [embedChunks] stores on success: the chunks, in order. *)
Lemma embedChunks_contents (genai : GenAI) (chunks : list jsstring)
    (stored : list VectorStoreItem) :
  embedChunks genai chunks = Normal stored -> map content stored = chunks.
Proof.
  intro H. apply embedChunks_catch_Normal in H.
  destruct (embedChunks_try_Normal _ _ _ H) as (rs & es & _ & _ & _ & ->).
  apply pairWith_contents.
Qed.

(** X7. [processAndIndexText] ends in one of two ways.  Either the status
    is [ready], no error is recorded, the document is marked loaded, the
    transcript is the one acknowledgment, and the contents of the index are
    exactly the chunks of the text, in order and at least one.  Or the status
    is [idle], the index, the loaded flag and the transcript are untouched,
    and the error is "No text provided or text is too short." (no chunk) or
    "Failed to embed document chunks." (the embedding failed); the fallback
    message for a thrown value that is not an [Error] is never recorded. *)
Theorem processAndIndexText_outcome (genai : GenAI) (text : jsstring) (s : Session) :
  let s' := processAndIndexText genai text s in
  (status s' = ready
   /\ error s' = None
   /\ documentLoaded s' = true
   /\ chatHistory s' = [{| sender := ai; text := TEXT_READY_MESSAGE |}]
   /\ map content (vectorStore s') = chunkText text
   /\ chunkText text <> []
   /\ embedChunks genai (chunkText text) = Normal (vectorStore s'))
  \/ (status s' = idle
      /\ vectorStore s' = vectorStore s
      /\ documentLoaded s' = documentLoaded s
      /\ chatHistory s' = chatHistory s
      /\ ((error s' = Some TEXT_TOO_SHORT_MESSAGE /\ chunkText text = [])
          \/ (error s' = Some EMBED_FAILED_MESSAGE /\ chunkText text <> []
              /\ embedChunks genai (chunkText text)
                 = throw_new_Error EMBED_FAILED_MESSAGE))).
Proof.
  intro s'. unfold s', processAndIndexText, indexText.
  destruct (chunkText text) as [|chunk chunks] eqn:Hchunks; simpl.
  - right. repeat split. now left.
  - destruct (embedChunks genai (chunk :: chunks)) as [stored|t] eqn:Hembed.
    + left. simpl. repeat split; try discriminate.
      exact (embedChunks_contents _ _ _ Hembed).
    + right. pose proof (embedChunks_catch_Throw _ _ Hembed) as ->.
      simpl. repeat split. right. repeat split. discriminate.
Qed.

(** X8. From the text area to the session: a blank text changes nothing;
    any other text is ingested trimmed, starting from a fresh session titled
    "Pasted Text", so that nothing of the session before it remains. *)
Theorem pasteText_ingests_trimmed (genai : GenAI) (textContent : jsstring)
    (s : Session) :
  (trim textContent = [] -> pasteText genai textContent s = s)
  /\ (trim textContent <> [] ->
      pasteText genai textContent s
      = processAndIndexText genai (trim textContent)
          (setDocumentTitle (lit "Pasted Text") initialSession)
      /\ documentTitle (pasteText genai textContent s) = lit "Pasted Text").
Proof.
  unfold pasteText, handleTextProcess. split.
  - intro Hblank. now rewrite Hblank.
  - intro Htext.
    assert (Hlen : (length (trim textContent) =? 0) = false)
      by (destruct (trim textContent); [contradiction|reflexivity]).
    rewrite Hlen. simpl. unfold handleTextSubmit.
    rewrite trim_idempotent, Hlen. simpl.
    split; [reflexivity|].
    unfold processAndIndexText.
    destruct (indexText genai (trim textContent)); reflexivity.
Qed.

Lemma pasteText_ingests_trimmed_witness :
  let typed := [LF; 32%N] ++ lit "Alpha beta gamma." ++ [LF] in
  pasteText failingGenAI [LF; 32%N] readySession = readySession
  /\ documentTitle (pasteText failingGenAI typed readySession) = lit "Pasted Text"
  /\ vectorStore (pasteText failingGenAI typed readySession) = [].
Proof.
  destruct (pasteText_ingests_trimmed failingGenAI [LF; 32%N] readySession)
    as [Hblank _].
  destruct (pasteText_ingests_trimmed failingGenAI
              ([LF; 32%N] ++ lit "Alpha beta gamma." ++ [LF]) readySession)
    as [_ Htext].
  destruct Htext as [Heq Htitle]; [vm_compute; discriminate|].
  split; [apply Hblank; reflexivity|].
  split; [exact Htitle|].
  cbv zeta. rewrite Heq. vm_compute. reflexivity.
Defined.

(* ================================================================== *)
(** * Further properties: chunks and paragraphs *)

Lemma interleave_substring (pieces seps : list jsstring) (p : jsstring) :
  length pieces = S (length seps) ->
  In p pieces ->
  exists pre post, interleave pieces seps = pre ++ p ++ post.
Proof.
  revert seps. induction pieces as [|q pieces IH]; intros seps Hlen Hin;
    [destruct Hin|].
  destruct seps as [|sep seps].
  - destruct pieces; [|discriminate Hlen].
    destruct Hin as [->|[]]. exists [], []. simpl. now rewrite app_nil_r.
  - change (interleave (q :: pieces) (sep :: seps))
      with (q ++ sep ++ interleave pieces seps).
    destruct Hin as [->|Hin].
    + exists [], (sep ++ interleave pieces seps). reflexivity.
    + destruct (IH seps) as (pre & post & Heq); [simpl in *; lia | exact Hin |].
      exists (q ++ sep ++ pre), post. rewrite Heq.
      now rewrite <- !app_assoc.
Qed.

(** X9. Every chunk is a contiguous stretch of the text, unchanged: the
    chunker neither trims what it returns nor rewrites it, and a chunk holds
    no paragraph separator. *)
Theorem chunk_is_substring (text chunk : jsstring) :
  In chunk (chunkText text) ->
  (exists pre post, text = pre ++ chunk ++ post)
  /\ containsSeparator chunk = false
  /\ 10 < length (trim chunk).
Proof.
  intro Hin. unfold chunkText in Hin. apply filter_In in Hin.
  destruct Hin as [Hpiece Hlong].
  destruct (split_from_pieces [] text) as [(seps & _ & Hlen & Hjoin) Hclean].
  split; [|split].
  - destruct (interleave_substring _ seps chunk Hlen Hpiece) as (pre & post & Heq).
    exists pre, post. rewrite <- Heq. symmetry. exact Hjoin.
  - assert (Hall : Forall (fun p => containsSeparator p = false) (split_from [] text)).
    { apply Hclean. intros t1 t2 Heq Hne. symmetry in Heq.
      apply app_eq_nil in Heq. tauto. }
    rewrite Forall_forall in Hall. now apply Hall.
  - unfold long_enough in Hlong. now apply Nat.ltb_lt in Hlong.
Qed.

Lemma chunk_is_substring_witness :
  let text := [32%N] ++ lit "Alpha beta gamma. " ++ [LF; LF] ++ lit "tail" in
  In ([32%N] ++ lit "Alpha beta gamma. ") (chunkText text)
  /\ exists pre post, text = pre ++ ([32%N] ++ lit "Alpha beta gamma. ") ++ post.
Proof.
  assert (Hin : In ([32%N] ++ lit "Alpha beta gamma. ")
                   (chunkText ([32%N] ++ lit "Alpha beta gamma. " ++ [LF; LF]
                               ++ lit "tail")))
    by (vm_compute; now left).
  split; [exact Hin|].
  exact (proj1 (chunk_is_substring _ _ Hin)).
Defined.

Lemma split_from_no_LF (p cur s : jsstring) :
  ~ In LF p -> split_from cur (p ++ s) = split_from (rev p ++ cur) s.
Proof.
  revert cur. induction p as [|c p IH]; intros cur Hp; [reflexivity|].
  simpl app. rewrite split_from_cons. simpl match_separator.
  destruct (N.eqb c LF) eqn:E.
  - apply N.eqb_eq in E. subst c. exfalso. apply Hp. now left.
  - rewrite IH by (intro H; apply Hp; now right).
    simpl. now rewrite <- app_assoc.
Qed.

Lemma match_star_LF_skip (ws rest : jsstring) :
  forallb isSpace ws = true -> ~ In LF ws ->
  match_star_LF (ws ++ rest) = match_star_LF rest.
Proof.
  induction ws as [|c ws IH]; intros Hws Hlf; [reflexivity|].
  simpl in Hws. apply andb_prop in Hws. destruct Hws as [Hc Hws].
  simpl. rewrite Hc, IH; [|exact Hws|intro H; apply Hlf; now right].
  destruct (match_star_LF rest); [reflexivity|].
  destruct (N.eqb c LF) eqn:E; [|reflexivity].
  apply N.eqb_eq in E. subst c. exfalso. apply Hlf. now left.
Qed.

Lemma match_star_LF_cons (c : N) (s : jsstring) :
  match_star_LF (c :: s) =
  if isSpace c then
    match match_star_LF s with
    | Some rest => Some rest
    | None => if N.eqb c LF then Some s else None
    end
  else None.
Proof. reflexivity. Qed.

Lemma match_star_LF_LF (rest : jsstring) :
  match_star_LF (LF :: rest) = Some (afterBreak rest).
Proof.
  rewrite match_star_LF_cons. unfold afterBreak.
  change (isSpace LF) with true. change (N.eqb LF LF) with true.
  now destruct (match_star_LF rest).
Qed.

Lemma match_star_LF_break (rest : jsstring) :
  match_star_LF (LF :: LF :: rest) = Some (afterBreak rest).
Proof.
  rewrite match_star_LF_cons, match_star_LF_LF. reflexivity.
Qed.

Lemma match_separator_break (rest : jsstring) :
  match_separator (LF :: LF :: rest) = Some (afterBreak rest).
Proof. exact (match_star_LF_LF rest). Qed.

Lemma first_non_space (p : jsstring) :
  forallb isSpace p = true
  \/ exists ws x q, p = ws ++ x :: q /\ forallb isSpace ws = true /\ isSpace x = false.
Proof.
  induction p as [|c p [IH|(ws & x & q & -> & Hws & Hx)]].
  - now left.
  - destruct (isSpace c) eqn:Hc.
    + left. simpl. now rewrite Hc.
    + right. now exists [], c, p.
  - destruct (isSpace c) eqn:Hc.
    + right. exists (c :: ws), x, q. simpl. now rewrite Hc.
    + right. now exists [], c, (ws ++ x :: q).
Qed.

Lemma long_enough_spaces (p : jsstring) :
  forallb isSpace p = true -> long_enough p = false.
Proof. intro H. unfold long_enough. now rewrite (trim_spaces p H). Qed.

(** After a blank line, the paragraphs that follow come out one piece
    each, except those of white space only, which the separator absorbs and
    the filter would drop anyway. *)
Lemma chunks_after_break (paragraphs : list jsstring) :
  Forall (fun p => ~ In LF p) paragraphs ->
  filter long_enough (split_from [] (afterBreak (paragraphsText paragraphs)))
  = filter long_enough paragraphs.
Proof.
  induction 1 as [|p paragraphs Hp _ IH].
  - reflexivity.
  - unfold paragraphsText. cbn [map concat]. fold (paragraphsText paragraphs).
    rewrite <- app_assoc. cbn [app].
    destruct (first_non_space p) as [Hspaces|(ws & x & q & -> & Hws & Hx)].
    + unfold afterBreak at 1.
      rewrite (match_star_LF_skip p _ Hspaces Hp).
      pose proof (match_star_LF_break (paragraphsText paragraphs)) as Hm.
      rewrite Hm. cbn [filter]. rewrite (long_enough_spaces p Hspaces). exact IH.
    + assert (Hnone : match_star_LF ((ws ++ x :: q)
                                     ++ LF :: LF :: paragraphsText paragraphs)
                      = None).
      { rewrite <- app_assoc. rewrite match_star_LF_skip;
          [|exact Hws|intro H; apply Hp; apply in_or_app; now left].
        simpl. now rewrite Hx. }
      unfold afterBreak at 1. rewrite Hnone.
      rewrite (split_from_no_LF _ [] _ Hp), app_nil_r.
      rewrite split_from_cons, match_separator_break, rev_involutive.
      cbn [filter]. now rewrite IH.
Qed.

Lemma chunkText_paragraphs (paragraphs : list jsstring) :
  Forall (fun p => ~ In LF p) paragraphs ->
  chunkText (paragraphsText paragraphs) = filter long_enough paragraphs.
Proof.
  intro Hall. unfold chunkText, split_paragraphs.
  destruct Hall as [|p paragraphs Hp Hrest]; [reflexivity|].
  unfold paragraphsText. cbn [map concat]. fold (paragraphsText paragraphs).
  rewrite <- app_assoc. cbn [app].
  rewrite (split_from_no_LF _ [] _ Hp), app_nil_r.
  rewrite split_from_cons, match_separator_break, rev_involutive.
  cbn [filter]. now rewrite (chunks_after_break paragraphs Hrest).
Qed.

Lemma join_no_LF (parts : list jsstring) :
  Forall (fun part => ~ In LF part) parts -> ~ In LF (join (lit " ") parts).
Proof.
  induction 1 as [|part parts Hpart Hparts IH]; [intros []|].
  cbn [join]. destruct parts as [|next parts]; [exact Hpart|].
  intro Hin. apply in_app_or in Hin. destruct Hin as [Hin|Hin]; [now apply Hpart|].
  apply in_app_or in Hin. destruct Hin as [Hin|Hin]; [|now apply IH].
  destruct Hin as [Hin|[]]. discriminate Hin.
Qed.

(** X10. A PDF yields at most one passage per page: when no text item of
    the document contains a line feed, the chunks of the extracted text are
    the texts of the pages (the items of a page joined by spaces), in page
    order, less the pages whose trimmed text has at most 10 characters. *)
Theorem one_chunk_per_page (pages : list PageResult) :
  Forall (fun page => Forall (fun item => ~ In LF item) (items page)) pages ->
  chunkText (documentText pages) = filter long_enough (map pageText pages)
  /\ length (chunkText (documentText pages)) <= length pages.
Proof.
  intro Hitems.
  assert (Heq : chunkText (documentText pages)
                = filter long_enough (map pageText pages)).
  { apply chunkText_paragraphs. apply Forall_forall. intros p Hp.
    apply in_map_iff in Hp. destruct Hp as (page & <- & Hpage).
    rewrite Forall_forall in Hitems. apply join_no_LF, Hitems, Hpage. }
  split; [exact Heq|].
  rewrite Heq. eapply Nat.le_trans; [apply filter_length_le|].
  now rewrite length_map.
Qed.

Lemma one_chunk_per_page_witness :
  let cover := {| items := [lit "Title"]; rendering := None |} in
  let body := {| items := [lit "First sentence of the page."; lit "Second"; lit "one."];
                 rendering := None |} in
  chunkText (documentText [cover; body])
  = [lit "First sentence of the page. Second one."].
Proof.
  cbv zeta.
  destruct (one_chunk_per_page
              [ {| items := [lit "Title"]; rendering := None |};
                {| items := [lit "First sentence of the page."; lit "Second";
                             lit "one."];
                   rendering := None |} ]) as [Heq _].
  - repeat constructor; vm_compute; intuition discriminate.
  - rewrite Heq. vm_compute. reflexivity.
Defined.

(* ================================================================== *)
(** * Further properties: the page loop and the outcome of a PDF *)

Lemma run_app (a : App) (evs evs' : list Event) :
  run a (evs ++ evs') = run (run a evs) evs'.
Proof. apply fold_left_app. Qed.

Lemma afterPages_suspendAt (fullText : jsstring) (images : list jsstring)
    (p : Processing) (a : App) :
  afterPages fullText images (suspendAt p a) = afterPages fullText images a.
Proof.
  unfold afterPages. destruct (length (chunkText fullText) =? 0); reflexivity.
Qed.

(** The page loop, run over the pages that remain. *)
Lemma run_pages (pages : list PageResult) (i numPages : nat)
    (fullText : jsstring) (images : list jsstring) (a : App) :
  i + length pages = S numPages ->
  run (pageLoop i numPages fullText images a)
      (map (fun page => PageSettled (Normal page)) pages)
  = afterPages (fullText ++ documentText pages) (images ++ pageImages pages) a.
Proof.
  revert i fullText images a.
  induction pages as [|page pages IH]; intros i fullText images a Hlen.
  - simpl in Hlen. unfold pageLoop.
    replace (i <=? numPages) with false by (symmetry; apply Nat.leb_gt; lia).
    simpl. unfold documentText, paragraphsText. simpl. now rewrite !app_nil_r.
  - simpl in Hlen. unfold pageLoop at 1.
    replace (i <=? numPages) with true by (symmetry; apply Nat.leb_le; lia).
    cbn [map run fold_left]. change (fold_left step ?l ?x) with (run x l).
    cbn [step suspendAt processing].
    rewrite IH by lia. rewrite afterPages_suspendAt.
    f_equal.
    + unfold documentText, paragraphsText, pageText. cbn [map concat].
      now rewrite <- !app_assoc.
    + cbn [pageImages flat_map]. destruct (rendering page);
        [now rewrite <- app_assoc | reflexivity].
Qed.

(** Where the extraction of [pages] leaves a freshly selected file. *)
Lemma run_extraction (name : jsstring) (s0 : Session) (pages : list PageResult) :
  run (handleFileSelect name s0) (extraction pages)
  = afterPages (documentText pages) (pageImages pages)
      (suspendAt LoadingDocument (handleFileSelect name s0)).
Proof.
  unfold extraction. cbn [run fold_left].
  change (fold_left step ?l ?x) with (run x l).
  cbn [step handleFileSelect processAndIndexPdf processing suspendAt].
  rewrite (run_pages pages 1 (length pages) [] []) by lia.
  reflexivity.
Qed.

(** Once the handler has returned and the race is decided, no event changes
    anything. *)
Lemma settled_is_final (a : App) (evs : list Event) :
  processing a = Settled -> racePending a = false -> run a evs = a.
Proof.
  intros Hp Hr. induction evs as [|ev evs IH]; [reflexivity|].
  simpl. replace (step a ev) with a; [exact IH|].
  destruct ev as [[|]| |[n|err]|[page|err]|genai|]; simpl; rewrite ?Hp, ?Hr;
    reflexivity.
Qed.

(** X11. A PDF whose pages are all extracted, whose text has at least one
    chunk and whose embedding succeeds, all before the timer: the status goes
    from [parsing] through [indexing] (with the page images committed, in page
    order, and the index still empty) to [ready]; the session then holds the
    file name as title, the images, the embedded chunks, the one
    acknowledgment, no error; and no later event, the timer included,
    changes it. *)
Theorem pdf_ingestion_succeeds (name : jsstring) (s0 : Session)
    (pages : list PageResult) (genai : GenAI) (stored : list VectorStoreItem) :
  chunkText (documentText pages) <> [] ->
  embedChunks genai (chunkText (documentText pages)) = Normal stored ->
  let start := handleFileSelect name s0 in
  let extracted := run start (extraction pages) in
  let finished := step extracted (EmbeddingSettled genai) in
  status (session start) = parsing
  /\ status (session extracted) = indexing
  /\ pdfImages (session extracted) = pageImages pages
  /\ vectorStore (session extracted) = []
  /\ session finished
     = {| documentLoaded := true;
          documentTitle := name;
          pdfImages := pageImages pages;
          vectorStore := stored;
          chatHistory := [{| sender := ai; text := pdfReadyMessage name |}];
          status := ready;
          error := None |}
  /\ (forall evs, run finished evs = finished).
Proof.
  intros Hchunks Hembed start extracted finished.
  assert (Hlen : (length (chunkText (documentText pages)) =? 0) = false)
    by (destruct (chunkText (documentText pages)); [contradiction|reflexivity]).
  assert (Hextracted :
            extracted
            = suspendAt (EmbeddingChunks (chunkText (documentText pages)))
                (withSession (fun s => setStatus indexing
                                         (setPdfImages (pageImages pages) s))
                   (suspendAt LoadingDocument start))).
  { unfold extracted, start. rewrite run_extraction. unfold afterPages.
    now rewrite Hlen. }
  assert (Hfinished :
            finished
            = {| session :=
                   {| documentLoaded := true;
                      documentTitle := name;
                      pdfImages := pageImages pages;
                      vectorStore := stored;
                      chatHistory := [{| sender := ai; text := pdfReadyMessage name |}];
                      status := ready;
                      error := None |};
                 fileName := name;
                 processing := Settled;
                 racePending := false |}).
  { unfold finished. rewrite Hextracted. cbn [step suspendAt processing].
    rewrite Hembed. reflexivity. }
  split; [reflexivity|].
  split; [now rewrite Hextracted|]. split; [now rewrite Hextracted|].
  split; [now rewrite Hextracted|].
  split; [now rewrite Hfinished|].
  intro evs. rewrite Hfinished. now apply settled_is_final.
Qed.

Lemma pdf_ingestion_succeeds_witness :
  let genai := stubGenAI (fun _ => [1; 0]%float) [] in
  let finished := run (handleFileSelect (lit "slow.pdf") initialSession)
                      (extraction [slowPage] ++ [EmbeddingSettled genai; TimerFired]) in
  status (session finished) = ready
  /\ error (session finished) = None
  /\ map content (vectorStore (session finished))
     = [lit "A page of text, long enough to keep."].
Proof.
  destruct (pdf_ingestion_succeeds (lit "slow.pdf") initialSession [slowPage]
              (stubGenAI (fun _ => [1; 0]%float) [])
              [stubItem (fun _ => [1; 0]%float)
                        (lit "A page of text, long enough to keep.")])
    as (_ & _ & _ & _ & Hsession & Hfinal).
  - vm_compute. discriminate.
  - vm_compute. reflexivity.
  - cbv zeta in *.
    assert (Hrun : run (handleFileSelect (lit "slow.pdf") initialSession)
                       (extraction [slowPage]
                        ++ [EmbeddingSettled (stubGenAI (fun _ => [1; 0]%float) []);
                            TimerFired])
                   = step (run (handleFileSelect (lit "slow.pdf") initialSession)
                               (extraction [slowPage]))
                          (EmbeddingSettled (stubGenAI (fun _ => [1; 0]%float) []))).
    { rewrite run_app. exact (Hfinal [TimerFired]). }
    rewrite Hrun, Hsession. repeat split.
Defined.

Lemma documentText_app (before after : list PageResult) :
  documentText (before ++ after) = documentText before ++ documentText after.
Proof. unfold documentText, paragraphsText. now rewrite !map_app, concat_app. Qed.

Lemma pageImages_app (before after : list PageResult) :
  pageImages (before ++ after) = pageImages before ++ pageImages after.
Proof. unfold pageImages. apply flat_map_app. Qed.

(** The page loop, run over some of the pages that remain. *)
Lemma run_pages_partial (before : list PageResult) (i numPages : nat)
    (fullText : jsstring) (images : list jsstring) (a : App) :
  i + length before <= numPages ->
  run (pageLoop i numPages fullText images a)
      (map (fun page => PageSettled (Normal page)) before)
  = suspendAt (ExtractingPage (i + length before) numPages
                 (fullText ++ documentText before) (images ++ pageImages before))
              a.
Proof.
  revert i fullText images a.
  induction before as [|page before IH]; intros i fullText images a Hlen;
    simpl in Hlen; unfold pageLoop at 1.
  - replace (i <=? numPages) with true by (symmetry; apply Nat.leb_le; lia).
    simpl. unfold documentText, paragraphsText. simpl.
    now rewrite Nat.add_0_r, !app_nil_r.
  - replace (i <=? numPages) with true by (symmetry; apply Nat.leb_le; lia).
    cbn [map run fold_left]. change (fold_left step ?l ?x) with (run x l).
    cbn [step suspendAt processing].
    rewrite IH by lia. cbn [suspendAt session fileName racePending].
    unfold suspendAt. f_equal. f_equal.
    + simpl. lia.
    + unfold documentText, paragraphsText, pageText. cbn [map concat].
      now rewrite <- !app_assoc.
    + cbn [pageImages flat_map]. destruct (rendering page);
        [now rewrite <- app_assoc | reflexivity].
Qed.

(** Where the extraction of [pages] leaves a file whose reading has
    started. *)
Lemma run_extraction_from (a : App) (pages : list PageResult) :
  processing a = ReadingFile ->
  run a (extraction pages)
  = afterPages (documentText pages) (pageImages pages) a.
Proof.
  intro Hp. unfold extraction. cbn [run fold_left].
  change (fold_left step ?l ?x) with (run x l).
  cbn [step]. rewrite Hp. cbn [step suspendAt processing].
  rewrite (run_pages pages 1 (length pages) [] []) by lia.
  now rewrite afterPages_suspendAt.
Qed.

(** A PDF without chunks whose extraction is not interrupted. *)
Lemma extraction_without_text (a : App) (pages : list PageResult) :
  processing a = ReadingFile ->
  racePending a = true ->
  chunkText (documentText pages) = [] ->
  run a (extraction pages)
  = {| session :=
         raceRejected (ThrownError (new_Error NO_TEXT_CONTENT))
           (setStatus indexing (setPdfImages (pageImages pages) (session a)));
       fileName := fileName a;
       processing := Settled;
       racePending := false |}.
Proof.
  intros Hp Hr Hnone. rewrite (run_extraction_from a pages Hp).
  unfold afterPages. rewrite Hnone. cbn [length Nat.eqb].
  unfold reject, withSession. cbn [racePending session fileName].
  now rewrite Hr.
Qed.

Lemma run_cons (a : App) (ev : Event) (evs : list Event) :
  run a (ev :: evs) = run (step a ev) evs.
Proof. reflexivity. Qed.

Lemma step_FileLoaded (a : App) :
  processing a = ReadingFile -> step a (FileLoaded true) = suspendAt LoadingDocument a.
Proof. intro Hp. simpl. now rewrite Hp. Qed.

Lemma step_DocumentSettled (a : App) (numPages : nat) :
  processing a = LoadingDocument ->
  step a (DocumentSettled (Normal numPages)) = pageLoop 1 numPages [] [] a.
Proof. intro Hp. simpl. now rewrite Hp. Qed.

(** A PDF without chunks whose timer fires before the extraction is
    complete: the timeout is handled first, and the handler, which goes on,
    then commits the images and sets [indexing] before it gives up. *)
Lemma timer_during_extraction (a : App) (pages : list PageResult)
    (before after : list Event) :
  processing a = ReadingFile ->
  racePending a = true ->
  chunkText (documentText pages) = [] ->
  extraction pages = before ++ after ->
  after <> [] ->
  run a (before ++ TimerFired :: after)
  = {| session :=
         setStatus indexing
           (setPdfImages (pageImages pages)
              (raceRejected (ThrownError (new_Error TIMEOUT)) (session a)));
       fileName := fileName a;
       processing := Settled;
       racePending := false |}.
Proof.
  intros Hp Hr Hnone Hsplit Hafter.
  assert (Hend : forall b : App,
            racePending b = false ->
            afterPages (documentText pages) (pageImages pages) b
            = {| session := setStatus indexing
                              (setPdfImages (pageImages pages) (session b));
                 fileName := fileName b;
                 processing := Settled;
                 racePending := false |}).
  { intros b Hb. unfold afterPages. rewrite Hnone. cbn [length Nat.eqb].
    unfold reject, withSession. cbn [racePending session fileName].
    now rewrite Hb. }
  destruct before as [|e1 [|e2 before]].
  - (* before the file is read *)
    simpl in Hsplit. subst after. cbn [app].
    rewrite run_cons, step_TimerFired, Hr.
    rewrite (run_extraction_from (timedOut a) pages) by exact Hp.
    now rewrite Hend.
  - (* while the document is opened *)
    unfold extraction in Hsplit. simpl in Hsplit. inversion Hsplit; subst.
    cbn [app].
    rewrite run_cons, (step_FileLoaded a Hp).
    rewrite run_cons, step_TimerFired. cbn [suspendAt racePending]. rewrite Hr.
    rewrite run_cons, step_DocumentSettled by reflexivity.
    rewrite (run_pages pages 1 (length pages) [] []) by lia.
    now rewrite Hend.
  - (* during the page loop *)
    unfold extraction in Hsplit. simpl in Hsplit.
    inversion Hsplit as [[He1 He2 Hpages]].
    apply map_eq_app in Hpages.
    destruct Hpages as (done & todo & -> & <- & <-).
    assert (Htodo : todo <> []) by (intro Hnil; subst todo; now apply Hafter).
    assert (Hpos : 1 <= length todo) by (destruct todo; [contradiction|simpl; lia]).
    cbn [app].
    rewrite run_cons, (step_FileLoaded a Hp).
    rewrite run_cons, step_DocumentSettled by reflexivity.
    rewrite run_app.
    rewrite (run_pages_partial done 1 (length (done ++ todo)) [] [])
      by (rewrite length_app; lia).
    rewrite run_cons, step_TimerFired. cbn [suspendAt racePending]. rewrite Hr.
    set (b := timedOut (suspendAt LoadingDocument a)).
    assert (Hloop : timedOut
                      (suspendAt
                         (ExtractingPage (1 + length done) (length (done ++ todo))
                            ([] ++ documentText done) ([] ++ pageImages done))
                         (suspendAt LoadingDocument a))
                    = pageLoop (1 + length done) (length (done ++ todo))
                        ([] ++ documentText done) ([] ++ pageImages done) b).
    { unfold pageLoop.
      replace (1 + length done <=? length (done ++ todo)) with true
        by (symmetry; apply Nat.leb_le; rewrite length_app; lia).
      reflexivity. }
    rewrite Hloop.
    rewrite (run_pages todo) by (rewrite length_app; lia).
    cbn [app]. rewrite <- documentText_app, <- pageImages_app.
    now rewrite Hend.
Qed.

(** X12. A file is selected while no handler is in flight, and its
    extracted text has no chunk (a scanned document, a document without
    pages).  If the extraction completes before the timer fires, the session
    ends [idle] with the no-text message.  If the timer fires at any point
    before the extraction is complete, the session ends with the timeout
    message and the status [indexing]: the handler that lost the race goes
    on, commits the images and sets [indexing], and its rejection is then
    ignored.  In both cases nothing is indexed, no document is loaded, the
    page images rendered during the extraction are in the session, and no
    later event of a PDF ingestion changes any of this. *)
Theorem pdf_without_text (w0 : World) (name : jsstring)
    (pages : list PageResult) (later : list (nat * Event)) :
  quiet w0 ->
  chunkText (documentText pages) = [] ->
  let k := length (w_flows w0) in
  let outcome (evs : list Event) :=
    w_session (actAll (act w0 (SelectFile name))
                      (map flowEvent (ofFlow k evs ++ later))) in
  (let s := outcome (extraction pages) in
   status s = idle
   /\ error s = Some PDF_NO_TEXT_MESSAGE
   /\ pdfImages s = pageImages pages
   /\ vectorStore s = []
   /\ documentLoaded s = false
   /\ chatHistory s = [])
  /\ (forall before after,
        extraction pages = before ++ after ->
        after <> [] ->
        let s := outcome (before ++ TimerFired :: after) in
        status s = indexing
        /\ error s = Some PDF_TIMEOUT_MESSAGE
        /\ pdfImages s = pageImages pages
        /\ vectorStore s = []
        /\ documentLoaded s = false
        /\ chatHistory s = []).
Proof.
  intros (Hover & _ & _) Hnone k outcome.
  assert (Houtcome : forall evs,
            outcome evs
            = session (run (run (handleFileSelect name (w_session w0)) evs)
                           (eventsOf k later))).
  { intro evs. unfold outcome.
    rewrite (quiet_ingestion w0 name _ Hover). cbn [w_session]. fold k.
    now rewrite eventsOf_app, eventsOf_ofFlow, run_app. }
  split.
  - cbv zeta. rewrite Houtcome.
    rewrite (extraction_without_text (handleFileSelect name (w_session w0)) pages
               eq_refl eq_refl Hnone).
    rewrite settled_is_final by reflexivity.
    repeat split.
  - intros before after Hsplit Hafter. cbv zeta. rewrite Houtcome.
    rewrite (timer_during_extraction (handleFileSelect name (w_session w0)) pages
               before after eq_refl eq_refl Hnone Hsplit Hafter).
    rewrite settled_is_final by reflexivity.
    repeat split.
Qed.

Lemma pdf_without_text_witness :
  let complete :=
    actAll (act initialWorld (SelectFile (lit "scan.pdf")))
           (map flowEvent (ofFlow 0 (extraction [scannedPage; scannedPage])
                           ++ [(0, TimerFired)])) in
  let interrupted :=
    actAll (act initialWorld (SelectFile (lit "scan.pdf")))
           (map flowEvent
              (ofFlow 0 ([FileLoaded true; DocumentSettled (Normal 2);
                          PageSettled (Normal scannedPage)]
                         ++ TimerFired :: [PageSettled (Normal scannedPage)])
               ++ [(0, TimerFired)])) in
  chunkText (documentText [scannedPage; scannedPage]) = []
  /\ status (w_session complete) = idle
  /\ error (w_session complete) = Some PDF_NO_TEXT_MESSAGE
  /\ length (pdfImages (w_session complete)) = 2
  /\ status (w_session interrupted) = indexing
  /\ error (w_session interrupted) = Some PDF_TIMEOUT_MESSAGE
  /\ length (pdfImages (w_session interrupted)) = 2.
Proof.
  assert (Hquiet : quiet initialWorld) by (repeat split; constructor).
  assert (Hnone : chunkText (documentText [scannedPage; scannedPage]) = [])
    by (vm_compute; reflexivity).
  destruct (pdf_without_text initialWorld (lit "scan.pdf")
              [scannedPage; scannedPage] [(0, TimerFired)] Hquiet Hnone)
    as [(Hstatus & Herror & Himages & _) Htimer].
  destruct (Htimer [FileLoaded true; DocumentSettled (Normal 2);
                    PageSettled (Normal scannedPage)]
                   [PageSettled (Normal scannedPage)])
    as (Hstatus' & Herror' & Himages' & _);
    [reflexivity | discriminate |].
  cbv zeta in *.
  split; [exact Hnone|].
  split; [exact Hstatus|]. split; [exact Herror|].
  split; [exact (f_equal (@length jsstring) Himages)|].
  split; [exact Hstatus'|]. split; [exact Herror'|].
  exact (f_equal (@length jsstring) Himages').
Defined.

(* ================================================================== *)
(** * Further properties: what every PDF ingestion keeps *)

Lemma pdfErrorMessage_fixed (err : Thrown) : In (pdfErrorMessage err) pdfMessages.
Proof.
  unfold pdfErrorMessage, pdfMessages. destruct err as [e|]; [|now left].
  destruct (str_eqb (err_message e) TIMEOUT); [right; now left|].
  destruct (str_eqb (err_message e) NO_TEXT_CONTENT); [right; right; now left|].
  destruct (str_eqb (err_name e) (lit "InvalidPDFException"));
    [right; right; right; now left|].
  destruct (str_eqb (err_name e) (lit "PasswordException"));
    [right; right; right; right; now left|].
  right; right; right; right; right; now left.
Qed.

(** A handler that is still running has not marked the document loaded. *)
Lemma running_not_loaded (a : App) :
  pdfInvariant a -> processing a <> Settled -> documentLoaded (session a) = false.
Proof.
  intros (_ & _ & _ & Hloaded & _) Hp.
  destruct (documentLoaded (session a)); [|reflexivity].
  destruct (Hloaded eq_refl) as (_ & _ & Hs & _). contradiction.
Qed.

Lemma pdfInvariant_suspendAt (p : Processing) (a : App) :
  pdfInvariant a ->
  documentLoaded (session a) = false ->
  (forall textChunks, p = EmbeddingChunks textChunks -> textChunks <> []) ->
  pdfInvariant (suspendAt p a).
Proof.
  intros (Htitle & Hq & Hready & _ & Hempty & _ & Herr) Hfalse Hp.
  unfold pdfInvariant. simpl. rewrite Hfalse in *.
  repeat split; auto; try discriminate; try tauto.
Qed.

Lemma pdfInvariant_reject (err : Thrown) (a : App) :
  pdfInvariant a ->
  documentLoaded (session a) = false ->
  pdfInvariant (reject err a).
Proof.
  intros (Htitle & Hq & Hready & _ & Hempty & _ & Herr) Hfalse.
  unfold pdfInvariant, reject.
  destruct (racePending a); simpl; rewrite Hfalse in *;
    repeat split; auto; try discriminate; try tauto.
  right. exists (pdfErrorMessage err). split; [apply pdfErrorMessage_fixed|reflexivity].
Qed.

Lemma pdfInvariant_pageLoop (i numPages : nat) (fullText : jsstring)
    (images : list jsstring) (a : App) :
  pdfInvariant a ->
  documentLoaded (session a) = false ->
  pdfInvariant (pageLoop i numPages fullText images a).
Proof.
  intros Ha Hfalse. unfold pageLoop.
  destruct (i <=? numPages); [apply pdfInvariant_suspendAt; auto; discriminate|].
  unfold afterPages.
  assert (Hb : pdfInvariant
                 (withSession (fun s => setStatus indexing (setPdfImages images s)) a)).
  { destruct Ha as (Htitle & Hq & Hready & Hloaded & Hempty & Hchunks & Herr).
    unfold pdfInvariant. simpl. rewrite Hfalse in *.
    repeat split; auto; try discriminate; tauto. }
  destruct (length (chunkText fullText) =? 0) eqn:Hlen.
  - apply pdfInvariant_reject; [exact Hb|exact Hfalse].
  - apply pdfInvariant_suspendAt; [exact Hb|exact Hfalse|].
    intros textChunks Heq. inversion Heq; subst.
    intro Hnil. rewrite Hnil in Hlen. discriminate Hlen.
Qed.

Lemma pdfInvariant_step (a : App) (ev : Event) :
  pdfInvariant a -> pdfInvariant (step a ev).
Proof.
  intro Ha.
  destruct ev as [[|]| |[n|err]|[page|err]|genai|]; simpl;
    try (destruct (processing a) eqn:Hp; try exact Ha;
         assert (Hfalse : documentLoaded (session a) = false)
           by (apply running_not_loaded; [exact Ha|rewrite Hp; discriminate]);
         try (apply pdfInvariant_reject; assumption);
         try (apply pdfInvariant_pageLoop; assumption);
         try (apply pdfInvariant_suspendAt; [assumption|assumption|discriminate])).
  - (* the embedding settles *)
    unfold afterEmbedding.
    destruct (embedChunks genai textChunks) as [stored|err] eqn:Hembed;
      [|apply pdfInvariant_reject; assumption].
    destruct Ha as (Htitle & Hq & Hready & Hloaded & Hempty & Hchunks & Herr).
    unfold pdfInvariant. simpl.
    repeat split; auto; try discriminate.
    intro Hnil. subst stored.
    apply embedChunks_contents in Hembed. simpl in Hembed.
    apply (Hchunks textChunks Hp). now symmetry.
  - (* the timer *)
    destruct (racePending a) eqn:Hr; [|exact Ha].
    assert (Hfalse : documentLoaded (session a) = false).
    { destruct Ha as (_ & _ & _ & Hloaded & _).
      destruct (documentLoaded (session a)); [|reflexivity].
      destruct (Hloaded eq_refl) as (_ & _ & _ & Hr'). congruence. }
    destruct Ha as (Htitle & Hq & Hready & Hloaded & Hempty & Hchunks & Herr).
    unfold pdfInvariant. simpl. rewrite Hfalse in *.
    repeat split; auto; try discriminate; try tauto.
    right. exists PDF_TIMEOUT_MESSAGE. split; [right; now left|reflexivity].
Qed.

Lemma fileName_step (a : App) (ev : Event) : fileName (step a ev) = fileName a.
Proof.
  destruct ev as [[|]| |[n|err]|[page|err]|genai|]; simpl;
    destruct (processing a); try reflexivity;
    unfold pageLoop, afterPages, afterEmbedding;
    repeat match goal with
           | |- context [if ?b then _ else _] => destruct b
           | |- context [match ?r with Normal _ => _ | Throw _ => _ end] => destruct r
           end; reflexivity.
Qed.

Lemma pdfInvariant_run (evs : list Event) (a : App) :
  pdfInvariant a ->
  pdfInvariant (run a evs) /\ fileName (run a evs) = fileName a.
Proof.
  revert a. induction evs as [|ev evs IH]; intros a Ha; [now split|].
  simpl. destruct (IH (step a ev) (pdfInvariant_step a ev Ha)) as [Hinv Hname].
  split; [exact Hinv|]. change (fold_left step evs (step a ev)) with (run (step a ev) evs).
  now rewrite Hname, fileName_step.
Qed.

Lemma loadingWhilePending_reject (err : Thrown) (a : App) :
  loadingWhilePending (reject err a).
Proof. intro H. discriminate H. Qed.

Lemma loadingWhilePending_pageLoop (i numPages : nat) (fullText : jsstring)
    (images : list jsstring) (a : App) :
  loadingWhilePending a ->
  loadingWhilePending (pageLoop i numPages fullText images a).
Proof.
  intro Ha. unfold pageLoop, afterPages.
  destruct (i <=? numPages); [exact Ha|].
  destruct (length (chunkText fullText) =? 0);
    [apply loadingWhilePending_reject | intros _; reflexivity].
Qed.

Lemma loadingWhilePending_step (a : App) (ev : Event) :
  loadingWhilePending a -> loadingWhilePending (step a ev).
Proof.
  intro Ha. destruct ev as [[|]| |[n|err]|[page|err]|genai|]; simpl;
    destruct (processing a) eqn:Hp; try exact Ha;
    try apply loadingWhilePending_reject;
    try (apply loadingWhilePending_pageLoop; exact Ha);
    try (destruct (racePending a); [intro H; discriminate H|exact Ha]).
  unfold afterEmbedding. destruct (embedChunks genai textChunks);
    [intro H; discriminate H | apply loadingWhilePending_reject].
Qed.

Lemma loadingWhilePending_run (evs : list Event) (a : App) :
  loadingWhilePending a -> loadingWhilePending (run a evs).
Proof.
  revert a. induction evs as [|ev evs IH]; intros a Ha; [exact Ha|].
  simpl. apply IH. now apply loadingWhilePending_step.
Qed.

(** X13. A file is selected while no handler is in flight, and only events
    of PDF ingestions follow, whichever and in whatever order (no other file
    or text is submitted, nothing is asked, the document is not cleared).
    Then the title is the file's name; the status is [ready] exactly when
    the document is marked loaded, and then the index is not empty and the
    transcript is the one acknowledgment naming the file; until then the
    index and the transcript are empty; an error, when one is recorded, is
    one of six fixed messages; and while the race of the ingestion is
    pending the status is [parsing] or [indexing] and no document is loaded,
    so that the interface shows its loader and offers neither the upload
    area nor the chat. *)
Theorem pdf_session_invariant (w0 : World) (name : jsstring)
    (evs : list (nat * Event)) :
  quiet w0 ->
  let w := actAll (act w0 (SelectFile name)) (map flowEvent evs) in
  let s := w_session w in
  documentTitle s = name
  /\ (status s = ready <-> documentLoaded s = true)
  /\ (documentLoaded s = true ->
      vectorStore s <> []
      /\ chatHistory s = [{| sender := ai; text := pdfReadyMessage name |}])
  /\ (documentLoaded s = false -> vectorStore s = [] /\ chatHistory s = [])
  /\ (error s = None \/ exists message, In message pdfMessages /\ error s = Some message)
  /\ (forall f,
        nth_error (w_flows w) (length (w_flows w0)) = Some f ->
        flowRacePending f = true ->
        isLoading (status s) = true /\ documentLoaded s = false).
Proof.
  intros (Hover & _ & _) w s.
  assert (Hw : w = _) by exact (quiet_ingestion w0 name evs Hover).
  set (a := run (handleFileSelect name (w_session w0))
                (eventsOf (length (w_flows w0)) evs)) in Hw.
  assert (Hs : s = session a) by (unfold s; now rewrite Hw).
  assert (Hstart : pdfInvariant (handleFileSelect name (w_session w0))).
  { unfold pdfInvariant. simpl. repeat split; auto; try discriminate. }
  destruct (pdfInvariant_run (eventsOf (length (w_flows w0)) evs) _ Hstart)
    as [(Htitle & Hq & Hready & Hloaded & Hempty & _ & Herr) Hname].
  fold a in Htitle, Hq, Hready, Hloaded, Hempty, Herr, Hname.
  simpl in Hname. rewrite Hname in *. rewrite <- Hs in *.
  split; [exact Htitle|]. split; [exact Hready|].
  split; [intro H; destruct (Hloaded H) as (H1 & H2 & _); now split|].
  split; [exact Hempty|]. split; [exact Herr|].
  intros f Hf Hrace. rewrite Hw in Hf. cbn [w_flows] in Hf.
  rewrite nth_error_app2, Nat.sub_diag in Hf by lia.
  cbn [nth_error] in Hf. inversion Hf; subst f.
  cbn [flowOf flowRacePending] in Hrace.
  assert (Hloading : loadingWhilePending a).
  { apply loadingWhilePending_run. intros _. reflexivity. }
  split; [rewrite Hs; exact (Hloading Hrace)|].
  destruct (documentLoaded s) eqn:Hl; [|reflexivity].
  destruct (Hloaded eq_refl) as (_ & _ & _ & Hr). congruence.
Qed.

Lemma pdf_session_invariant_witness :
  let genai := stubGenAI (fun _ => [1; 0]%float) [] in
  let w := actAll (act initialWorld (SelectFile (lit "slow.pdf")))
                  (map flowEvent
                     (ofFlow 0 (TimerFired :: slowStart ++ [EmbeddingSettled genai]))) in
  quiet initialWorld
  /\ documentLoaded (w_session w) = true
  /\ documentTitle (w_session w) = lit "slow.pdf"
  /\ status (w_session w) = ready
  /\ chatHistory (w_session w)
     = [{| sender := ai; text := pdfReadyMessage (lit "slow.pdf") |}]
  /\ error (w_session w) = Some PDF_TIMEOUT_MESSAGE.
Proof.
  assert (Hquiet : quiet initialWorld) by (repeat split; constructor).
  destruct (pdf_session_invariant initialWorld (lit "slow.pdf")
              (ofFlow 0 (TimerFired :: slowStart
                         ++ [EmbeddingSettled (stubGenAI (fun _ => [1; 0]%float) [])]))
              Hquiet)
    as (Htitle & Hready & Hloaded & _).
  cbv zeta in *.
  assert (Hl : documentLoaded
                 (w_session
                    (actAll (act initialWorld (SelectFile (lit "slow.pdf")))
                       (map flowEvent
                          (ofFlow 0
                             (TimerFired :: slowStart
                              ++ [EmbeddingSettled
                                    (stubGenAI (fun _ => [1; 0]%float) [])])))))
               = true) by (vm_compute; reflexivity).
  split; [exact Hquiet|]. split; [exact Hl|]. split; [exact Htitle|].
  split; [now apply Hready|]. split; [now apply Hloaded|].
  vm_compute. reflexivity.
Defined.

(* ================================================================== *)
(** * Further properties: how failures are reported *)

Lemma str_eqb_eq (s t : jsstring) : str_eqb s t = true <-> s = t.
Proof.
  revert t. induction s as [|c s IH]; intros [|d t]; simpl;
    try (split; [discriminate|discriminate]); [tauto|].
  rewrite andb_true_iff, N.eqb_eq, IH. split.
  - intros [-> ->]. reflexivity.
  - intro H. inversion H. now split.
Qed.

Lemma str_eqb_neq (s t : jsstring) : s <> t -> str_eqb s t = false.
Proof.
  intro H. destruct (str_eqb s t) eqn:E; [|reflexivity].
  apply str_eqb_eq in E. contradiction.
Qed.

(** X14. The first to settle decides.  If opening the document fails while
    the race is pending, the session is [idle] with the message chosen for
    the thrown value, and nothing that follows (the timer included) changes
    it.  The message is chosen by the error's message first and its name
    second: "Timeout" and "NoTextContent" as messages select the timeout and
    no-text notices whatever the name; otherwise the names
    InvalidPDFException and PasswordException select theirs; a thrown value
    that is not an [Error] gets the unexpected-error notice. *)
Theorem document_failure_is_final (a : App) (err : Thrown) (evs : list Event) :
  processing a = LoadingDocument ->
  racePending a = true ->
  let a' := run a (DocumentSettled (Throw err) :: evs) in
  session a' = setStatus idle (setError (Some (pdfErrorMessage err)) (session a))
  /\ (forall e, err = ThrownError e ->
        (err_message e = TIMEOUT -> error (session a') = Some PDF_TIMEOUT_MESSAGE)
        /\ (err_message e = NO_TEXT_CONTENT ->
            error (session a') = Some PDF_NO_TEXT_MESSAGE)
        /\ (err_message e <> TIMEOUT -> err_message e <> NO_TEXT_CONTENT ->
            (err_name e = lit "InvalidPDFException" ->
             error (session a') = Some PDF_INVALID_MESSAGE)
            /\ (err_name e = lit "PasswordException" ->
                error (session a') = Some PDF_PASSWORD_MESSAGE)
            /\ (err_name e <> lit "InvalidPDFException" ->
                err_name e <> lit "PasswordException" ->
                error (session a') = Some PDF_FAILED_MESSAGE)))
  /\ (err = ThrownOther -> error (session a') = Some PDF_UNEXPECTED_MESSAGE).
Proof.
  intros Hp Hr a'.
  assert (Ha' : a' = reject err a).
  { unfold a'. cbn [run fold_left]. change (fold_left step ?l ?x) with (run x l).
    cbn [step]. rewrite Hp. now apply settled_is_final. }
  assert (Hsession : session a'
                     = setStatus idle (setError (Some (pdfErrorMessage err)) (session a))).
  { rewrite Ha'. unfold reject. simpl. now rewrite Hr. }
  split; [exact Hsession|]. rewrite Hsession. simpl. split.
  - intros e ->. simpl. split; [|split].
    + intros ->. reflexivity.
    + intros ->. reflexivity.
    + intros Ht Hn. rewrite (str_eqb_neq _ _ Ht), (str_eqb_neq _ _ Hn).
      split; [|split].
      * intros ->. reflexivity.
      * intros ->. reflexivity.
      * intros Hi Hw. now rewrite (str_eqb_neq _ _ Hi), (str_eqb_neq _ _ Hw).
  - intros ->. reflexivity.
Qed.

Lemma document_failure_is_final_witness :
  let opened := run (handleFileSelect (lit "locked.pdf") initialSession)
                    [FileLoaded true] in
  let err := ThrownError {| err_name := lit "PasswordException";
                            err_message := lit "No password given" |} in
  let a' := run opened [DocumentSettled (Throw err); TimerFired] in
  status (session a') = idle
  /\ error (session a') = Some PDF_PASSWORD_MESSAGE.
Proof.
  destruct (document_failure_is_final
              (run (handleFileSelect (lit "locked.pdf") initialSession)
                   [FileLoaded true])
              (ThrownError {| err_name := lit "PasswordException";
                              err_message := lit "No password given" |})
              [TimerFired] eq_refl eq_refl) as (Hsession & Hclass & _).
  cbv zeta in *. split; [now rewrite Hsession|].
  destruct (Hclass _ eq_refl) as (_ & _ & Hname).
  apply Hname; [vm_compute; discriminate | vm_compute; discriminate | reflexivity].
Defined.

(** X15. The same embedding failure is reported differently by the two
    ingestion paths: for a PDF the notice is "Failed to process the PDF. It
    might be corrupted or in a complex format.", for pasted text it is the
    error's own message, "Failed to embed document chunks.".  Either way the
    status is [idle] and nothing is indexed. *)
Theorem embedding_failure_notices (genai : GenAI) (a : App) (s : Session)
    (textChunks : list jsstring) (text : jsstring) (t t' : Thrown) :
  processing a = EmbeddingChunks textChunks ->
  racePending a = true ->
  embedChunks genai textChunks = Throw t ->
  chunkText text <> [] ->
  embedChunks genai (chunkText text) = Throw t' ->
  let a' := step a (EmbeddingSettled genai) in
  let s' := processAndIndexText genai text s in
  error (session a') = Some PDF_FAILED_MESSAGE
  /\ status (session a') = idle
  /\ vectorStore (session a') = vectorStore (session a)
  /\ error s' = Some EMBED_FAILED_MESSAGE
  /\ status s' = idle
  /\ vectorStore s' = vectorStore s.
Proof.
  intros Hp Hr Hembed Hchunks Hembed' a' s'.
  pose proof (embedChunks_catch_Throw _ _ Hembed) as ->.
  pose proof (embedChunks_catch_Throw _ _ Hembed') as ->.
  unfold a', s'. cbn [step]. rewrite Hp, Hembed.
  unfold afterEmbedding, reject. rewrite Hr.
  unfold processAndIndexText, indexText.
  destruct (chunkText text) as [|c cs] eqn:Hc; [contradiction|].
  cbn [length Nat.eqb]. rewrite Hembed'.
  repeat split.
Qed.

Lemma embedding_failure_notices_witness :
  let a := run (handleFileSelect (lit "slow.pdf") initialSession) slowStart in
  error (session (step a (EmbeddingSettled failingGenAI))) = Some PDF_FAILED_MESSAGE
  /\ error (processAndIndexText failingGenAI (lit "A page of text, long enough.")
              initialSession)
     = Some EMBED_FAILED_MESSAGE.
Proof.
  pose proof (embedding_failure_notices failingGenAI
                (run (handleFileSelect (lit "slow.pdf") initialSession) slowStart)
                initialSession
                [lit "A page of text, long enough to keep."]
                (lit "A page of text, long enough.")
                (ThrownError (new_Error EMBED_FAILED_MESSAGE))
                (ThrownError (new_Error EMBED_FAILED_MESSAGE))) as H.
  cbv zeta in H.
  destruct H as (Hpdf & _ & _ & Htext & _); try (vm_compute; reflexivity).
  - vm_compute. discriminate.
  - split; assumption.
Defined.

(* ================================================================== *)
(** * Further properties: the payload of a page image *)

Lemma split_on_nonempty (c : N) (s : jsstring) : split_on c s <> [].
Proof.
  destruct s as [|d s]; simpl; [discriminate|].
  destruct (N.eqb d c); [discriminate|].
  destruct (split_on c s); discriminate.
Qed.

Lemma split_on_head (c : N) (s : jsstring) :
  exists piece pieces,
    split_on c s = piece :: pieces
    /\ ~ In c piece
    /\ (pieces = [] -> s = piece)
    /\ (pieces <> [] -> exists more, s = piece ++ c :: more).
Proof.
  induction s as [|d s (piece & pieces & Heq & Hnot & Hone & Hmore)].
  - exists [], []. repeat split; auto. intro H. contradiction.
  - simpl. destruct (N.eqb d c) eqn:E.
    + apply N.eqb_eq in E. subst d. exists [], (split_on c s).
      repeat split; auto.
      * intro H. exfalso. now apply (split_on_nonempty c s).
      * intros _. now exists s.
    + rewrite Heq. exists (d :: piece), pieces. repeat split.
      * intros [->|Hin]; [now rewrite N.eqb_refl in E|contradiction].
      * intro H. now rewrite (Hone H).
      * intro H. destruct (Hmore H) as [more ->]. now exists more.
Qed.

(** X16. What is forwarded as the data of a page image: nothing
    ([undefined]) when the string has no comma; otherwise the piece between
    the first comma and the second, or the end of the string, so that
    anything after a second comma is dropped. *)
Theorem dataUrlPayload_cases (dataUrl : jsstring) :
  (~ In COMMA dataUrl -> dataUrlPayload dataUrl = None)
  /\ (forall prefix rest,
        ~ In COMMA prefix ->
        dataUrl = prefix ++ COMMA :: rest ->
        exists payload,
          dataUrlPayload dataUrl = Some payload
          /\ ~ In COMMA payload
          /\ (rest = payload \/ exists dropped, rest = payload ++ COMMA :: dropped)).
Proof.
  split.
  - intro Hnone. unfold dataUrlPayload.
    now rewrite (split_on_no_separator COMMA dataUrl Hnone).
  - intros prefix rest Hprefix ->. unfold dataUrlPayload.
    rewrite (split_on_first COMMA prefix rest Hprefix).
    destruct (split_on_head COMMA rest)
      as (payload & pieces & Heq & Hnot & Hone & Hmore).
    rewrite Heq. exists payload. split; [reflexivity|]. split; [exact Hnot|].
    destruct pieces as [|p ps]; [left; now apply Hone|].
    right. apply Hmore. discriminate.
Qed.

Lemma dataUrlPayload_cases_witness :
  dataUrlPayload (lit "data:image/jpeg;base64") = None
  /\ exists payload,
       dataUrlPayload (lit "data:" ++ COMMA :: lit "AAAA,BBBB") = Some payload
       /\ ~ In COMMA payload.
Proof.
  split.
  - apply (dataUrlPayload_cases (lit "data:image/jpeg;base64")).
    vm_compute. intuition discriminate.
  - destruct (proj2 (dataUrlPayload_cases (lit "data:" ++ COMMA :: lit "AAAA,BBBB"))
                (lit "data:") (lit "AAAA,BBBB"))
      as (payload & Heq & Hnot & _);
      [vm_compute; intuition discriminate | reflexivity |].
    now exists payload.
Defined.

(* ================================================================== *)
(** * Further properties: from ingestion to the first question *)

(** X17. Once an ingestion has left the session [ready], a question that
    is not blank is never dropped: the transcript becomes the
    acknowledgment, the trimmed question and one reply (the answer or the
    apology), and the input box is cleared.  This holds after any events of a
    PDF ingestion and after any pasted text. *)
Theorem ready_session_answers (genai genai' : GenAI) (query : jsstring) :
  trim query <> [] ->
  (forall name s0 evs,
     let s := session (run (handleFileSelect name s0) evs) in
     status s = ready ->
     exists reply,
       submitQuery genai query s
       = (handleQuerySubmit genai (trim query) s, [])
       /\ chatHistory (handleQuerySubmit genai (trim query) s)
          = [ {| sender := ai; text := pdfReadyMessage name |};
              {| sender := user; text := trim query |};
              {| sender := ai; text := reply |} ])
  /\ (forall textContent s0,
        let s := pasteText genai' textContent s0 in
        trim textContent <> [] ->
        status s = ready ->
        exists reply,
          submitQuery genai query s
          = (handleQuerySubmit genai (trim query) s, [])
          /\ chatHistory (handleQuerySubmit genai (trim query) s)
             = [ {| sender := ai; text := TEXT_READY_MESSAGE |};
                 {| sender := user; text := trim query |};
                 {| sender := ai; text := reply |} ]).
Proof.
  intro Hquery.
  assert (Hlen : (length (trim query) =? 0) = false)
    by (destruct (trim query); [contradiction|reflexivity]).
  assert (Hsubmit : forall s,
             status s = ready -> vectorStore s <> [] ->
             exists reply,
               submitQuery genai query s
               = (handleQuerySubmit genai (trim query) s, [])
               /\ chatHistory (handleQuerySubmit genai (trim query) s)
                  = chatHistory s ++ [ {| sender := user; text := trim query |};
                                       {| sender := ai; text := reply |} ]).
  { intros s Hready Hstore.
    assert (Hn : (length (vectorStore s) =? 0) = false)
      by (destruct (vectorStore s); [contradiction|reflexivity]).
    unfold submitQuery, ChatInterface_handleSubmit. rewrite Hlen, Hready. simpl.
    unfold handleQuerySubmit. rewrite Hn, Hready. simpl.
    destruct (queryDocument genai (trim query) (vectorStore s) (pdfImages s));
      simpl; rewrite <- app_assoc; simpl; eexists; split; reflexivity. }
  split.
  - intros name s0 evs s Hready.
    assert (Hstart : pdfInvariant (handleFileSelect name s0)).
    { unfold pdfInvariant. simpl. repeat split; auto; try discriminate. }
    destruct (pdfInvariant_run evs _ Hstart)
      as [(_ & _ & Hiff & Hloaded & _) Hname].
    simpl in Hname. rewrite Hname in Hloaded. fold s in Hiff, Hloaded.
    destruct (Hloaded (proj1 Hiff Hready)) as (Hstore & Hchat & _).
    destruct (Hsubmit s Hready Hstore) as (reply & Heq & Hhistory).
    exists reply. split; [exact Heq|]. now rewrite Hhistory, Hchat.
  - intros textContent s0 s Htext Hready.
    assert (Hs : s = processAndIndexText genai' (trim textContent)
                       (setDocumentTitle (lit "Pasted Text") initialSession)).
    { unfold s, pasteText, handleTextProcess.
      assert (Hl : (length (trim textContent) =? 0) = false)
        by (destruct (trim textContent); [contradiction|reflexivity]).
      rewrite Hl. simpl. unfold handleTextSubmit.
      now rewrite trim_idempotent, Hl. }
    assert (Hstore : vectorStore s <> [] /\ chatHistory s
                     = [{| sender := ai; text := TEXT_READY_MESSAGE |}]).
    { rewrite Hs in Hready |- *.
      unfold processAndIndexText, indexText in *.
      destruct (chunkText (trim textContent)) as [|c cs] eqn:Hc;
        [discriminate Hready|].
      cbn [length Nat.eqb] in *.
      destruct (embedChunks genai' (c :: cs)) as [stored|t] eqn:He;
        [|discriminate Hready].
      simpl. split; [|reflexivity].
      intro Hnil. subst stored. apply embedChunks_contents in He. discriminate He. }
    destruct Hstore as [Hstore Hchat].
    destruct (Hsubmit s Hready Hstore) as (reply & Heq & Hhistory).
    exists reply. split; [exact Heq|]. now rewrite Hhistory, Hchat.
Qed.

Lemma ready_session_answers_witness :
  let genai := stubGenAI (fun _ => [1; 0]%float) (lit "It is a page.") in
  let s := session (run (handleFileSelect (lit "slow.pdf") initialSession)
                        (slowStart ++ [EmbeddingSettled genai])) in
  status s = ready
  /\ exists reply,
       chatHistory (fst (submitQuery genai (lit " What is this? ") s))
       = [ {| sender := ai; text := pdfReadyMessage (lit "slow.pdf") |};
           {| sender := user; text := lit "What is this?" |};
           {| sender := ai; text := reply |} ].
Proof.
  split; [vm_compute; reflexivity|].
  destruct (ready_session_answers
              (stubGenAI (fun _ => [1; 0]%float) (lit "It is a page."))
              failingGenAI (lit " What is this? ")) as [Hpdf _];
    [vm_compute; discriminate|].
  destruct (Hpdf (lit "slow.pdf") initialSession
                 (slowStart ++ [EmbeddingSettled
                                  (stubGenAI (fun _ => [1; 0]%float)
                                             (lit "It is a page."))]))
    as (reply & Heq & Hchat); [vm_compute; reflexivity|].
  exists reply. cbv zeta. rewrite Heq. exact Hchat.
Defined.

(* ================================================================== *)
(** * Further properties: the two ways to choose a file *)

(** X18. Of the files dropped or chosen only the first is ever forwarded.
    A drop forwards it only when its type is application/pdf and raises an
    alert otherwise; the file dialog forwards it whatever its type.  So
    whatever a drop forwards the dialog forwards too, but not the other way
    round. *)
Theorem drop_checks_type_dialog_does_not (files : list File) (file : File) :
  (handleDrop files = CallOnFileSelect file ->
   hd_error files = Some file
   /\ file_type file = lit "application/pdf"
   /\ handleFileChange files = CallOnFileSelect file)
  /\ (handleFileChange files = CallOnFileSelect file ->
      hd_error files = Some file
      /\ (file_type file <> lit "application/pdf" ->
          handleDrop files = CallAlert (lit "Please upload a PDF file.")))
  /\ (files = [] -> handleDrop files = NoCall /\ handleFileChange files = NoCall).
Proof.
  split; [|split].
  - destruct files as [|first others]; simpl; [discriminate|].
    destruct (str_eqb (file_type first) (lit "application/pdf")) eqn:E;
      [|discriminate].
    intro H. inversion H; subst. apply str_eqb_eq in E. now repeat split.
  - destruct files as [|first others]; simpl; [discriminate|].
    intro H. inversion H; subst. split; [reflexivity|].
    intro Htype. now rewrite (str_eqb_neq _ _ Htype).
  - intros ->. now split.
Qed.

Lemma drop_checks_type_dialog_does_not_witness :
  let notes := {| file_name := lit "notes.txt"; file_type := lit "text/plain" |} in
  let manual := {| file_name := lit "manual.pdf"; file_type := lit "application/pdf" |} in
  handleFileChange [notes; manual] = CallOnFileSelect notes
  /\ handleDrop [notes; manual] = CallAlert (lit "Please upload a PDF file.")
  /\ handleFileChange [manual; notes] = CallOnFileSelect manual.
Proof.
  cbv zeta.
  split; [reflexivity|]. split.
  - apply (drop_checks_type_dialog_does_not
             [ {| file_name := lit "notes.txt"; file_type := lit "text/plain" |};
               {| file_name := lit "manual.pdf"; file_type := lit "application/pdf" |} ]
             {| file_name := lit "notes.txt"; file_type := lit "text/plain" |});
      [reflexivity | vm_compute; discriminate].
  - apply (drop_checks_type_dialog_does_not
             [ {| file_name := lit "manual.pdf"; file_type := lit "application/pdf" |};
               {| file_name := lit "notes.txt"; file_type := lit "text/plain" |} ]
             {| file_name := lit "manual.pdf"; file_type := lit "application/pdf" |}).
    reflexivity.
Defined.
